(** * channeldb: the channel state store (db.go)

    A shallow embedding of [channeldb/db.go]: the facade over the bbolt
    key-value store that keeps channel, close-summary, link-node and meta
    records, together with the schema-migration engine.

    Layout of the development:
    - byte strings and their ordering ([bytes.Compare]);
    - results of fallible Go code (value, error, run-time panic);
    - the backing store: nested buckets with bytewise-ordered keys,
      read-only and read-write transactions;
    - meta record and migration engine ([syncVersions], [Open]);
    - [Wipe], channel queries, closed-channel queries, [MarkChanFullyClosed],
      [AbandonChannel], [RestoreChannelShells];
    - the theorems. *)

From Stdlib Require Import List NArith ZArith Lia Bool PeanoNat Sorted.
From Stdlib Require Import Permutation.
From Stdlib Require Import Strings.Byte.
From Stdlib Require Strings.String.
Import ListNotations.
Import String.StringSyntax.

Set Implicit Arguments.
Set Warnings "-register-all".
Local Open Scope N_scope.

(* ------------------------------------------------------------------ *)
(** ** Byte strings *)

Definition bytes := list byte.

(** [[]byte("...")] *)
Definition bytes_of (s : String.string) : bytes :=
  String.list_byte_of_string s.

(** [bytes.Compare]: lexicographic order on unsigned bytes. *)
Fixpoint bytes_compare (a b : bytes) : comparison :=
  match a, b with
  | [], [] => Eq
  | [], _ :: _ => Lt
  | _ :: _, [] => Gt
  | x :: a', y :: b' =>
      match N.compare (Byte.to_N x) (Byte.to_N y) with
      | Eq => bytes_compare a' b'
      | c => c
      end
  end.

Definition bytes_eqb (a b : bytes) : bool :=
  match bytes_compare a b with Eq => true | _ => false end.

(** [byte(n)]: truncation of an unsigned integer to its low 8 bits. *)
Definition byte_of_N (n : N) : byte :=
  match Byte.of_N (n mod 256) with
  | Some b => b
  | None => x00
  end.

(** [binary.BigEndian.PutUint32] / [Uint32]. *)
Definition be32 (n : N) : bytes :=
  [byte_of_N (n / 16777216); byte_of_N (n / 65536);
   byte_of_N (n / 256); byte_of_N n].

Definition be32_decode (b0 b1 b2 b3 : byte) : N :=
  Byte.to_N b0 * 16777216 + Byte.to_N b1 * 65536
  + Byte.to_N b2 * 256 + Byte.to_N b3.

(* ------------------------------------------------------------------ *)
(** ** Errors and results *)

(** The sentinel errors of the package and of bbolt that the modelled code
    returns or tests for; [ErrFmt] stands for an error built by
    [fmt.Errorf], [ErrOther] for an error of a collaborator. *)
Inductive error : Type :=
| ErrNoActiveChannels
| ErrChannelNotFound
| ErrClosedChannelNotFound
| ErrNoClosedChannels
| ErrNoChanDBExists
| ErrMetaNotFound
| ErrDBReversion
| ErrGraphNotFound
| ErrEdgeAlreadyExist
| ErrLinkNodesNotFound
| ErrBucketNotFound
| ErrBucketExists
| ErrBucketNameRequired
| ErrIncompatibleValue
| ErrKeyRequired
| ErrCodec
| ErrFmt (msg : String.string)
| ErrOther (code : N).

(** What a call of Go code comes to: a value, an [error] value, or a
    run-time panic (index or slice bound out of range). *)
Inductive result (A : Type) : Type :=
| Ok (a : A)
| Err (e : error)
| Panic.

Arguments Ok {A} a.
Arguments Err {A} e.
Arguments Panic {A}.

Definition bind {A B} (r : result A) (k : A -> result B) : result B :=
  match r with
  | Ok a => k a
  | Err e => Err e
  | Panic => Panic
  end.

Notation "x <- c ;; k" := (bind c (fun x => k))
  (at level 61, c at next level, right associativity).
Notation "c ;; k" := (bind c (fun _ => k))
  (at level 61, right associativity).
Notation "' pat <- c ;; k" :=
  (bind c (fun x => match x with pat => k end))
  (at level 61, pat pattern, c at next level, right associativity).

(* ------------------------------------------------------------------ *)
(** ** The backing store (bbolt)

    A bucket maps a key to a value or to a nested bucket, never both, and
    iterates in bytewise-ascending key order.  The entries are kept as an
    association list; [Put] and [CreateBucket] insert at the ordered
    position. *)

Inductive node : Type :=
| Value (v : bytes)
| Nested (entries : list (bytes * node)).

Definition bucket := list (bytes * node).

Fixpoint find_key (k : bytes) (b : bucket) : option node :=
  match b with
  | [] => None
  | (k', n) :: b' => if bytes_eqb k k' then Some n else find_key k b'
  end.

Fixpoint put_node (k : bytes) (n : node) (b : bucket) : bucket :=
  match b with
  | [] => [(k, n)]
  | (k', n') :: b' =>
      match bytes_compare k k' with
      | Lt => (k, n) :: (k', n') :: b'
      | Eq => (k, n) :: b'
      | Gt => (k', n') :: put_node k n b'
      end
  end.

Definition remove_key (k : bytes) (b : bucket) : bucket :=
  filter (fun e => negb (bytes_eqb k (fst e))) b.

(** [b.Get(key)]: nil when the key is absent or names a nested bucket. *)
Definition Bucket_Get (b : bucket) (key : bytes) : option bytes :=
  match find_key key b with
  | Some (Value v) => Some v
  | _ => None
  end.

(** [b.Bucket(name)]: nil when the key is absent or holds a value. *)
Definition Bucket_Bucket (b : bucket) (name : bytes) : option bucket :=
  match find_key name b with
  | Some (Nested s) => Some s
  | _ => None
  end.

(** [b.Put(key, value)]. *)
Definition Bucket_Put (b : bucket) (key value : bytes) : result bucket :=
  match key with
  | [] => Err ErrKeyRequired
  | _ =>
      match find_key key b with
      | Some (Nested _) => Err ErrIncompatibleValue
      | _ => Ok (put_node key (Value value) b)
      end
  end.

(** [b.Delete(key)]: an absent key is not an error. *)
Definition Bucket_Delete (b : bucket) (key : bytes) : result bucket :=
  match find_key key b with
  | Some (Nested _) => Err ErrIncompatibleValue
  | Some (Value _) => Ok (remove_key key b)
  | None => Ok b
  end.

(** [b.CreateBucket(name)]: the bucket after the call and the new, empty
    nested bucket. *)
Definition Bucket_CreateBucket (b : bucket) (name : bytes)
  : result (bucket * bucket) :=
  match name with
  | [] => Err ErrBucketNameRequired
  | _ =>
      match find_key name b with
      | Some (Nested _) => Err ErrBucketExists
      | Some (Value _) => Err ErrIncompatibleValue
      | None => Ok (put_node name (Nested []) b, [])
      end
  end.

(** [b.CreateBucketIfNotExists(name)]. *)
Definition Bucket_CreateBucketIfNotExists (b : bucket) (name : bytes)
  : result (bucket * bucket) :=
  match name with
  | [] => Err ErrBucketNameRequired
  | _ =>
      match find_key name b with
      | Some (Nested s) => Ok (b, s)
      | Some (Value _) => Err ErrIncompatibleValue
      | None => Ok (put_node name (Nested []) b, [])
      end
  end.

(** [b.DeleteBucket(name)]. *)
Definition Bucket_DeleteBucket (b : bucket) (name : bytes) : result bucket :=
  match find_key name b with
  | Some (Nested _) => Ok (remove_key name b)
  | Some (Value _) => Err ErrIncompatibleValue
  | None => Err ErrBucketNotFound
  end.

(** Go code changes a nested bucket through the pointer it holds; with
    explicit state the changed nested bucket is stored back under its
    name. *)
Definition Bucket_store (b : bucket) (name : bytes) (sub : bucket) : bucket :=
  put_node name (Nested sub) b.

(** [c.Seek(seek)] on a cursor: the entries from the first key that is
    not below [seek]; [c.Next()] steps through them. *)
Fixpoint Cursor_Seek (b : bucket) (seek : bytes) : bucket :=
  match b with
  | [] => []
  | (k, n) :: b' =>
      match bytes_compare k seek with
      | Lt => Cursor_Seek b' seek
      | _ => b
      end
  end.

(** What a cursor or [ForEach] hands out as the value of an entry: nil
    for a nested bucket. *)
Definition node_value (n : node) : option bytes :=
  match n with
  | Value v => Some v
  | Nested _ => None
  end.

(** [b.ForEach(fn)]: [fn] on every entry in key order, up to the first
    error; [st] is what the closure has assigned so far to the variables
    it captures. *)
Fixpoint Bucket_ForEach {St : Type}
    (fn : bytes -> option bytes -> St -> result St) (b : bucket) (st : St)
  : result St :=
  match b with
  | [] => Ok st
  | (k, n) :: b' =>
      st' <- fn k (node_value n) st ;; Bucket_ForEach fn b' st'
  end.

(** [bytes.NewReader(v)] reads a nil slice as an empty one. *)
Definition reader (v : option bytes) : bytes :=
  match v with
  | Some v => v
  | None => []
  end.

(** [s[:n]] on a slice whose capacity is its length, as bbolt hands out
    keys: a bound above the length is a run-time panic. *)
Definition slice_to (n : nat) (s : bytes) : result bytes :=
  if (n <=? length s)%nat then Ok (firstn n s) else Panic.

(** A transaction works on the root bucket; the database is the committed
    root bucket. *)
Definition Tx := bucket.
Definition DB := bucket.

Definition Tx_Bucket (tx : Tx) (name : bytes) : option bucket :=
  Bucket_Bucket tx name.
Definition Tx_CreateBucket (tx : Tx) (name : bytes) :=
  Bucket_CreateBucket tx name.
Definition Tx_CreateBucketIfNotExists (tx : Tx) (name : bytes) :=
  Bucket_CreateBucketIfNotExists tx name.
Definition Tx_DeleteBucket (tx : Tx) (name : bytes) :=
  Bucket_DeleteBucket tx name.

(** [d.Update(fn)]: commit when [fn] returns nil, roll back on an error
    or a panic. *)
Definition DB_Update (fn : Tx -> result Tx) (d : DB) : DB * result unit :=
  match fn d with
  | Ok tx' => (tx', Ok tt)
  | Err e => (d, Err e)
  | Panic => (d, Panic)
  end.

(** [d.View(fn)]: [fn] reads a snapshot; what the closure assigns to the
    variables it captures is returned as its value. *)
Definition DB_View {A} (fn : Tx -> result A) (d : DB) : result A := fn d.

(* ------------------------------------------------------------------ *)
(** ** Bucket names

    Modelled from the spec: the byte strings of the bucket-name variables
    ([openChannelBucket], [closedChannelBucket], ...) are declared in
    files other than db.go; the names are those of the external-interface
    section. *)

Local Open Scope string_scope.

Definition openChannelBucket : bytes := bytes_of "open-chan-bucket".
Definition closedChannelBucket : bytes := bytes_of "closed-channel-bucket".
Definition forwardingLogBucket : bytes := bytes_of "fwd-log-bucket".
Definition fwdPackagesKey : bytes := bytes_of "fwd-packages".
Definition invoiceBucket : bytes := bytes_of "invoice-bucket".
Definition nodeInfoBucket : bytes := bytes_of "node-info-bucket".
Definition nodeBucket : bytes := bytes_of "node-bucket".
Definition aliasIndexBucket : bytes := bytes_of "alias-index-bucket".
Definition nodeUpdateIndexBucket : bytes := bytes_of "node-update-index-bucket".
Definition edgeBucket : bytes := bytes_of "edge-bucket".
Definition edgeIndexBucket : bytes := bytes_of "edge-index-bucket".
Definition edgeUpdateIndexBucket : bytes := bytes_of "edge-update-index-bucket".
Definition channelPointBucket : bytes := bytes_of "chan-point-bucket".
Definition zombieBucket : bytes := bytes_of "zombie-bucket".
Definition graphMetaBucket : bytes := bytes_of "graph-meta-bucket".
Definition pruneLogBucket : bytes := bytes_of "prune-log-bucket".
Definition metaBucket : bytes := bytes_of "meta-bucket".
Definition dbVersionKey : bytes := bytes_of "version".

Local Close Scope string_scope.

(* ------------------------------------------------------------------ *)
(** ** Meta record and migration engine *)

Record Meta : Type := { DbVersionNumber : N }.

(** Modelled from the spec: [FetchMeta] and [putMeta] live in meta.go.
    The meta record is the key [version] in [meta-bucket], a big-endian
    u32; a missing record is [ErrMetaNotFound], truncated bytes are a
    codec error. *)
Definition fetchMeta (tx : Tx) : result Meta :=
  match Tx_Bucket tx metaBucket with
  | None => Err ErrMetaNotFound
  | Some mb =>
      match Bucket_Get mb dbVersionKey with
      | None => Err ErrMetaNotFound
      | Some (b0 :: b1 :: b2 :: b3 :: _) =>
          Ok {| DbVersionNumber := be32_decode b0 b1 b2 b3 |}
      | Some _ => Err ErrCodec
      end
  end.

Definition FetchMeta (d : DB) : result Meta := DB_View fetchMeta d.

(** Modelled from the spec: [putMeta] (meta.go) writes the version as a
    big-endian u32 under [version] in [meta-bucket], creating the bucket
    when it is missing. *)
Definition putMeta (meta : Meta) (tx : Tx) : result Tx :=
  '(tx1, mb) <- Tx_CreateBucketIfNotExists tx metaBucket ;;
  mb' <- Bucket_Put mb dbVersionKey (be32 (DbVersionNumber meta)) ;;
  Ok (Bucket_store tx1 metaBucket mb').

(** [type migration func(tx *bbolt.Tx) error]; [None] is the nil
    migration. *)
Definition migration := option (Tx -> result Tx).

Record version : Type := {
  number : N;
  migration_of : migration
}.

(** The package [migration_01_to_11] is not part of db.go: its eleven
    migrations are taken as given. *)
Class migration_01_to_11 : Type := {
  MigrateNodeAndEdgeUpdateIndex : Tx -> result Tx;
  MigrateInvoiceTimeSeries : Tx -> result Tx;
  MigrateInvoiceTimeSeriesOutgoingPayments : Tx -> result Tx;
  MigrateEdgePolicies : Tx -> result Tx;
  PaymentStatusesMigration : Tx -> result Tx;
  MigratePruneEdgeUpdateIndex : Tx -> result Tx;
  MigrateOptionalChannelCloseSummaryFields : Tx -> result Tx;
  MigrateGossipMessageStoreKeys : Tx -> result Tx;
  MigrateOutgoingPayments : Tx -> result Tx;
  MigrateRouteSerialization : Tx -> result Tx;
  MigrateInvoices : Tx -> result Tx
}.

Definition dbVersions `{migration_01_to_11} : list version :=
  [ {| number := 0; migration_of := None |};
    {| number := 1; migration_of := Some MigrateNodeAndEdgeUpdateIndex |};
    {| number := 2; migration_of := Some MigrateInvoiceTimeSeries |};
    {| number := 3;
       migration_of := Some MigrateInvoiceTimeSeriesOutgoingPayments |};
    {| number := 4; migration_of := Some MigrateEdgePolicies |};
    {| number := 5; migration_of := Some PaymentStatusesMigration |};
    {| number := 6; migration_of := Some MigratePruneEdgeUpdateIndex |};
    {| number := 7;
       migration_of := Some MigrateOptionalChannelCloseSummaryFields |};
    {| number := 8; migration_of := Some MigrateGossipMessageStoreKeys |};
    {| number := 9; migration_of := Some MigrateOutgoingPayments |};
    {| number := 10; migration_of := Some MigrateRouteSerialization |};
    {| number := 11; migration_of := Some MigrateInvoices |} ].

(** [versions[len(versions)-1].number]; indexing an empty slice panics. *)
Definition getLatestDBVersion (versions : list version) : result N :=
  match nth_error versions (length versions - 1) with
  | Some v => Ok (number v)
  | None => Panic
  end.

(** The two slices are built by appending in step, one pass over
    [versions]. *)
Fixpoint getMigrationsToApply (versions : list version) (version : N)
  : list migration * list N :=
  match versions with
  | [] => ([], [])
  | v :: rest =>
      let '(migrations, migrationVersions) :=
        getMigrationsToApply rest version in
      if version <? number v
      then (migration_of v :: migrations, number v :: migrationVersions)
      else (migrations, migrationVersions)
  end.

(** The lines [syncVersions] logs around each migration. *)
Inductive logLine : Type :=
| LogApplying (v : N)
| LogUnableToApply (v : N).

(** The loop [for i, migration := range migrations] of [syncVersions],
    from index [i] on; a nil migration is skipped. *)
Fixpoint applyMigrations (migrations : list migration)
    (migrationVersions : list N) (i : nat) (tx : Tx)
  : list logLine * result Tx :=
  match migrations with
  | [] => ([], Ok tx)
  | None :: rest => applyMigrations rest migrationVersions (S i) tx
  | Some migrate :: rest =>
      match nth_error migrationVersions i with
      | None => ([], Panic)
      | Some v =>
          match migrate tx with
          | Ok tx' =>
              let '(lines, r) :=
                applyMigrations rest migrationVersions (S i) tx' in
              (LogApplying v :: lines, r)
          | Err e => ([LogApplying v; LogUnableToApply v], Err e)
          | Panic => ([LogApplying v], Panic)
          end
      end
  end.

(** The function [syncVersions] hands to [d.Update], with the lines it
    logs. *)
Definition syncVersions_tx (migrations : list migration)
    (migrationVersions : list N) (latestVersion : N) (tx : Tx)
  : list logLine * result Tx :=
  let '(lines, r) := applyMigrations migrations migrationVersions 0 tx in
  (lines, tx' <- r ;; putMeta {| DbVersionNumber := latestVersion |} tx').

(** What [syncVersions] leaves behind: the database, the log lines, and
    what it returns. *)
Record synced : Type := {
  synced_db : DB;
  synced_log : list logLine;
  synced_ret : result unit
}.

Definition syncVersions (versions : list version) (d : DB) : synced :=
  let stop r := {| synced_db := d; synced_log := []; synced_ret := r |} in
  let meta :=
    match FetchMeta d with
    | Ok meta => Ok meta
    | Err ErrMetaNotFound => Ok {| DbVersionNumber := 0 |}
    | Err e => Err e
    | Panic => Panic
    end in
  match meta with
  | Err e => stop (Err e)
  | Panic => stop Panic
  | Ok meta =>
      match getLatestDBVersion versions with
      | Err e => stop (Err e)
      | Panic => stop Panic
      | Ok latestVersion =>
          if latestVersion <? DbVersionNumber meta then
            stop (Err ErrDBReversion)
          else if DbVersionNumber meta =? latestVersion then
            stop (Ok tt)
          else
            let '(migrations, migrationVersions) :=
              getMigrationsToApply versions (DbVersionNumber meta) in
            let body :=
              syncVersions_tx migrations migrationVersions latestVersion in
            let '(d', ret) := DB_Update (fun tx => snd (body tx)) d in
            {| synced_db := d'; synced_log := fst (body d);
               synced_ret := ret |}
      end
  end.

(** Reference reading of the engine, against which [syncVersions] is
    compared: the versions above [k], those of them that carry a
    migration, and running migrations one after the other up to the first
    failure. *)
Definition above (k : N) (versions : list version) : list version :=
  filter (fun v => k <? number v) versions.

Definition runnable (vs : list version) : list (N * (Tx -> result Tx)) :=
  flat_map
    (fun v =>
       match migration_of v with
       | Some migrate => [(number v, migrate)]
       | None => []
       end) vs.

Fixpoint run_all (ms : list (N * (Tx -> result Tx))) (tx : Tx) : result Tx :=
  match ms with
  | [] => Ok tx
  | (_, migrate) :: rest => tx' <- migrate tx ;; run_all rest tx'
  end.

(** The function [createChannelDB] hands to [bdb.Update]. *)
Definition createChannelDB_tx `{migration_01_to_11} (tx : Tx) : result Tx :=
  '(tx, _) <- Tx_CreateBucket tx openChannelBucket ;;
  '(tx, _) <- Tx_CreateBucket tx closedChannelBucket ;;
  '(tx, _) <- Tx_CreateBucket tx forwardingLogBucket ;;
  '(tx, _) <- Tx_CreateBucket tx fwdPackagesKey ;;
  '(tx, _) <- Tx_CreateBucket tx invoiceBucket ;;
  '(tx, _) <- Tx_CreateBucket tx nodeInfoBucket ;;
  '(tx, nodes) <- Tx_CreateBucket tx nodeBucket ;;
  '(nodes, _) <- Bucket_CreateBucket nodes aliasIndexBucket ;;
  '(nodes, _) <- Bucket_CreateBucket nodes nodeUpdateIndexBucket ;;
  let tx := Bucket_store tx nodeBucket nodes in
  '(tx, edges) <- Tx_CreateBucket tx edgeBucket ;;
  '(edges, _) <- Bucket_CreateBucket edges edgeIndexBucket ;;
  '(edges, _) <- Bucket_CreateBucket edges edgeUpdateIndexBucket ;;
  '(edges, _) <- Bucket_CreateBucket edges channelPointBucket ;;
  '(edges, _) <- Bucket_CreateBucket edges zombieBucket ;;
  let tx := Bucket_store tx edgeBucket edges in
  '(tx, graphMeta) <- Tx_CreateBucket tx graphMetaBucket ;;
  '(graphMeta, _) <- Bucket_CreateBucket graphMeta pruneLogBucket ;;
  let tx := Bucket_store tx graphMetaBucket graphMeta in
  '(tx, _) <- Tx_CreateBucket tx metaBucket ;;
  latest <- getLatestDBVersion dbVersions ;;
  putMeta {| DbVersionNumber := latest |} tx.

Local Open Scope string_scope.

(** [createChannelDB] runs when the file is absent: [bbolt.Open] creates
    an empty database, the buckets are created in one transaction.  The
    result is the file's content and what the function returns. *)
Definition createChannelDB `{migration_01_to_11} : DB * result unit :=
  match DB_Update createChannelDB_tx [] with
  | (bdb, Ok _) => (bdb, Ok tt)
  | (bdb, Err _) => (bdb, Err (ErrFmt "unable to create new channeldb"))
  | (bdb, Panic) => (bdb, Panic)
  end.

Local Close Scope string_scope.

(** What [Open] leaves behind: the file's content ([None]: no file), the
    lines logged, and the database handle or the error. *)
Record opened : Type := {
  opened_file : option DB;
  opened_log : list logLine;
  opened_ret : result DB
}.

(** [Open]: [file] is the content of [channel.db] when it exists. *)
Definition Open `{migration_01_to_11} (file : option DB) : opened :=
  let created :=
    match file with
    | Some bdb => (bdb, Ok tt)
    | None => createChannelDB
    end in
  match created with
  | (bdb, Ok _) =>
      let s := syncVersions dbVersions bdb in
      {| opened_file := Some (synced_db s);
         opened_log := synced_log s;
         opened_ret := synced_ret s ;; Ok (synced_db s) |}
  | (bdb, Err e) =>
      {| opened_file := Some bdb; opened_log := []; opened_ret := Err e |}
  | (bdb, Panic) =>
      {| opened_file := Some bdb; opened_log := []; opened_ret := Panic |}
  end.

(* ------------------------------------------------------------------ *)
(** ** Wipe *)

(** [err := tx.DeleteBucket(name); if err != nil && err !=
    bbolt.ErrBucketNotFound { return err }] *)
Definition deleteBucketIfFound (tx : Tx) (name : bytes) : result Tx :=
  match Tx_DeleteBucket tx name with
  | Err ErrBucketNotFound => Ok tx
  | r => r
  end.

Definition Wipe_tx (tx : Tx) : result Tx :=
  tx <- deleteBucketIfFound tx openChannelBucket ;;
  tx <- deleteBucketIfFound tx closedChannelBucket ;;
  tx <- deleteBucketIfFound tx invoiceBucket ;;
  tx <- deleteBucketIfFound tx nodeInfoBucket ;;
  tx <- deleteBucketIfFound tx nodeBucket ;;
  tx <- deleteBucketIfFound tx edgeBucket ;;
  tx <- deleteBucketIfFound tx edgeIndexBucket ;;
  tx <- deleteBucketIfFound tx graphMetaBucket ;;
  Ok tx.

Definition Wipe (d : DB) : DB * result unit := DB_Update Wipe_tx d.


(* ------------------------------------------------------------------ *)
(** ** Records *)

(** [wire.OutPoint]: a 32-byte transaction hash and a 32-bit index. *)
Record OutPoint : Type := {
  Hash : bytes;
  Index : N
}.

Definition wf_OutPoint (o : OutPoint) : Prop :=
  length (Hash o) = 32%nat /\ Index o < 4294967296.

(** Modelled from the spec: [ClosureType] is declared in channel.go; the
    close types are those the data model lists. *)
Inductive ClosureType : Type :=
| CooperativeLocal
| CooperativeRemote
| LocalForceClose
| RemoteForceClose
| BreachClose
| FundingCanceled
| Abandoned.

(** [ChannelCloseSummary] (channel.go), with the fields db.go sets or
    reads; public keys are kept in their 33-byte compressed form. *)
Record ChannelCloseSummary : Type := {
  ChanPoint : OutPoint;
  ShortChanID : N;
  ChainHash : bytes;
  CloseHeight : N;
  RemotePub : bytes;
  Capacity : N;
  SettledBalance : N;
  CloseType : ClosureType;
  IsPending : bool;
  RemoteCurrentRevocation : option bytes;
  RemoteNextRevocation : option bytes;
  LocalChanConfig : bytes
}.

(** [chanSummary.IsPending = false] *)
Definition set_IsPending (s : ChannelCloseSummary) (p : bool)
  : ChannelCloseSummary :=
  {| ChanPoint := ChanPoint s; ShortChanID := ShortChanID s;
     ChainHash := ChainHash s; CloseHeight := CloseHeight s;
     RemotePub := RemotePub s; Capacity := Capacity s;
     SettledBalance := SettledBalance s; CloseType := CloseType s;
     IsPending := p;
     RemoteCurrentRevocation := RemoteCurrentRevocation s;
     RemoteNextRevocation := RemoteNextRevocation s;
     LocalChanConfig := LocalChanConfig s |}.

(** [OpenChannel] (channel.go), with the fields db.go sets or reads.
    The balance is in millisatoshi, the short channel id in its 64-bit
    form. *)
Record OpenChannel : Type := {
  chan_ChainHash : bytes;
  FundingOutpoint : OutPoint;
  ShortChannelID : N;
  chan_IsPending : bool;
  IdentityPub : bytes;
  chan_Capacity : N;
  chanStatus : N;
  LocalBalance : N;
  chan_RemoteCurrentRevocation : option bytes;
  chan_RemoteNextRevocation : option bytes;
  LocalChanCfg : bytes
}.

(** Modelled from the spec: [ChanStatusDefault] is declared in
    channel.go; it is the status with no bit set. *)
Definition ChanStatusDefault : N := 0.

Definition ChanStatus (c : OpenChannel) : N := chanStatus c.

(** The codec and record functions of channel.go and nodes.go that db.go
    calls.  They return a value or an error; the status bit
    [ChanStatusRestored] is declared there too. *)
Class channel_go : Type := {
  fetchOpenChannel : bucket -> OutPoint -> error + OpenChannel;
  deserializeCloseChannelSummary : bytes -> error + ChannelCloseSummary;
  serializeChannelCloseSummary : ChannelCloseSummary -> error + bytes;
  ChanStatusRestored : N
}.

(** A call of a function that returns [(value, error)]. *)
Definition call {A} (r : error + A) : result A :=
  match r with
  | inl e => Err e
  | inr a => Ok a
  end.

(* ------------------------------------------------------------------ *)
(** ** Outpoints and channel ids *)

(** Modelled from the spec: [writeOutpoint] and [readOutpoint] live in
    codec.go.  An outpoint is written as the 32-byte hash followed by the
    big-endian 32-bit index, 36 bytes in all; reading truncated input is
    a codec error. *)
Definition writeOutpoint (o : OutPoint) : bytes :=
  Hash o ++ be32 (Index o).

Definition readOutpoint (r : bytes) : result OutPoint :=
  match skipn 32 r with
  | b0 :: b1 :: b2 :: b3 :: _ =>
      Ok {| Hash := firstn 32 r; Index := be32_decode b0 b1 b2 b3 |}
  | _ => Err ErrCodec
  end.

Definition byte_xor (a b : byte) : byte :=
  byte_of_N (N.lxor (Byte.to_N a) (Byte.to_N b)).

(** Modelled from the spec: [lnwire.ChannelID] is not part of db.go.  A
    channel id is 32 bytes; its first 30 bytes are those of the outpoint
    it derives from, and the 2-byte output index is combined with the
    last two bytes of the hash (by exclusive or, as in BOLT 2, on the
    low 16 bits of the index).  [IsChanPoint] asks whether the outpoint
    derives the channel id. *)
Definition NewChanIDFromOutPoint (op : OutPoint) : bytes :=
  let outputIndex := Index op mod 65536 in
  firstn 30 (Hash op)
  ++ [byte_xor (nth 30 (Hash op) x00) (byte_of_N (outputIndex / 256));
      byte_xor (nth 31 (Hash op) x00) (byte_of_N outputIndex)].

Definition IsChanPoint (cid : bytes) (op : OutPoint) : bool :=
  bytes_eqb (NewChanIDFromOutPoint op) cid.

(* ------------------------------------------------------------------ *)
(** ** Closed channels *)

Definition FetchClosedChannel `{channel_go} (chanID : OutPoint) (d : DB)
  : result ChannelCloseSummary :=
  DB_View
    (fun tx =>
       match Tx_Bucket tx closedChannelBucket with
       | None => Err ErrClosedChannelNotFound
       | Some closeBucket =>
           match Bucket_Get closeBucket (writeOutpoint chanID) with
           | None => Err ErrClosedChannelNotFound
           | Some summaryBytes =>
               call (deserializeCloseChannelSummary summaryBytes)
           end
       end) d.

(** The loop of [FetchClosedChannelForID] over the entries the cursor
    hands out, from the one [Seek] stops at. *)
Fixpoint scanClosedChannels `{channel_go} (cid : bytes) (entries : bucket)
  : result ChannelCloseSummary :=
  match entries with
  | [] => Err ErrClosedChannelNotFound
  | (op, c) :: rest =>
      prefix <- slice_to 30 op ;;
      match bytes_compare (firstn 30 cid) prefix with
      | Gt => Err ErrClosedChannelNotFound
      | _ =>
          outPoint <- readOutpoint op ;;
          if negb (IsChanPoint cid outPoint) then
            scanClosedChannels cid rest
          else
            call (deserializeCloseChannelSummary (reader (node_value c)))
      end
  end.

Definition FetchClosedChannelForID `{channel_go} (cid : bytes) (d : DB)
  : result ChannelCloseSummary :=
  DB_View
    (fun tx =>
       match Tx_Bucket tx closedChannelBucket with
       | None => Err ErrClosedChannelNotFound
       | Some closeBucket =>
           scanClosedChannels cid (Cursor_Seek closeBucket (firstn 30 cid))
       end) d.

(** An entry the scan steps over: long enough to slice and to decode,
    not past the prefix, and not the channel point of [cid]. *)
Definition stepped_over (cid : bytes) (e : bytes * node) : Prop :=
  (36 <= length (fst e))%nat /\
  bytes_compare (firstn 30 cid) (firstn 30 (fst e)) <> Gt /\
  forall o, readOutpoint (fst e) = Ok o -> IsChanPoint cid o = false.

(** Keys strictly ascending, as bbolt keeps them. *)
Definition keys_ascending (b : bucket) : Prop :=
  StronglySorted (fun k k' => bytes_compare k k' = Lt) (map fst b).

(* ------------------------------------------------------------------ *)
(** ** Open channels

    The open-channel tree is nested three deep: remote public key, chain
    hash, outpoint; the bucket under the outpoint holds the channel.  A
    public key is kept in its compressed serialization. *)

Local Open Scope string_scope.

Definition fetchNodeChannels `{channel_go} (chainBucket : bucket)
  : result (list OpenChannel) :=
  Bucket_ForEach
    (fun chanPoint v channels =>
       match v with
       | Some _ => Ok channels
       | None =>
           outPoint <- readOutpoint chanPoint ;;
           match Bucket_Bucket chainBucket chanPoint with
           | None => Panic
           | Some chanBucket =>
               match fetchOpenChannel chanBucket outPoint with
               | inl _ =>
                   Err (ErrFmt "unable to read channel data for chan_point")
               | inr oChannel => Ok (channels ++ [oChannel])
               end
           end
       end) chainBucket [].

Definition fetchOpenChannels `{channel_go} (tx : Tx) (nodeID : bytes)
  : result (list OpenChannel) :=
  match Tx_Bucket tx openChannelBucket with
  | None => Ok []
  | Some openChanBucket =>
      let pub := nodeID in
      match Bucket_Bucket openChanBucket pub with
      | None => Ok []
      | Some nodeChanBucket =>
          Bucket_ForEach
            (fun chainHash v channels =>
               match v with
               | Some _ => Ok channels
               | None =>
                   match Bucket_Bucket nodeChanBucket chainHash with
                   | None => Err (ErrFmt "unable to read bucket for chain")
                   | Some chainBucket =>
                       match fetchNodeChannels chainBucket with
                       | Ok nodeChannels => Ok (channels ++ nodeChannels)
                       | Err _ =>
                           Err (ErrFmt "unable to read channel for chain_hash, node_key")
                       | Panic => Panic
                       end
                   end
               end) nodeChanBucket []
      end
  end.

Definition FetchOpenChannels `{channel_go} (nodeID : bytes) (d : DB)
  : result (list OpenChannel) :=
  DB_View (fun tx => fetchOpenChannels tx nodeID) d.

(** The function [FetchChannel] hands to [d.View]; [targetChan] is the
    captured variable, nil at the start. *)
Definition chanScan `{channel_go} (chanPoint : OutPoint) (tx : Tx)
  : result (option OpenChannel) :=
  let targetChanPoint := writeOutpoint chanPoint in
  match Tx_Bucket tx openChannelBucket with
  | None => Err ErrNoActiveChannels
  | Some openChanBucket =>
      Bucket_ForEach
        (fun nodePub v targetChan =>
           match v with
           | Some _ => Ok targetChan
           | None =>
               if negb (length nodePub =? 33)%nat then Ok targetChan else
               match Bucket_Bucket openChanBucket nodePub with
               | None => Ok targetChan
               | Some nodeChanBucket =>
                   Bucket_ForEach
                     (fun chainHash v targetChan =>
                        match v with
                        | Some _ => Ok targetChan
                        | None =>
                            match Bucket_Bucket nodeChanBucket chainHash with
                            | None =>
                                Err (ErrFmt "unable to read bucket for chain")
                            | Some chainBucket =>
                                match Bucket_Bucket chainBucket
                                        targetChanPoint with
                                | None => Ok targetChan
                                | Some chanBucket =>
                                    channel <-
                                      call (fetchOpenChannel chanBucket
                                              chanPoint) ;;
                                    Ok (Some channel)
                                end
                            end
                        end) nodeChanBucket targetChan
               end
           end) openChanBucket None
  end.

Definition FetchChannel `{channel_go} (chanPoint : OutPoint) (d : DB)
  : result OpenChannel :=
  targetChan <- DB_View (chanScan chanPoint) d ;;
  match targetChan with
  | Some c => Ok c
  | None => Err ErrChannelNotFound
  end.

(** The loop [for _, channel := range nodeChans] of [fetchChannels]. *)
Definition appendMatching (pending waitingClose : bool)
    (nodeChans channels : list OpenChannel) : list OpenChannel :=
  fold_left
    (fun channels channel =>
       if negb (Bool.eqb (chan_IsPending channel) pending) then channels
       else
         let channelWaitingClose :=
           negb (ChanStatus channel =? ChanStatusDefault) in
         if negb (Bool.eqb channelWaitingClose waitingClose) then channels
         else channels ++ [channel])
    nodeChans channels.

Definition fetchChannels `{channel_go} (d : DB) (pending waitingClose : bool)
  : result (list OpenChannel) :=
  DB_View
    (fun tx =>
       match Tx_Bucket tx openChannelBucket with
       | None => Err ErrNoActiveChannels
       | Some openChanBucket =>
           match Tx_Bucket tx nodeInfoBucket with
           | None => Err (ErrFmt "node bucket not created")
           | Some nodeMetaBucket =>
               Bucket_ForEach
                 (fun k _ channels =>
                    match Bucket_Bucket openChanBucket k with
                    | None => Ok channels
                    | Some nodeChanBucket =>
                        Bucket_ForEach
                          (fun chainHash v channels =>
                             match v with
                             | Some _ => Ok channels
                             | None =>
                                 match Bucket_Bucket nodeChanBucket
                                         chainHash with
                                 | None =>
                                     Err (ErrFmt "unable to read bucket for chain")
                                 | Some chainBucket =>
                                     match fetchNodeChannels chainBucket with
                                     | Ok nodeChans =>
                                         Ok (appendMatching pending
                                               waitingClose nodeChans
                                               channels)
                                     | Err _ =>
                                         Err (ErrFmt "unable to read channel for chain_hash, node_key")
                                     | Panic => Panic
                                     end
                                 end
                             end) nodeChanBucket channels
                    end) nodeMetaBucket []
           end
       end) d.

Definition FetchAllOpenChannels `{channel_go} (d : DB) :=
  fetchChannels d false false.

Definition FetchPendingChannels `{channel_go} (d : DB) :=
  fetchChannels d true false.

Definition FetchWaitingCloseChannels `{channel_go} (d : DB)
  : result (list OpenChannel) :=
  waitingClose <- fetchChannels d false true ;;
  pendingWaitingClose <- fetchChannels d true true ;;
  Ok (waitingClose ++ pendingWaitingClose).

Definition FetchAllChannels `{channel_go} (d : DB)
  : result (list OpenChannel) :=
  let channels := [] in
  openChannels <- FetchAllOpenChannels d ;;
  let channels := channels ++ openChannels in
  pendingChannels <- FetchPendingChannels d ;;
  let channels := channels ++ pendingChannels in
  waitingClose <- FetchWaitingCloseChannels d ;;
  let channels := channels ++ waitingClose in
  Ok channels.

(** Reference reading of the channel queries: every channel the walk of
    [fetchChannels] decodes, whatever its flags, and the test a channel
    has to pass for the filter [(pending, waitingClose)]. *)
Definition storedChannels `{channel_go} (d : DB)
  : result (list OpenChannel) :=
  match Tx_Bucket d openChannelBucket with
  | None => Err ErrNoActiveChannels
  | Some openChanBucket =>
      match Tx_Bucket d nodeInfoBucket with
      | None => Err (ErrFmt "node bucket not created")
      | Some nodeMetaBucket =>
          Bucket_ForEach
            (fun k _ channels =>
               match Bucket_Bucket openChanBucket k with
               | None => Ok channels
               | Some nodeChanBucket =>
                   Bucket_ForEach
                     (fun chainHash v channels =>
                        match v with
                        | Some _ => Ok channels
                        | None =>
                            match Bucket_Bucket nodeChanBucket chainHash with
                            | None =>
                                Err (ErrFmt "unable to read bucket for chain")
                            | Some chainBucket =>
                                match fetchNodeChannels chainBucket with
                                | Ok nodeChans => Ok (channels ++ nodeChans)
                                | Err _ =>
                                    Err (ErrFmt "unable to read channel for chain_hash, node_key")
                                | Panic => Panic
                                end
                            end
                        end) nodeChanBucket channels
               end) nodeMetaBucket []
      end
  end.

Definition selected (pending waitingClose : bool) (c : OpenChannel) : bool :=
  Bool.eqb (chan_IsPending c) pending
  && Bool.eqb (negb (ChanStatus c =? ChanStatusDefault)) waitingClose.

Local Close Scope string_scope.

(* ------------------------------------------------------------------ *)
(** ** Marking a channel fully closed *)

Local Open Scope string_scope.

(** Modelled from the spec: [deleteLinkNode] lives in nodes.go.  The
    link-node record of a peer is kept in the node-info bucket under the
    peer's compressed public key; deleting it removes that key. *)
Definition deleteLinkNode (tx : Tx) (identity : bytes) : result Tx :=
  match Tx_Bucket tx nodeInfoBucket with
  | None => Err ErrLinkNodesNotFound
  | Some nodeMetaBucket =>
      nodeMetaBucket' <- Bucket_Delete nodeMetaBucket identity ;;
      Ok (Bucket_store tx nodeInfoBucket nodeMetaBucket')
  end.

Definition pruneLinkNode `{channel_go} (tx : Tx) (remotePub : bytes)
  : result Tx :=
  match fetchOpenChannels tx remotePub with
  | Err _ => Err (ErrFmt "unable to fetch open channels for peer")
  | Panic => Panic
  | Ok openChannels =>
      if (0 <? length openChannels)%nat then Ok tx
      else deleteLinkNode tx remotePub
  end.

(** The function [MarkChanFullyClosed] hands to [d.Update]. *)
Definition MarkChanFullyClosed_tx `{channel_go} (chanPoint : OutPoint)
    (tx : Tx) : result Tx :=
  let chanID := writeOutpoint chanPoint in
  '(tx, closedChanBucket) <-
    Tx_CreateBucketIfNotExists tx closedChannelBucket ;;
  match Bucket_Get closedChanBucket chanID with
  | None => Err (ErrFmt "no closed channel for chan_point found")
  | Some chanSummaryBytes =>
      chanSummary <- call (deserializeCloseChannelSummary chanSummaryBytes) ;;
      let chanSummary := set_IsPending chanSummary false in
      newSummary <- call (serializeChannelCloseSummary chanSummary) ;;
      closedChanBucket <- Bucket_Put closedChanBucket chanID newSummary ;;
      let tx := Bucket_store tx closedChannelBucket closedChanBucket in
      pruneLinkNode tx (RemotePub chanSummary)
  end.

Definition MarkChanFullyClosed `{channel_go} (chanPoint : OutPoint) (d : DB)
  : DB * result unit :=
  DB_Update (MarkChanFullyClosed_tx chanPoint) d.

Local Close Scope string_scope.

(* ------------------------------------------------------------------ *)
(** ** Abandoning a channel *)

(** [MilliSatoshi.ToSatoshis] (lnwire): 1000 millisatoshi to the
    satoshi. *)
Definition ToSatoshis (msat : N) : N := msat / 1000.

Definition ShortChanID_of (c : OpenChannel) : N := ShortChannelID c.

(** Modelled from the spec: [putChannelCloseSummary] lives in channel.go.
    The summary is serialized and written into the closed-channel bucket
    under the outpoint key. *)
Definition putChannelCloseSummary `{channel_go} (tx : Tx) (chanID : bytes)
    (summary : ChannelCloseSummary) : result Tx :=
  '(tx, closedChanBucket) <-
    Tx_CreateBucketIfNotExists tx closedChannelBucket ;;
  summaryBytes <- call (serializeChannelCloseSummary summary) ;;
  closedChanBucket <- Bucket_Put closedChanBucket chanID summaryBytes ;;
  Ok (Bucket_store tx closedChannelBucket closedChanBucket).

Definition is_empty (b : bucket) : bool :=
  match b with
  | [] => true
  | _ :: _ => false
  end.

(** Modelled from the spec: [CloseChannel] lives in channel.go.  In one
    transaction the channel is moved: its leaf bucket is deleted from the
    open-channel tree, together with the chain and peer buckets this
    leaves empty, the summary is written into the closed-channel bucket,
    and the peer is pruned when it has no open channel left. *)
Definition CloseChannel_tx `{channel_go} (c : OpenChannel)
    (summary : ChannelCloseSummary) (tx : Tx) : result Tx :=
  match Tx_Bucket tx openChannelBucket with
  | None => Err ErrNoChanDBExists
  | Some openChanBucket =>
      let nodePub := IdentityPub c in
      match Bucket_Bucket openChanBucket nodePub with
      | None => Err ErrNoActiveChannels
      | Some nodeChanBucket =>
          match Bucket_Bucket nodeChanBucket (chan_ChainHash c) with
          | None => Err ErrNoActiveChannels
          | Some chainBucket =>
              let chanPointBuf := writeOutpoint (FundingOutpoint c) in
              chainBucket <- Bucket_DeleteBucket chainBucket chanPointBuf ;;
              nodeChanBucket <-
                (if is_empty chainBucket
                 then Bucket_DeleteBucket nodeChanBucket (chan_ChainHash c)
                 else Ok (Bucket_store nodeChanBucket (chan_ChainHash c)
                            chainBucket)) ;;
              openChanBucket <-
                (if is_empty nodeChanBucket
                 then Bucket_DeleteBucket openChanBucket nodePub
                 else Ok (Bucket_store openChanBucket nodePub
                            nodeChanBucket)) ;;
              let tx := Bucket_store tx openChannelBucket openChanBucket in
              tx <- putChannelCloseSummary tx chanPointBuf summary ;;
              pruneLinkNode tx nodePub
          end
      end
  end.

Definition CloseChannel `{channel_go} (c : OpenChannel)
    (summary : ChannelCloseSummary) (d : DB) : DB * result unit :=
  DB_Update (CloseChannel_tx c summary) d.

(** The summary [AbandonChannel] builds for the channel it found. *)
Definition abandonedSummary (chanPoint : OutPoint) (bestHeight : N)
    (dbChan : OpenChannel) : ChannelCloseSummary :=
  {| CloseType := Abandoned;
     ChanPoint := chanPoint;
     ChainHash := chan_ChainHash dbChan;
     CloseHeight := bestHeight;
     RemotePub := IdentityPub dbChan;
     Capacity := chan_Capacity dbChan;
     SettledBalance := ToSatoshis (LocalBalance dbChan);
     ShortChanID := ShortChanID_of dbChan;
     RemoteCurrentRevocation := chan_RemoteCurrentRevocation dbChan;
     RemoteNextRevocation := chan_RemoteNextRevocation dbChan;
     LocalChanConfig := LocalChanCfg dbChan;
     IsPending := false |}.

Definition AbandonChannel `{channel_go} (chanPoint : OutPoint)
    (bestHeight : N) (d : DB) : DB * result unit :=
  match FetchChannel chanPoint d with
  | Err ErrChannelNotFound =>
      match FetchClosedChannel chanPoint d with
      | Ok _ => (d, Ok tt)
      | Err closedErr => (d, Err closedErr)
      | Panic => (d, Panic)
      end
  | Err err => (d, Err err)
  | Panic => (d, Panic)
  | Ok dbChan =>
      let summary := abandonedSummary chanPoint bestHeight dbChan in
      CloseChannel dbChan summary d
  end.

(** No bucket of the open-channel tree [openChanBucket] holds a leaf
    under the key [chanPointKey], and every chain entry can be read. *)
Definition no_leaf (chanPointKey : bytes) (openChanBucket : bucket) : Prop :=
  forall nodePub nodeChanBucket,
    Bucket_Bucket openChanBucket nodePub = Some nodeChanBucket ->
    forall chainHash n,
      In (chainHash, n) nodeChanBucket -> node_value n = None ->
      exists chainBucket,
        Bucket_Bucket nodeChanBucket chainHash = Some chainBucket /\
        Bucket_Bucket chainBucket chanPointKey = None.

(** The number of entries of a bucket under a key. *)
Definition count_key (k : bytes) (b : bucket) : nat :=
  length (filter (fun e => bytes_eqb k (fst e)) b).

(* ------------------------------------------------------------------ *)
(** ** Restoring channel shells *)

(** [net.Addr], by its string form. *)
Definition Addr := String.string.

Record ChannelShell : Type := {
  NodeAddrs : list Addr;
  Chan : OpenChannel
}.

(** [LightningNode] (graph.go): only the 33-byte key is used here. *)
Record LightningNode : Type := { PubKeyBytes : bytes }.

(** [ChannelEdgeInfo] and [ChannelEdgePolicy] (graph.go), with the
    fields [RestoreChannelShells] sets. *)
Record ChannelEdgeInfo : Type := {
  ChannelID : N;
  edge_ChainHash : bytes;
  NodeKey1Bytes : bytes;
  NodeKey2Bytes : bytes;
  ChannelPoint : OutPoint;
  edge_Capacity : N
}.

Record ChannelEdgePolicy : Type := {
  policy_ChannelID : N;
  LastUpdate : N;
  ChannelFlags : N
}.

(** Modelled from the spec: [lnwire.ChanUpdateDirection] is not part of
    db.go; it is the direction bit of the channel flags, the lowest
    one. *)
Definition ChanUpdateDirection : N := 1.

(** The functions of graph.go and channel.go that [RestoreChannelShells]
    calls, and the clock: [timeNow i] is what [time.Now()] returns for
    the shell at position [i]. *)
Class graph_go : Type := {
  syncNewChannel : Tx -> OpenChannel -> list Addr -> error + Tx;
  sourceNode : bucket -> error + LightningNode;
  addChannelEdge : Tx -> ChannelEdgeInfo -> error + Tx;
  updateEdgePolicy : Tx -> ChannelEdgePolicy -> error + Tx;
  timeNow : nat -> N
}.

(** [copy(dst[:], src)] into a zeroed [[33]byte]. *)
Definition copy33 (src : bytes) : bytes :=
  firstn 33 src ++ repeat x00 (33 - length src).

(** [channel.chanStatus |= ChanStatusRestored] *)
Definition mark_restored `{channel_go} (c : OpenChannel) : OpenChannel :=
  {| chan_ChainHash := chan_ChainHash c;
     FundingOutpoint := FundingOutpoint c;
     ShortChannelID := ShortChannelID c;
     chan_IsPending := chan_IsPending c;
     IdentityPub := IdentityPub c;
     chan_Capacity := chan_Capacity c;
     chanStatus := N.lor (chanStatus c) ChanStatusRestored;
     LocalBalance := LocalBalance c;
     chan_RemoteCurrentRevocation := chan_RemoteCurrentRevocation c;
     chan_RemoteNextRevocation := chan_RemoteNextRevocation c;
     LocalChanCfg := LocalChanCfg c |}.

(** One turn of the loop of [RestoreChannelShells], for the shell at
    position [i].  Besides the transaction and the channel id appended
    to [chansRestored], the result keeps the two records handed to
    [addChannelEdge] and [updateEdgePolicy]. *)
Definition restoreShell `{channel_go} `{graph_go} (i : nat)
    (channelShell : ChannelShell) (tx : Tx)
  : result (Tx * N * (ChannelEdgeInfo * ChannelEdgePolicy)) :=
  let channel := mark_restored (Chan channelShell) in
  tx <- call (syncNewChannel tx channel (NodeAddrs channelShell)) ;;
  match Tx_Bucket tx nodeBucket with
  | None => Err ErrGraphNotFound
  | Some nodes =>
      selfNode <- call (sourceNode nodes) ;;
      let chanPeer := IdentityPub channel in
      let selfIsSmaller :=
        match bytes_compare (PubKeyBytes selfNode) chanPeer with
        | Lt => true
        | _ => false
        end in
      let edgeInfo :=
        {| ChannelID := ShortChannelID channel;
           edge_ChainHash := chan_ChainHash channel;
           ChannelPoint := FundingOutpoint channel;
           edge_Capacity := chan_Capacity channel;
           NodeKey1Bytes :=
             if selfIsSmaller then copy33 (PubKeyBytes selfNode)
             else copy33 chanPeer;
           NodeKey2Bytes :=
             if selfIsSmaller then copy33 chanPeer
             else copy33 (PubKeyBytes selfNode) |} in
      tx <- match addChannelEdge tx edgeInfo with
            | inr tx' => Ok tx'
            | inl ErrEdgeAlreadyExist => Ok tx
            | inl err => Err err
            end ;;
      let chanEdge :=
        {| policy_ChannelID := ChannelID edgeInfo;
           LastUpdate := timeNow i;
           ChannelFlags :=
             if negb selfIsSmaller then N.lor 0 ChanUpdateDirection
             else 0 |} in
      tx <- call (updateEdgePolicy tx chanEdge) ;;
      Ok (tx, ChannelID edgeInfo, (edgeInfo, chanEdge))
  end.

(** The loop over the shells, from position [i] on. *)
Fixpoint restoreShells `{channel_go} `{graph_go} (i : nat)
    (channelShells : list ChannelShell) (tx : Tx) (chansRestored : list N)
    (written : list (ChannelEdgeInfo * ChannelEdgePolicy))
  : result (Tx * list N * list (ChannelEdgeInfo * ChannelEdgePolicy)) :=
  match channelShells with
  | [] => Ok (tx, chansRestored, written)
  | channelShell :: rest =>
      '(tx, chanid, records) <- restoreShell i channelShell tx ;;
      restoreShells (S i) rest tx (chansRestored ++ [chanid])
        (written ++ [records])
  end.

(** What [RestoreChannelShells] leaves behind: the database, the channel
    ids it removes from the reject cache and the channel cache after the
    commit, the records written, and what it returns.  The cache mutex
    is held throughout and is not modelled. *)
Record restored : Type := {
  restored_db : DB;
  restored_ids : list N;
  restored_records : list (ChannelEdgeInfo * ChannelEdgePolicy);
  restored_ret : result unit
}.

Definition RestoreChannelShells `{channel_go} `{graph_go}
    (channelShells : list ChannelShell) (d : DB) : restored :=
  match restoreShells 0 channelShells d [] [] with
  | Ok (tx, chansRestored, written) =>
      {| restored_db := tx; restored_ids := chansRestored;
         restored_records := written; restored_ret := Ok tt |}
  | Err err =>
      {| restored_db := d; restored_ids := []; restored_records := [];
         restored_ret := Err err |}
  | Panic =>
      {| restored_db := d; restored_ids := []; restored_records := [];
         restored_ret := Panic |}
  end.

(** The smaller and the larger of two byte strings. *)
Definition bytes_min (a b : bytes) : bytes :=
  match bytes_compare a b with Gt => b | _ => a end.

Definition bytes_max (a b : bytes) : bytes :=
  match bytes_compare a b with Gt => a | _ => b end.

(** The records built for a shell, with respect to the key [self] of
    the local node: node 1 is the bytewise smaller and node 2 the larger
    of the two keys, and the direction bit is set exactly when the local
    key is not below the peer's.  For distinct keys node 1 is strictly
    below node 2 and the bit is set exactly when node 2 is the local
    node, the larger key; for equal keys both nodes are that key and the
    bit is set. *)
Definition canonical_records (self : bytes) (channelShell : ChannelShell)
    (records : ChannelEdgeInfo * ChannelEdgePolicy) : Prop :=
  let peer := IdentityPub (Chan channelShell) in
  let '(edgeInfo, chanEdge) := records in
  NodeKey1Bytes edgeInfo = bytes_min self peer /\
  NodeKey2Bytes edgeInfo = bytes_max self peer /\
  bytes_compare (NodeKey1Bytes edgeInfo) (NodeKey2Bytes edgeInfo) <> Gt /\
  (ChannelFlags chanEdge = 0 \/ ChannelFlags chanEdge = ChanUpdateDirection) /\
  (N.testbit (ChannelFlags chanEdge) 0 = true <->
   bytes_compare self peer <> Lt) /\
  (self <> peer ->
   bytes_compare (NodeKey1Bytes edgeInfo) (NodeKey2Bytes edgeInfo) = Lt /\
   (N.testbit (ChannelFlags chanEdge) 0 = true <->
    NodeKey2Bytes edgeInfo = self) /\
   (N.testbit (ChannelFlags chanEdge) 0 = true <->
    bytes_compare peer self = Lt)) /\
  (self = peer ->
   NodeKey1Bytes edgeInfo = NodeKey2Bytes edgeInfo /\
   ChannelFlags chanEdge = ChanUpdateDirection).

(** The calls the loop of [RestoreChannelShells] makes, shell by shell,
    from the transaction [tx] to the transaction [tx'] it commits;
    [calls] lists, for each shell, the source node read and the two
    records handed over.  For a shell: [syncNewChannel] on the channel
    marked as restored, the source node read from the node bucket of the
    transaction this gives, [addChannelEdge] on the edge info, where an
    edge that exists already is no error and leaves the transaction as it
    is, and [updateEdgePolicy] on the policy. *)
Fixpoint graph_calls `{channel_go} `{graph_go}
    (channelShells : list ChannelShell) (tx : Tx)
    (calls : list (LightningNode * (ChannelEdgeInfo * ChannelEdgePolicy)))
    (tx' : Tx) : Prop :=
  match channelShells, calls with
  | [], [] => tx' = tx
  | channelShell :: channelShells, (selfNode, (edgeInfo, chanEdge)) :: calls =>
      exists tx1 nodes tx2 tx3,
        syncNewChannel tx (mark_restored (Chan channelShell))
          (NodeAddrs channelShell) = inr tx1 /\
        Tx_Bucket tx1 nodeBucket = Some nodes /\
        sourceNode nodes = inr selfNode /\
        (addChannelEdge tx1 edgeInfo = inr tx2 \/
         addChannelEdge tx1 edgeInfo = inl ErrEdgeAlreadyExist /\
         tx2 = tx1) /\
        updateEdgePolicy tx2 chanEdge = inr tx3 /\
        graph_calls channelShells tx3 calls tx'
  | _, _ => False
  end.

(* ------------------------------------------------------------------ *)
(** ** Sample data

    Concrete migrations and databases on which the definitions are run. *)

Local Open Scope string_scope.

(** A migration that records its number under the bucket [applied]. *)
Definition markApplied (n : N) (tx : Tx) : result Tx :=
  '(tx1, b) <- Tx_CreateBucketIfNotExists tx (bytes_of "applied") ;;
  b' <- Bucket_Put b (be32 n) [] ;;
  Ok (Bucket_store tx1 (bytes_of "applied") b').

Local Close Scope string_scope.

#[local] Instance sample_migrations : migration_01_to_11 := {|
  MigrateNodeAndEdgeUpdateIndex := markApplied 1;
  MigrateInvoiceTimeSeries := markApplied 2;
  MigrateInvoiceTimeSeriesOutgoingPayments := markApplied 3;
  MigrateEdgePolicies := markApplied 4;
  PaymentStatusesMigration := markApplied 5;
  MigratePruneEdgeUpdateIndex := markApplied 6;
  MigrateOptionalChannelCloseSummaryFields := markApplied 7;
  MigrateGossipMessageStoreKeys := markApplied 8;
  MigrateOutgoingPayments := markApplied 9;
  MigrateRouteSerialization := markApplied 10;
  MigrateInvoices := markApplied 11
|}.

(** A database whose only content is the meta record with version [n]. *)
Definition db_with_version (n : N) : DB :=
  [(metaBucket, Nested [(dbVersionKey, Value (be32 n))])].

(** A codec with a fixed layout, enough to store and read back the
    records of the examples.  Close summary: pending flag, close type,
    close height, outpoint, remote key, chain hash.  Open channel, under
    the key [info] of its bucket: pending flag, status, remote key, chain
    hash. *)
Definition byte_of_bool (b : bool) : byte := if b then x01 else x00.

Definition byte_of_ClosureType (t : ClosureType) : byte :=
  match t with
  | CooperativeLocal => x00
  | CooperativeRemote => x01
  | LocalForceClose => x02
  | RemoteForceClose => x03
  | BreachClose => x04
  | FundingCanceled => x05
  | Abandoned => x06
  end.

Definition ClosureType_of_byte (b : byte) : option ClosureType :=
  match b with
  | x00 => Some CooperativeLocal
  | x01 => Some CooperativeRemote
  | x02 => Some LocalForceClose
  | x03 => Some RemoteForceClose
  | x04 => Some BreachClose
  | x05 => Some FundingCanceled
  | x06 => Some Abandoned
  | _ => None
  end.

Definition sample_serializeSummary (s : ChannelCloseSummary)
  : error + bytes :=
  inr ([byte_of_bool (IsPending s); byte_of_ClosureType (CloseType s)]
       ++ be32 (CloseHeight s) ++ writeOutpoint (ChanPoint s)
       ++ RemotePub s ++ ChainHash s).

Definition sample_deserializeSummary (r : bytes)
  : error + ChannelCloseSummary :=
  match r with
  | p :: t :: h0 :: h1 :: h2 :: h3 :: rest =>
      match ClosureType_of_byte t, readOutpoint rest with
      | Some closeType, Ok chanPoint =>
          inr {| ChanPoint := chanPoint; ShortChanID := 0;
                 ChainHash := skipn 69 rest;
                 CloseHeight := be32_decode h0 h1 h2 h3;
                 RemotePub := firstn 33 (skipn 36 rest);
                 Capacity := 0; SettledBalance := 0;
                 CloseType := closeType;
                 IsPending := negb (Byte.eqb p x00);
                 RemoteCurrentRevocation := None;
                 RemoteNextRevocation := None;
                 LocalChanConfig := [] |}
      | _, _ => inl ErrCodec
      end
  | _ => inl ErrCodec
  end.

Local Open Scope string_scope.

Definition sample_fetchOpenChannel (chanBucket : bucket) (op : OutPoint)
  : error + OpenChannel :=
  match Bucket_Get chanBucket (bytes_of "info") with
  | Some (p :: st :: rest) =>
      inr {| chan_ChainHash := skipn 33 rest; FundingOutpoint := op;
             ShortChannelID := 0;
             chan_IsPending := negb (Byte.eqb p x00);
             IdentityPub := firstn 33 rest; chan_Capacity := 0;
             chanStatus := Byte.to_N st; LocalBalance := 0;
             chan_RemoteCurrentRevocation := None;
             chan_RemoteNextRevocation := None;
             LocalChanCfg := [] |}
  | _ => inl ErrCodec
  end.

(** The bucket of an open channel in the layout above. *)
Definition sample_chanBucket (pending : bool) (status : byte)
    (identity chain : bytes) : node :=
  Nested [(bytes_of "info",
           Value ([byte_of_bool pending; status] ++ identity ++ chain))].

Local Close Scope string_scope.

#[local] Instance sample_codec : channel_go := {|
  fetchOpenChannel := sample_fetchOpenChannel;
  deserializeCloseChannelSummary := sample_deserializeSummary;
  serializeChannelCloseSummary := sample_serializeSummary;
  ChanStatusRestored := 8
|}.

(** Two distinct outpoints of one transaction whose indices differ by
    65536, and a close summary for each. *)
Definition sample_txid : bytes := repeat x11 32.
Definition sample_pub (b : byte) : bytes := x02 :: repeat b 32.
Definition sample_chain : bytes := repeat x00 32.

Definition sample_summary (op : OutPoint) (t : ClosureType) (h : N)
    (pending : bool) : ChannelCloseSummary :=
  {| ChanPoint := op; ShortChanID := 0; ChainHash := sample_chain;
     CloseHeight := h; RemotePub := sample_pub x33; Capacity := 0;
     SettledBalance := 0; CloseType := t; IsPending := pending;
     RemoteCurrentRevocation := None; RemoteNextRevocation := None;
     LocalChanConfig := [] |}.

Definition sample_summaryBytes (s : ChannelCloseSummary) : bytes :=
  match sample_serializeSummary s with
  | inr b => b
  | inl _ => []
  end.

Definition op_low : OutPoint := {| Hash := sample_txid; Index := 0 |}.
Definition op_high : OutPoint := {| Hash := sample_txid; Index := 65536 |}.

Definition db_colliding_closed : DB :=
  [(closedChannelBucket,
    Nested
      [(writeOutpoint op_low,
        Value (sample_summaryBytes
                 (sample_summary op_low CooperativeLocal 100 false)));
       (writeOutpoint op_high,
        Value (sample_summaryBytes
                 (sample_summary op_high BreachClose 200 true)))])].

Definition db_one_closed : DB :=
  [(closedChannelBucket,
    Nested
      [(writeOutpoint op_high,
        Value (sample_summaryBytes
                 (sample_summary op_high BreachClose 200 true)))])].

(** A closed-channel bucket with a one-byte key that sorts after the
    sample transaction hash. *)
Definition db_short_key : DB :=
  [(closedChannelBucket, Nested [([x12], Value [])])].

(** A peer, one of its channels still open, another one closed with a
    pending summary; and the same database with no channel left open. *)
Definition op_open : OutPoint := {| Hash := repeat x22 32; Index := 1 |}.

Definition sample_openTree : node :=
  Nested
    [(sample_pub x33,
      Nested
        [(sample_chain,
          Nested
            [(writeOutpoint op_open,
              sample_chanBucket false x00 (sample_pub x33) sample_chain)])])].

Definition sample_closedBucket : node :=
  Nested
    [(writeOutpoint op_low,
      Value (sample_summaryBytes
               (sample_summary op_low LocalForceClose 100 true)))].

Definition sample_nodeInfo : node :=
  Nested [(sample_pub x33, Value [x01])].

Definition db_peer_with_open_channel : DB :=
  [(closedChannelBucket, sample_closedBucket);
   (nodeInfoBucket, sample_nodeInfo);
   (openChannelBucket, sample_openTree)].


Local Open Scope string_scope.

(** A graph shim for the examples: the source node is the value under
    [source] in the node bucket, edges and policies are written into the
    edge bucket, under the channel id and under the channel id followed
    by the direction bit. *)
Definition sample_sourceNode (nodes : bucket) : error + LightningNode :=
  match Bucket_Get nodes (bytes_of "source") with
  | Some pub =>
      if (length pub =? 33)%nat then inr {| PubKeyBytes := pub |}
      else inl ErrCodec
  | None => inl ErrGraphNotFound
  end.

Definition sample_put (tx : Tx) (key value : bytes) : error + Tx :=
  match Tx_Bucket tx edgeBucket with
  | None => inl ErrGraphNotFound
  | Some edges =>
      match Bucket_Put edges key value with
      | Ok edges' => inr (Bucket_store tx edgeBucket edges')
      | Err e => inl e
      | Panic => inl ErrCodec
      end
  end.

Definition sample_addChannelEdge (tx : Tx) (e : ChannelEdgeInfo)
  : error + Tx :=
  match Tx_Bucket tx edgeBucket with
  | None => inl ErrGraphNotFound
  | Some edges =>
      match Bucket_Get edges (be32 (ChannelID e)) with
      | Some _ => inl ErrEdgeAlreadyExist
      | None =>
          sample_put tx (be32 (ChannelID e))
            (NodeKey1Bytes e ++ NodeKey2Bytes e)
      end
  end.

Definition sample_updateEdgePolicy (tx : Tx) (p : ChannelEdgePolicy)
  : error + Tx :=
  sample_put tx
    (be32 (policy_ChannelID p) ++ [byte_of_N (ChannelFlags p mod 2)])
    (be32 (LastUpdate p)).

#[local] Instance sample_graph : graph_go := {|
  syncNewChannel := fun tx _ _ => inr tx;
  sourceNode := sample_sourceNode;
  addChannelEdge := sample_addChannelEdge;
  updateEdgePolicy := sample_updateEdgePolicy;
  timeNow := fun i => 1000 + N.of_nat i
|}.

(** A graph whose source node has the key [self]. *)
Definition db_graph (self : bytes) : DB :=
  [(edgeBucket, Nested []);
   (nodeBucket, Nested [(bytes_of "source", Value self)])].

Local Close Scope string_scope.

Definition sample_shell (peer : bytes) : ChannelShell :=
  {| NodeAddrs := [];
     Chan := {| chan_ChainHash := sample_chain; FundingOutpoint := op_open;
                ShortChannelID := 1; chan_IsPending := false;
                IdentityPub := peer; chan_Capacity := 0; chanStatus := 0;
                LocalBalance := 0; chan_RemoteCurrentRevocation := None;
                chan_RemoteNextRevocation := None; LocalChanCfg := [] |} |}.

(* ------------------------------------------------------------------ *)
(** ** Further functions of db.go *)

Definition FetchClosedChannels `{channel_go} (pendingOnly : bool) (d : DB)
  : result (list ChannelCloseSummary) :=
  DB_View
    (fun tx =>
       match Tx_Bucket tx closedChannelBucket with
       | None => Err ErrNoClosedChannels
       | Some closeBucket =>
           Bucket_ForEach
             (fun chanID summaryBytes chanSummaries =>
                chanSummary <-
                  call (deserializeCloseChannelSummary
                          (reader summaryBytes)) ;;
                if negb (IsPending chanSummary) && pendingOnly
                then Ok chanSummaries
                else Ok (chanSummaries ++ [chanSummary]))
             closeBucket []
       end) d.

(** [LinkNode] (nodes.go): only the identity key is used here, in its
    compressed form. *)
Record LinkNode : Type := { LinkNode_IdentityPub : bytes }.

(** [fetchAllLinkNodes] lives in nodes.go and is taken as given. *)
Class nodes_go : Type := {
  fetchAllLinkNodes : Tx -> error + list LinkNode
}.



(** Reference reading of the loop of [FetchClosedChannelForID]: the same
    scan without the comparison of prefixes in the loop condition. *)
Fixpoint scanWithoutBound `{channel_go} (cid : bytes) (entries : bucket)
  : result ChannelCloseSummary :=
  match entries with
  | [] => Err ErrClosedChannelNotFound
  | (op, c) :: rest =>
      _ <- slice_to 30 op ;;
      outPoint <- readOutpoint op ;;
      if negb (IsChanPoint cid outPoint) then scanWithoutBound cid rest
      else call (deserializeCloseChannelSummary (reader (node_value c)))
  end.

(** What [FetchChannel] may return for [chanPoint] from the open tree
    [O]: a channel decoded from a leaf under the outpoint key, below a
    33-byte peer key. *)
Definition stored_at `{channel_go} (chanPoint : OutPoint) (O : bucket)
    (c : OpenChannel) : Prop :=
  exists nodePub nodeChanBucket chainHash chainBucket chanBucket,
    length nodePub = 33%nat /\
    Bucket_Bucket O nodePub = Some nodeChanBucket /\
    Bucket_Bucket nodeChanBucket chainHash = Some chainBucket /\
    Bucket_Bucket chainBucket (writeOutpoint chanPoint) = Some chanBucket /\
    fetchOpenChannel chanBucket chanPoint = inr c.

(** A link-node shim for the examples: one link node per key of the
    node-info bucket. *)
#[local] Instance sample_nodes : nodes_go := {|
  fetchAllLinkNodes := fun tx =>
    match Tx_Bucket tx nodeInfoBucket with
    | None => inl ErrLinkNodesNotFound
    | Some nodeMetaBucket =>
        inr (map (fun e => {| LinkNode_IdentityPub := fst e |})
               nodeMetaBucket)
    end
|}.

(* ================================================================== *)
(** * Properties *)

Unset Implicit Arguments.

(** ** Byte strings *)

Lemma to_N_inj (x y : byte) : Byte.to_N x = Byte.to_N y -> x = y.
Proof.
  intros E.
  assert (H : Some x = Some y)
    by (rewrite <- (Byte.of_to_N x), <- (Byte.of_to_N y), E; reflexivity).
  now inversion H.
Qed.

Lemma bytes_compare_refl (a : bytes) : bytes_compare a a = Eq.
Proof.
  induction a as [|x a IH]; simpl; [reflexivity|].
  now rewrite N.compare_refl.
Qed.

Lemma bytes_compare_eq (a b : bytes) : bytes_compare a b = Eq -> a = b.
Proof.
  revert b; induction a as [|x a IH]; intros [|y b]; simpl; try discriminate.
  - reflexivity.
  - destruct (N.compare (Byte.to_N x) (Byte.to_N y)) eqn:E; try discriminate.
    intros H. apply N.compare_eq in E. apply to_N_inj in E.
    f_equal; auto.
Qed.

Lemma bytes_eqb_refl (a : bytes) : bytes_eqb a a = true.
Proof. unfold bytes_eqb. now rewrite bytes_compare_refl. Qed.

Lemma bytes_eqb_eq (a b : bytes) : bytes_eqb a b = true <-> a = b.
Proof.
  unfold bytes_eqb; split.
  - destruct (bytes_compare a b) eqn:E; try discriminate.
    intros _. now apply bytes_compare_eq.
  - intros ->. now rewrite bytes_compare_refl.
Qed.

Lemma bytes_eqb_neq (a b : bytes) : bytes_eqb a b = false <-> a <> b.
Proof.
  rewrite <- bytes_eqb_eq. destruct (bytes_eqb a b); split; congruence.
Qed.

Lemma to_N_byte_of_N (n : N) : Byte.to_N (byte_of_N n) = n mod 256.
Proof.
  unfold byte_of_N. destruct (Byte.of_N (n mod 256)) as [b|] eqn:E.
  - now apply Byte.to_of_N.
  - apply Byte.of_N_None_iff in E.
    pose proof (N.mod_upper_bound n 256). lia.
Qed.

Lemma be32_decode_be32 (n : N) :
  n < 4294967296 ->
  exists b0 b1 b2 b3,
    be32 n = [b0; b1; b2; b3] /\ be32_decode b0 b1 b2 b3 = n.
Proof.
  intros Hn. do 4 eexists. split; [reflexivity|].
  unfold be32_decode. rewrite !to_N_byte_of_N.
  pose proof (N.div_mod' n 256) as H0.
  pose proof (N.div_mod' (n / 256) 256) as H1.
  pose proof (N.div_mod' (n / 65536) 256) as H2.
  pose proof (N.div_mod' (n / 16777216) 256) as H3.
  rewrite N.Div0.div_div in H1, H2, H3.
  change (256 * 256) with 65536 in H1.
  change (65536 * 256) with 16777216 in H2.
  change (16777216 * 256) with 4294967296 in H3.
  rewrite (N.div_small n 4294967296) in H3 by exact Hn.
  lia.
Qed.

Lemma bytes_compare_antisym (a b : bytes) :
  bytes_compare b a = CompOpp (bytes_compare a b).
Proof.
  revert b; induction a as [|x a IH]; intros [|y b]; simpl; try reflexivity.
  rewrite (N.compare_antisym (Byte.to_N x) (Byte.to_N y)).
  destruct (N.compare (Byte.to_N x) (Byte.to_N y)); simpl; auto.
Qed.

Lemma bytes_compare_lt_trans (a b c : bytes) :
  bytes_compare a b = Lt -> bytes_compare b c = Lt -> bytes_compare a c = Lt.
Proof.
  revert b c; induction a as [|x a IH]; intros [|y b] [|z c]; simpl;
    try discriminate; try reflexivity.
  destruct (N.compare_spec (Byte.to_N x) (Byte.to_N y)) as [Exy|Lxy|Gxy];
    try discriminate;
    destruct (N.compare_spec (Byte.to_N y) (Byte.to_N z)) as [Eyz|Lyz|Gyz];
    try discriminate; intros Hab Hbc.
  - rewrite Exy, Eyz, N.compare_refl. now apply (IH b c).
  - rewrite Exy. now apply N.compare_lt_iff in Lyz as ->.
  - rewrite <- Eyz. now apply N.compare_lt_iff in Lxy as ->.
  - assert (L : Byte.to_N x < Byte.to_N z) by lia.
    now apply N.compare_lt_iff in L as ->.
Qed.

(** A key that is not below a seek prefix has, on the length of the
    prefix, bytes that are not below it either. *)
Lemma bytes_compare_prefix (s k : bytes) :
  bytes_compare k s <> Lt ->
  bytes_compare s (firstn (length s) k) <> Gt.
Proof.
  revert k; induction s as [|x s IH]; intros [|y k]; simpl; try congruence.
  rewrite (N.compare_antisym (Byte.to_N y) (Byte.to_N x)).
  destruct (N.compare (Byte.to_N y) (Byte.to_N x)); simpl;
    try congruence. apply IH.
Qed.

Lemma bytes_compare_firstn (m : nat) (l : bytes) :
  bytes_compare (firstn m l) l <> Gt.
Proof.
  revert l; induction m as [|m IH]; intros [|x l]; simpl; try discriminate.
  rewrite N.compare_refl. apply IH.
Qed.

Lemma bytes_compare_own_prefix (m : nat) (l : bytes) :
  bytes_compare l (firstn m l) <> Lt.
Proof.
  rewrite bytes_compare_antisym.
  pose proof (bytes_compare_firstn m l) as H.
  destruct (bytes_compare (firstn m l) l); simpl; congruence.
Qed.

(** ** The backing store *)

Lemma find_key_put_node_same (k : bytes) (n : node) (b : bucket) :
  find_key k (put_node k n b) = Some n.
Proof.
  induction b as [|[k' n'] b IH]; simpl.
  - now rewrite bytes_eqb_refl.
  - destruct (bytes_compare k k') eqn:E; simpl.
    + now rewrite bytes_eqb_refl.
    + now rewrite bytes_eqb_refl.
    + unfold bytes_eqb. now rewrite E.
Qed.

Lemma find_key_put_node_other (k k' : bytes) (n : node) (b : bucket) :
  k <> k' -> find_key k' (put_node k n b) = find_key k' b.
Proof.
  intros Hne. assert (Hb : bytes_eqb k' k = false)
    by (apply bytes_eqb_neq; congruence).
  induction b as [|[k0 n0] b IH]; simpl.
  - now rewrite Hb.
  - destruct (bytes_compare k k0) eqn:E; simpl.
    + apply bytes_compare_eq in E; subst k0. now rewrite Hb.
    + now rewrite Hb.
    + now rewrite IH.
Qed.

Lemma find_key_remove_key_other (k k' : bytes) (b : bucket) :
  k <> k' -> find_key k' (remove_key k b) = find_key k' b.
Proof.
  intros Hne. induction b as [|[k0 n0] b IH]; simpl; [reflexivity|].
  destruct (bytes_eqb k k0) eqn:E; simpl.
  - apply bytes_eqb_eq in E; subst k0.
    assert (Hb : bytes_eqb k' k = false)
      by (apply bytes_eqb_neq; congruence).
    now rewrite Hb.
  - now rewrite IH.
Qed.


(** ** Meta record *)

Lemma fetchMeta_putMeta (meta : Meta) (tx tx' : Tx) :
  DbVersionNumber meta < 4294967296 ->
  putMeta meta tx = Ok tx' ->
  fetchMeta tx' = Ok meta.
Proof.
  intros Hv. unfold putMeta, Tx_CreateBucketIfNotExists.
  destruct (Bucket_CreateBucketIfNotExists tx metaBucket)
    as [[tx1 mb]| |]; simpl; try discriminate.
  unfold Bucket_Put. simpl.
  destruct (find_key dbVersionKey mb) as [[v|s]|]; simpl; try discriminate;
    intros H; inversion H; subst tx'; clear H;
    unfold fetchMeta, Tx_Bucket, Bucket_Bucket, Bucket_store, Bucket_Get;
    rewrite !find_key_put_node_same;
    destruct (be32_decode_be32 _ Hv) as (b0 & b1 & b2 & b3 & -> & E);
    rewrite E; now destruct meta.
Qed.

(** ** Migration engine *)

Lemma getMigrationsToApply_above (versions : list version) (k : N) :
  getMigrationsToApply versions k =
  (map migration_of (above k versions), map number (above k versions)).
Proof.
  induction versions as [|v vs IH]; simpl; [reflexivity|].
  rewrite IH. unfold above; simpl.
  destruct (k <? number v); reflexivity.
Qed.

Lemma applyMigrations_run_all (vs : list version) :
  forall (pre : list N) (tx : Tx),
    let out := applyMigrations (map migration_of vs)
                 (pre ++ map number vs) (length pre) tx in
    snd out = run_all (runnable vs) tx /\
    (forall tx', snd out = Ok tx' ->
       fst out = map LogApplying (map fst (runnable vs))).
Proof.
  induction vs as [|v vs IH]; intros pre tx; simpl.
  - split; [reflexivity|]. intros; reflexivity.
  - assert (Hpre : pre ++ number v :: map number vs =
                   (pre ++ [number v]) ++ map number vs)
      by (rewrite <- app_assoc; reflexivity).
    assert (Hlen : S (length pre) = length (pre ++ [number v]))
      by (rewrite length_app; simpl; lia).
    unfold runnable; simpl. fold (runnable vs).
    destruct (migration_of v) as [migrate|]; simpl.
    + rewrite nth_error_app2 by lia. rewrite Nat.sub_diag. simpl.
      destruct (migrate tx) as [tx1| |]; simpl.
      * rewrite Hpre, Hlen.
        specialize (IH (pre ++ [number v]) tx1). simpl in IH.
        destruct (applyMigrations (map migration_of vs)
                    ((pre ++ [number v]) ++ map number vs)
                    (length (pre ++ [number v])) tx1) as [lines r].
        simpl in *. destruct IH as [IH1 IH2]. split; [exact IH1|].
        intros tx' Hr. now rewrite (IH2 tx' Hr).
      * split; [reflexivity|]. discriminate.
      * split; [reflexivity|]. discriminate.
    + rewrite Hpre, Hlen. apply IH.
Qed.

Lemma syncVersions_tx_run_all (versions : list version) (k latest : N)
    (tx : Tx) :
  let '(migrations, migrationVersions) := getMigrationsToApply versions k in
  let out := syncVersions_tx migrations migrationVersions latest tx in
  snd out =
    (tx' <- run_all (runnable (above k versions)) tx ;;
     putMeta {| DbVersionNumber := latest |} tx') /\
  (forall tx', snd out = Ok tx' ->
     fst out = map LogApplying (map fst (runnable (above k versions)))).
Proof.
  rewrite getMigrationsToApply_above. unfold syncVersions_tx.
  pose proof (applyMigrations_run_all (above k versions) [] tx) as H.
  simpl in H.
  destruct (applyMigrations (map migration_of (above k versions))
              (map number (above k versions)) 0 tx) as [lines r].
  simpl in *. destruct H as [H1 H2]. subst r. split; [reflexivity|].
  intros tx' Hr. destruct (run_all (runnable (above k versions)) tx)
    as [tx1| |] eqn:E; simpl in Hr; try discriminate.
  now apply (H2 tx1).
Qed.

Lemma syncVersions_migrating (versions : list version) (d : DB)
    (k latest : N) :
  match FetchMeta d with
  | Ok meta => DbVersionNumber meta = k
  | Err ErrMetaNotFound => k = 0
  | _ => False
  end ->
  getLatestDBVersion versions = Ok latest ->
  k < latest ->
  let todo := runnable (above k versions) in
  let s := syncVersions versions d in
  (synced_db s, synced_ret s) =
    DB_Update (fun tx => tx' <- run_all todo tx ;;
                         putMeta {| DbVersionNumber := latest |} tx') d /\
  (synced_ret s = Ok tt -> synced_log s = map LogApplying (map fst todo)).
Proof.
  intros Hmeta Hlatest Hlt. unfold syncVersions. rewrite Hlatest.
  assert (Hm : match FetchMeta d with
               | Ok meta => Ok meta
               | Err ErrMetaNotFound => Ok {| DbVersionNumber := 0 |}
               | Err e => Err e
               | Panic => Panic
               end = Ok {| DbVersionNumber := k |}).
  { destruct (FetchMeta d) as [[n]|e|]; simpl in Hmeta;
      [now subst| |contradiction].
    destruct e; try contradiction. now subst. }
  rewrite Hm. simpl DbVersionNumber.
  destruct (N.ltb_spec latest k); [lia|].
  destruct (N.eqb_spec k latest); [lia|].
  pose proof (syncVersions_tx_run_all versions k latest d) as Hbody.
  destruct (getMigrationsToApply versions k) as [migrations migrationVersions].
  simpl in Hbody. destruct Hbody as [H1 H2].
  unfold DB_Update. rewrite H1. simpl.
  destruct (tx' <- run_all (runnable (above k versions)) d ;;
            putMeta {| DbVersionNumber := latest |} tx') as [tx1| |] eqn:E;
    simpl; split; try reflexivity; try discriminate.
  intros _. apply (H2 tx1). exact H1.
Qed.

Lemma runnable_numbers (vs : list version) :
  map fst (runnable vs) =
  map number
    (filter (fun v => match migration_of v with
                      | Some _ => true
                      | None => false
                      end) vs).
Proof.
  induction vs as [|v vs IH]; simpl; [reflexivity|].
  unfold runnable in *; simpl.
  destruct (migration_of v); simpl; now rewrite IH.
Qed.

Lemma StronglySorted_map_filter (f : version -> bool) (vs : list version) :
  StronglySorted N.lt (map number vs) ->
  StronglySorted N.lt (map number (filter f vs)).
Proof.
  induction vs as [|v vs IH]; simpl; intros H; [constructor|].
  inversion H as [|? ? Hs Hf]; subst.
  destruct (f v); simpl; [|now apply IH].
  constructor; [now apply IH|].
  rewrite Forall_forall in *. intros n Hn. apply Hf.
  rewrite in_map_iff in *. destruct Hn as (w & <- & Hw).
  exists w. split; [reflexivity|].
  now apply filter_In in Hw.
Qed.

Lemma getLatestDBVersion_cons (v : version) (vs : list version) :
  getLatestDBVersion (v :: vs) =
  match vs with
  | [] => Ok (number v)
  | _ :: _ => getLatestDBVersion vs
  end.
Proof.
  unfold getLatestDBVersion. destruct vs as [|w vs]; simpl; [reflexivity|].
  now rewrite Nat.sub_0_r.
Qed.

Lemma ascending_below_latest (versions : list version) (latest : N) :
  StronglySorted N.lt (map number versions) ->
  getLatestDBVersion versions = Ok latest ->
  Forall (fun v => number v <= latest) versions.
Proof.
  induction versions as [|v vs IH]; intros Hs Hl; [constructor|].
  simpl in Hs. inversion Hs as [|? ? Hs' Hf]; subst.
  rewrite getLatestDBVersion_cons in Hl.
  destruct vs as [|w vs].
  - inversion Hl; subst. constructor; [lia|constructor].
  - specialize (IH Hs' Hl). constructor; [|exact IH].
    inversion IH as [|? ? Hw _]; subst.
    inversion Hf as [|? ? Hvw _]; subst. lia.
Qed.

Lemma todo_in_range (versions : list version) (k latest : N) :
  StronglySorted N.lt (map number versions) ->
  getLatestDBVersion versions = Ok latest ->
  StronglySorted N.lt (map fst (runnable (above k versions))) /\
  Forall (fun n => k < n <= latest) (map fst (runnable (above k versions))).
Proof.
  intros Hs Hl. rewrite runnable_numbers. split.
  - apply StronglySorted_map_filter. unfold above.
    now apply StronglySorted_map_filter.
  - pose proof (ascending_below_latest _ _ Hs Hl) as Hle.
    rewrite Forall_forall in *. intros n Hn.
    apply in_map_iff in Hn. destruct Hn as (v & <- & Hv).
    apply filter_In in Hv. destruct Hv as [Hv _].
    unfold above in Hv. apply filter_In in Hv. destruct Hv as [Hv Hk].
    apply N.ltb_lt in Hk. split; [exact Hk|]. now apply Hle.
Qed.

Lemma runnable_above (versions : list version) (k n : N)
    (migrate : Tx -> result Tx) :
  In (n, migrate) (runnable (above k versions)) <->
  exists v, In v versions /\ number v = n /\
            migration_of v = Some migrate /\ k < n.
Proof.
  unfold runnable, above. rewrite in_flat_map. split.
  - intros (v & Hv & Hin). apply filter_In in Hv as [Hv Hk].
    apply N.ltb_lt in Hk. exists v.
    destruct (migration_of v) as [m|]; [|contradiction].
    destruct Hin as [Hin|[]]. inversion Hin; subst. auto.
  - intros (v & Hv & Hn & Hm & Hk). exists v. split.
    + apply filter_In. split; [exact Hv|]. apply N.ltb_lt. now rewrite Hn.
    + rewrite Hm, Hn. now left.
Qed.

(** C1. With a stored version [k] below the latest one, [syncVersions]
    runs one read-write transaction that applies the registered
    migrations whose version is above [k], in the order of the version
    list (ascending, all within (k, latest], when the list is ascending),
    and then writes the latest version.  When it succeeds the log names
    exactly those migrations and the stored version is the latest; when a
    migration fails the error is returned and the database, hence the
    stored version, is as before. *)
Theorem syncVersions_applies_newer_migrations
    (versions : list version) (d : DB) (k latest : N) :
  FetchMeta d = Ok {| DbVersionNumber := k |} ->
  getLatestDBVersion versions = Ok latest ->
  k < latest ->
  latest < 4294967296 ->
  let todo := runnable (above k versions) in
  let s := syncVersions versions d in
  (synced_db s, synced_ret s) =
    DB_Update (fun tx => tx' <- run_all todo tx ;;
                         putMeta {| DbVersionNumber := latest |} tx') d /\
  (synced_ret s = Ok tt ->
     synced_log s = map LogApplying (map fst todo) /\
     FetchMeta (synced_db s) = Ok {| DbVersionNumber := latest |}) /\
  (forall e, run_all todo d = Err e ->
     synced_ret s = Err e /\ synced_db s = d /\
     FetchMeta (synced_db s) = Ok {| DbVersionNumber := k |}) /\
  (synced_ret s <> Ok tt -> synced_db s = d) /\
  (StronglySorted N.lt (map number versions) ->
     StronglySorted N.lt (map fst todo) /\
     Forall (fun n => k < n <= latest) (map fst todo)) /\
  (forall n migrate,
     In (n, migrate) todo <->
     exists v, In v versions /\ number v = n /\
               migration_of v = Some migrate /\ k < n).
Proof.
  intros Hmeta Hlatest Hlt H32 todo s.
  assert (Hexact : forall n migrate,
            In (n, migrate) todo <->
            exists v, In v versions /\ number v = n /\
                      migration_of v = Some migrate /\ k < n)
    by (intros n migrate; apply runnable_above).
  cut ((synced_db s, synced_ret s) =
         DB_Update (fun tx => tx' <- run_all todo tx ;;
                              putMeta {| DbVersionNumber := latest |} tx') d /\
       (synced_ret s = Ok tt ->
          synced_log s = map LogApplying (map fst todo) /\
          FetchMeta (synced_db s) = Ok {| DbVersionNumber := latest |}) /\
       (forall e, run_all todo d = Err e ->
          synced_ret s = Err e /\ synced_db s = d /\
          FetchMeta (synced_db s) = Ok {| DbVersionNumber := k |}) /\
       (synced_ret s <> Ok tt -> synced_db s = d) /\
       (StronglySorted N.lt (map number versions) ->
          StronglySorted N.lt (map fst todo) /\
          Forall (fun n => k < n <= latest) (map fst todo))).
  { intros (H1 & H2 & H3 & H4 & H5). repeat (split; [assumption|]).
    exact Hexact. }
  clear Hexact.
  assert (Hm : match FetchMeta d with
               | Ok meta => DbVersionNumber meta = k
               | Err ErrMetaNotFound => k = 0
               | _ => False
               end) by (rewrite Hmeta; reflexivity).
  destruct (syncVersions_migrating versions d k latest Hm Hlatest Hlt) as [Hrun Hlog].
  fold todo s in Hrun, Hlog.
  split; [exact Hrun|]. unfold DB_Update in Hrun.
  assert (Hrange : StronglySorted N.lt (map number versions) ->
                   StronglySorted N.lt (map fst todo) /\
                   Forall (fun n => k < n <= latest) (map fst todo))
    by (intros Hs; now apply todo_in_range).
  destruct (run_all todo d) as [tx0| |] eqn:Erun; simpl in Hrun.
  - destruct (putMeta {| DbVersionNumber := latest |} tx0)
      as [tx1| |] eqn:Eput; inversion Hrun as [[Hdb Hret]];
      rewrite ?Hret, ?Hdb in *;
      (split; [|split; [|split; [|exact Hrange]]]);
      try discriminate; try congruence.
    intros _. split; [now apply Hlog|].
    unfold FetchMeta, DB_View.
    now apply (fetchMeta_putMeta {| DbVersionNumber := latest |} tx0 tx1).
  - inversion Hrun as [[Hdb Hret]]. rewrite ?Hret, ?Hdb in *.
    split; [discriminate|].
    split; [|split; [reflexivity|exact Hrange]].
    intros e' He'. inversion He'; subst e'. now rewrite Hmeta.
  - inversion Hrun as [[Hdb Hret]]. rewrite ?Hret, ?Hdb in *.
    split; [discriminate|].
    split; [discriminate|].
    split; [reflexivity|exact Hrange].
Qed.

Lemma syncVersions_applies_newer_migrations_witness :
  synced_ret (syncVersions dbVersions (db_with_version 3)) = Ok tt /\
  synced_log (syncVersions dbVersions (db_with_version 3)) =
    map LogApplying [4; 5; 6; 7; 8; 9; 10; 11] /\
  FetchMeta (synced_db (syncVersions dbVersions (db_with_version 3))) =
    Ok {| DbVersionNumber := 11 |}.
Proof.
  pose proof (syncVersions_applies_newer_migrations
                dbVersions (db_with_version 3) 3 11
                eq_refl eq_refl eq_refl eq_refl) as H.
  destruct H as (_ & H & _).
  split; [reflexivity|]. apply H. reflexivity.
Defined.

Lemma syncVersions_reversion (versions : list version) (d : DB)
    (k latest : N) :
  FetchMeta d = Ok {| DbVersionNumber := k |} ->
  getLatestDBVersion versions = Ok latest ->
  latest < k ->
  syncVersions versions d =
    {| synced_db := d; synced_log := []; synced_ret := Err ErrDBReversion |}.
Proof.
  intros Hmeta Hlatest Hlt. unfold syncVersions.
  rewrite Hmeta, Hlatest. simpl.
  destruct (N.ltb_spec latest k); [reflexivity|lia].
Qed.

(** C2. When the stored version is above the latest registered one,
    [Open] returns [ErrDBReversion], logs no migration and leaves the
    file as it was; the same holds for [syncVersions] with any version
    list. *)
Theorem Open_refuses_reversion `{migration_01_to_11} (d : DB) (k : N) :
  FetchMeta d = Ok {| DbVersionNumber := k |} ->
  (11 < k ->
   Open (Some d) =
     {| opened_file := Some d; opened_log := [];
        opened_ret := Err ErrDBReversion |}) /\
  (forall versions latest,
     getLatestDBVersion versions = Ok latest ->
     latest < k ->
     syncVersions versions d =
       {| synced_db := d; synced_log := [];
          synced_ret := Err ErrDBReversion |}).
Proof.
  intros Hmeta. split.
  - intros Hk. unfold Open.
    rewrite (syncVersions_reversion dbVersions d k 11 Hmeta eq_refl Hk).
    reflexivity.
  - intros versions latest Hl Hlt.
    now apply (syncVersions_reversion versions d k latest).
Qed.

Lemma Open_refuses_reversion_witness :
  FetchMeta (db_with_version 99) = Ok {| DbVersionNumber := 99 |} /\
  Open (Some (db_with_version 99)) =
    {| opened_file := Some (db_with_version 99); opened_log := [];
       opened_ret := Err ErrDBReversion |}.
Proof.
  split; [reflexivity|].
  exact (proj1 (Open_refuses_reversion (db_with_version 99) 99 eq_refl)
           eq_refl).
Defined.

(** C3, as the code has it.  A missing file is created with the latest
    version already written, and [Open] then logs no migration.  A file
    that is there but holds no meta record is taken to be at version 0:
    with a latest version above 0, [syncVersions] applies every
    registered migration above 0 and then writes the latest version, in
    one transaction; with latest version 0 it returns at once. *)
Theorem Open_without_meta_record `{migration_01_to_11} :
  (let fresh := fst createChannelDB in
   Open None =
     {| opened_file := Some fresh; opened_log := [];
        opened_ret := Ok fresh |} /\
   FetchMeta fresh = Ok {| DbVersionNumber := 11 |}) /\
  (forall versions d latest,
     FetchMeta d = Err ErrMetaNotFound ->
     getLatestDBVersion versions = Ok latest ->
     let todo := runnable (above 0 versions) in
     let s := syncVersions versions d in
     (latest = 0 ->
      s = {| synced_db := d; synced_log := []; synced_ret := Ok tt |}) /\
     (0 < latest ->
      (synced_db s, synced_ret s) =
        DB_Update (fun tx => tx' <- run_all todo tx ;;
                             putMeta {| DbVersionNumber := latest |} tx') d /\
      (synced_ret s = Ok tt ->
       synced_log s = map LogApplying (map fst todo)))).
Proof.
  split; [split; reflexivity|].
  intros versions d latest Hmeta Hlatest todo s. split.
  - intros ->. unfold s, syncVersions. now rewrite Hmeta, Hlatest.
  - intros Hpos.
    apply (syncVersions_migrating versions d 0 latest); try assumption.
    now rewrite Hmeta.
Qed.

Lemma Open_without_meta_record_witness :
  FetchMeta [] = Err ErrMetaNotFound /\
  synced_log (syncVersions dbVersions []) =
    map LogApplying [1; 2; 3; 4; 5; 6; 7; 8; 9; 10; 11].
Proof.
  split; [reflexivity|].
  pose proof (proj2 Open_without_meta_record dbVersions [] 11
                eq_refl eq_refl) as H.
  destruct H as [_ H]. destruct (H eq_refl) as [_ Hlog].
  apply Hlog. reflexivity.
Defined.

(** C3 as stated fails: a database file without a meta record is
    migrated from version 0, here through all eleven migrations. *)
Lemma no_meta_record_runs_migrations :
  FetchMeta [] = Err ErrMetaNotFound /\
  opened_log (Open (Some [])) =
    map LogApplying [1; 2; 3; 4; 5; 6; 7; 8; 9; 10; 11] /\
  opened_log (Open (Some [])) <> [].
Proof.
  split; [reflexivity|]. split; [reflexivity|]. discriminate.
Qed.

(** ** Wipe *)

Lemma deleteBucketIfFound_frame (tx tx' : Tx) (name : bytes) :
  deleteBucketIfFound tx name = Ok tx' ->
  forall k, k <> name -> find_key k tx' = find_key k tx.
Proof.
  unfold deleteBucketIfFound, Tx_DeleteBucket, Bucket_DeleteBucket.
  destruct (find_key name tx) as [[v|s]|]; try discriminate;
    intros E k Hk; inversion E; subst tx'; [|reflexivity].
  apply find_key_remove_key_other. congruence.
Qed.

Lemma Wipe_tx_frame (tx tx' : Tx) :
  Wipe_tx tx = Ok tx' ->
  forall k,
    ~ In k [openChannelBucket; closedChannelBucket; invoiceBucket;
            nodeInfoBucket; nodeBucket; edgeBucket; edgeIndexBucket;
            graphMetaBucket] ->
    find_key k tx' = find_key k tx.
Proof.
  unfold Wipe_tx. intros Hw k Hk.
  repeat match type of Hw with
  | (t <- deleteBucketIfFound ?a ?name ;; _) = Ok _ =>
      let t1 := fresh "t" in
      let E := fresh "E" in
      destruct (deleteBucketIfFound a name) as [t1| |] eqn:E;
      simpl in Hw; try discriminate;
      apply deleteBucketIfFound_frame with (k := k) in E;
      [|intros ->; apply Hk; simpl; tauto]
  end.
  inversion Hw; subst tx'. congruence.
Qed.

(** C9, on the code.  Whatever the database, [Wipe] leaves
    [fwd-log-bucket], [fwd-packages] and [meta-bucket] as they were: none
    of its eight deletions names them.  On the database that
    [createChannelDB] makes, [Wipe] commits and leaves exactly these
    three top-level buckets behind. *)
Theorem Wipe_leaves_forwarding_buckets `{migration_01_to_11} :
  (forall d,
     find_key forwardingLogBucket (fst (Wipe d)) =
       find_key forwardingLogBucket d /\
     find_key fwdPackagesKey (fst (Wipe d)) = find_key fwdPackagesKey d /\
     find_key metaBucket (fst (Wipe d)) = find_key metaBucket d) /\
  Wipe (fst createChannelDB) =
    ([ (forwardingLogBucket, Nested []);
       (fwdPackagesKey, Nested []);
       (metaBucket, Nested [(dbVersionKey, Value (be32 11))]) ],
     Ok tt).
Proof.
  split; [|reflexivity].
  intros d. unfold Wipe, DB_Update.
  destruct (Wipe_tx d) as [tx'| |] eqn:Hw; simpl; try (repeat split).
  all: apply (Wipe_tx_frame d tx' Hw); simpl;
    intros Hin; repeat (destruct Hin as [Hin|Hin]; [discriminate|]);
    exact Hin.
Qed.

(** ** Outpoints and channel ids *)

Lemma readOutpoint_writeOutpoint (op : OutPoint) :
  wf_OutPoint op -> readOutpoint (writeOutpoint op) = Ok op.
Proof.
  intros [Hlen Hidx]. unfold readOutpoint, writeOutpoint.
  rewrite skipn_app, firstn_app, Hlen, Nat.sub_diag.
  rewrite skipn_all2, firstn_all2 by lia. simpl.
  destruct (be32_decode_be32 _ Hidx) as (b0 & b1 & b2 & b3 & E & D).
  unfold be32 in *. inversion E; subst. rewrite app_nil_r.
  rewrite D. now destruct op.
Qed.

Lemma readOutpoint_total (k : bytes) :
  (36 <= length k)%nat -> exists o, readOutpoint k = Ok o.
Proof.
  intros Hlen. unfold readOutpoint.
  pose proof (length_skipn 32 k) as Hs.
  destruct (skipn 32 k) as [|b0 [|b1 [|b2 [|b3 r]]]]; simpl in Hs;
    try lia. eexists; reflexivity.
Qed.

Lemma chanID_prefix (op : OutPoint) :
  length (Hash op) = 32%nat ->
  firstn 30 (NewChanIDFromOutPoint op) = firstn 30 (writeOutpoint op).
Proof.
  intros Hlen. unfold NewChanIDFromOutPoint, writeOutpoint.
  rewrite !firstn_app, Hlen, firstn_firstn, length_firstn, Hlen.
  simpl. now rewrite !app_nil_r.
Qed.

Lemma chanID_prefix_length (op : OutPoint) :
  length (Hash op) = 32%nat ->
  length (firstn 30 (NewChanIDFromOutPoint op)) = 30%nat.
Proof.
  intros Hlen. rewrite length_firstn. unfold NewChanIDFromOutPoint.
  rewrite length_app, length_firstn, Hlen. reflexivity.
Qed.

Lemma IsChanPoint_own (op : OutPoint) :
  IsChanPoint (NewChanIDFromOutPoint op) op = true.
Proof. unfold IsChanPoint. apply bytes_eqb_refl. Qed.

(** ** Closed channels *)

#[local] Arguments firstn : simpl never.
#[local] Arguments skipn : simpl never.

Lemma find_key_In (k : bytes) (b : bucket) (n : node) :
  find_key k b = Some n -> In (k, n) b.
Proof.
  induction b as [|[k' n'] b IH]; simpl; [discriminate|].
  destruct (bytes_eqb k k') eqn:E.
  - apply bytes_eqb_eq in E. intros H; inversion H; subst. now left.
  - intros H. right. now apply IH.
Qed.

Lemma find_key_Cursor_Seek (key seek : bytes) (b : bucket) :
  bytes_compare key seek <> Lt ->
  find_key key (Cursor_Seek b seek) = find_key key b.
Proof.
  intros Hge. induction b as [|[k n] b IH]; simpl; [reflexivity|].
  destruct (bytes_compare k seek) eqn:E; try reflexivity.
  rewrite IH. destruct (bytes_eqb key k) eqn:Ek; [|reflexivity].
  apply bytes_eqb_eq in Ek. congruence.
Qed.

Lemma Cursor_Seek_incl (seek : bytes) (b : bucket) :
  incl (Cursor_Seek b seek) b.
Proof.
  induction b as [|[k n] b IH]; simpl; [apply incl_refl|].
  destruct (bytes_compare k seek); try apply incl_refl.
  now apply incl_tl.
Qed.

Lemma Cursor_Seek_not_below (seek : bytes) (b : bucket) :
  keys_ascending b ->
  Forall (fun e => bytes_compare (fst e) seek <> Lt) (Cursor_Seek b seek).
Proof.
  unfold keys_ascending.
  induction b as [|[k n] b IH]; simpl; intros Hs; [constructor|].
  inversion Hs as [|? ? Hs' Hlt]; subst.
  assert (Hall : bytes_compare k seek <> Lt ->
                 Forall (fun e => bytes_compare (fst e) seek <> Lt)
                   ((k, n) :: b)).
  { intros Hk. constructor; [exact Hk|].
    rewrite Forall_forall in *. intros [k' n'] Hin. simpl.
    assert (Hkk : bytes_compare k k' = Lt)
      by (apply Hlt, in_map_iff; exists (k', n'); auto).
    intros Hc. apply Hk. now apply (bytes_compare_lt_trans k k' seek). }
  destruct (bytes_compare k seek) eqn:E.
  - apply Hall. congruence.
  - now apply IH.
  - apply Hall. congruence.
Qed.

Section ClosedChannels.
Context `{channel_go}.

Lemma scanClosedChannels_step (cid : bytes) (e : bytes * node)
    (rest : bucket) :
  stepped_over cid e ->
  scanClosedChannels cid (e :: rest) = scanClosedChannels cid rest.
Proof.
  destruct e as [k n]. intros (Hlen & Hcmp & Hno). simpl in *.
  unfold slice_to.
  destruct (Nat.leb_spec 30 (length k)); [|lia]. simpl.
  destruct (readOutpoint_total k Hlen) as [o Ho]. rewrite Ho. simpl.
  rewrite (Hno o Ho). simpl.
  destruct (bytes_compare (firstn 30 cid) (firstn 30 k)) eqn:Ec;
    try reflexivity. congruence.
Qed.

Lemma scanClosedChannels_skip (cid : bytes) (pre rest : bucket) :
  Forall (stepped_over cid) pre ->
  scanClosedChannels cid (pre ++ rest) = scanClosedChannels cid rest.
Proof.
  induction 1 as [|e pre He _ IH]; [reflexivity|].
  rewrite <- app_comm_cons, scanClosedChannels_step by exact He.
  exact IH.
Qed.

Lemma scanClosedChannels_none (cid : bytes) (entries : bucket) :
  Forall (fun e => (36 <= length (fst e))%nat /\
                   forall o, readOutpoint (fst e) = Ok o ->
                             IsChanPoint cid o = false) entries ->
  scanClosedChannels cid entries = Err ErrClosedChannelNotFound.
Proof.
  induction 1 as [|[k n] entries [Hlen Hno] _ IH]; [reflexivity|].
  simpl in *. unfold slice_to.
  destruct (Nat.leb_spec 30 (length k)); [|lia]. simpl.
  destruct (readOutpoint_total k Hlen) as [o Ho]. rewrite Ho. simpl.
  rewrite (Hno o Ho). simpl. rewrite IH.
  now destruct (bytes_compare (firstn 30 cid) (firstn 30 k)).
Qed.

Lemma scanClosedChannels_no_panic (cid : bytes) (entries : bucket) :
  Forall (fun e => (30 <= length (fst e))%nat) entries ->
  scanClosedChannels cid entries <> Panic.
Proof.
  induction 1 as [|[k n] entries Hlen _ IH]; [discriminate|].
  simpl in *. unfold slice_to.
  destruct (Nat.leb_spec 30 (length k)); [|lia]. simpl.
  destruct (bytes_compare (firstn 30 cid) (firstn 30 k));
    try discriminate;
    (unfold readOutpoint;
     destruct (skipn 32 k) as [|b0 [|b1 [|b2 [|b3 r]]]]; simpl;
     try discriminate;
     match goal with
     | |- (if ?c then _ else _) <> _ => destruct c
     end; [exact IH|];
     destruct (deserializeCloseChannelSummary (reader (node_value n)));
     discriminate).
Qed.

Lemma scanClosedChannels_finds (op : OutPoint) (v : bytes)
    (entries : bucket) :
  wf_OutPoint op ->
  Forall (fun e => length (fst e) = 36%nat) entries ->
  Forall (fun e => bytes_compare (fst e)
                     (firstn 30 (NewChanIDFromOutPoint op)) <> Lt)
    entries ->
  (forall k n o, In (k, n) entries -> readOutpoint k = Ok o ->
                 NewChanIDFromOutPoint o = NewChanIDFromOutPoint op ->
                 k = writeOutpoint op) ->
  find_key (writeOutpoint op) entries = Some (Value v) ->
  scanClosedChannels (NewChanIDFromOutPoint op) entries =
    call (deserializeCloseChannelSummary v).
Proof.
  intros Hwf Hlen Hge Huniq. set (cid := NewChanIDFromOutPoint op).
  induction entries as [|[k n] entries IH]; [simpl; discriminate|].
  inversion Hlen as [|? ? Hk Hlen']; subst.
  inversion Hge as [|? ? Hkge Hge']; subst. simpl in Hk, Hkge.
  cbn [find_key].
  destruct (bytes_eqb (writeOutpoint op) k) eqn:E.
  - apply bytes_eqb_eq in E. subst k. intros Hv. inversion Hv; subst n.
    cbn [scanClosedChannels].
    unfold slice_to. rewrite Hk. simpl Nat.leb. cbv iota.
    unfold bind at 1.
    unfold cid. rewrite chanID_prefix by apply Hwf.
    rewrite bytes_compare_refl.
    rewrite readOutpoint_writeOutpoint by exact Hwf. simpl.
    now rewrite IsChanPoint_own.
  - intros Hfind.
    rewrite scanClosedChannels_step.
    + apply IH; try assumption.
      intros k' n' o Hin. apply (Huniq k' n' o). now right.
    + split; [simpl; lia|]. split.
      * simpl.
        pose proof (bytes_compare_prefix (firstn 30 cid) k Hkge) as Hp.
        unfold cid in *.
        rewrite chanID_prefix_length in Hp by apply Hwf. exact Hp.
      * simpl. intros o Ho. unfold IsChanPoint.
        apply bytes_eqb_neq. intros Hc.
        apply bytes_eqb_neq in E. apply E. symmetry.
        apply (Huniq k n o); [now left|exact Ho|exact Hc].
Qed.

End ClosedChannels.

(** C6, as the code has it.  In a closed-channel bucket with ascending
    36-byte keys, [FetchClosedChannelForID] on the channel id of a stored
    outpoint returns what [FetchClosedChannel] returns for the outpoint,
    provided no other stored outpoint derives the same channel id; and
    when no stored outpoint is the channel point of the id, it returns
    [ErrClosedChannelNotFound]. *)
Theorem FetchClosedChannelForID_agrees `{channel_go}
    (d : DB) (closeBucket : bucket) :
  Tx_Bucket d closedChannelBucket = Some closeBucket ->
  keys_ascending closeBucket ->
  (forall k n, In (k, n) closeBucket -> length k = 36%nat) ->
  (forall op summaryBytes,
     wf_OutPoint op ->
     Bucket_Get closeBucket (writeOutpoint op) = Some summaryBytes ->
     (forall k n o,
        In (k, n) closeBucket -> readOutpoint k = Ok o ->
        NewChanIDFromOutPoint o = NewChanIDFromOutPoint op ->
        k = writeOutpoint op) ->
     FetchClosedChannelForID (NewChanIDFromOutPoint op) d =
       FetchClosedChannel op d /\
     FetchClosedChannel op d =
       call (deserializeCloseChannelSummary summaryBytes)) /\
  (forall cid,
     (forall k n o,
        In (k, n) closeBucket -> readOutpoint k = Ok o ->
        IsChanPoint cid o = false) ->
     FetchClosedChannelForID cid d = Err ErrClosedChannelNotFound).
Proof.
  intros Hb Hasc Hlen. split.
  - intros op v Hwf Hget Huniq.
    unfold FetchClosedChannelForID, FetchClosedChannel, DB_View.
    rewrite Hb, Hget. split; [|reflexivity].
    set (seek := firstn 30 (NewChanIDFromOutPoint op)).
    assert (Hge : bytes_compare (writeOutpoint op) seek <> Lt).
    { unfold seek. rewrite chanID_prefix by apply Hwf.
      apply bytes_compare_own_prefix. }
    apply scanClosedChannels_finds.
    + exact Hwf.
    + rewrite Forall_forall. intros [k n] Hin. simpl.
      apply (Hlen k n). now apply (Cursor_Seek_incl seek closeBucket).
    + now apply Cursor_Seek_not_below.
    + intros k n o Hin. apply (Huniq k n o).
      now apply (Cursor_Seek_incl seek closeBucket).
    + rewrite find_key_Cursor_Seek by exact Hge.
      unfold Bucket_Get in Hget.
      destruct (find_key (writeOutpoint op) closeBucket) as [[w|s]|];
        try discriminate. now inversion Hget.
  - intros cid Hno. unfold FetchClosedChannelForID, DB_View. rewrite Hb.
    apply scanClosedChannels_none. rewrite Forall_forall.
    intros [k n] Hin. simpl.
    apply (Cursor_Seek_incl (firstn 30 cid) closeBucket) in Hin.
    split; [rewrite (Hlen k n Hin); lia|].
    intros o. now apply (Hno k n o).
Qed.

Lemma FetchClosedChannelForID_agrees_witness :
  FetchClosedChannelForID (NewChanIDFromOutPoint op_high) db_one_closed =
    FetchClosedChannel op_high db_one_closed /\
  FetchClosedChannel op_high db_one_closed =
    Ok (sample_summary op_high BreachClose 200 true).
Proof.
  assert (Hasc : keys_ascending
                   [(writeOutpoint op_high,
                     Value (sample_summaryBytes
                              (sample_summary op_high BreachClose 200 true)))])
    by (repeat constructor).
  assert (Hlen : forall k n,
             In (k, n)
               [(writeOutpoint op_high,
                 Value (sample_summaryBytes
                          (sample_summary op_high BreachClose 200 true)))] ->
             length k = 36%nat).
  { intros k n [Hin|[]]. inversion Hin. reflexivity. }
  pose proof (FetchClosedChannelForID_agrees db_one_closed _
                eq_refl Hasc Hlen) as [Hsame _].
  assert (Hwf : wf_OutPoint op_high) by (split; reflexivity).
  destruct (Hsame op_high _ Hwf eq_refl) as [H1 H2].
  - intros k n o [Hin|[]] _ _. inversion Hin. reflexivity.
  - split; [exact H1|]. rewrite H2. reflexivity.
Defined.

(** C6 as stated fails when two stored outpoints derive one channel id:
    the outpoints of one transaction with indices 0 and 65536 do, and the
    lookup by channel id answers with the summary of the first. *)
Lemma FetchClosedChannelForID_collision :
  NewChanIDFromOutPoint op_high = NewChanIDFromOutPoint op_low /\
  FetchClosedChannel op_high db_colliding_closed =
    Ok (sample_summary op_high BreachClose 200 true) /\
  FetchClosedChannelForID (NewChanIDFromOutPoint op_high)
    db_colliding_closed =
    Ok (sample_summary op_low CooperativeLocal 100 false) /\
  FetchClosedChannelForID (NewChanIDFromOutPoint op_high)
    db_colliding_closed <>
    FetchClosedChannel op_high db_colliding_closed.
Proof.
  split; [reflexivity|]. split; [reflexivity|]. split; [reflexivity|].
  discriminate.
Qed.

(** C10. [FetchClosedChannelForID] takes [op[:30]] of every key the
    cursor hands out.  When every key of the closed-channel bucket has at
    least 30 bytes the call does not panic; when the cursor reaches a
    shorter key, after entries it steps over, the call panics. *)
Theorem FetchClosedChannelForID_slice_bounds `{channel_go}
    (cid : bytes) (d : DB) :
  ((forall closeBucket k n,
      Tx_Bucket d closedChannelBucket = Some closeBucket ->
      In (k, n) closeBucket -> (30 <= length k)%nat) ->
   FetchClosedChannelForID cid d <> Panic) /\
  (forall closeBucket pre k n rest,
     Tx_Bucket d closedChannelBucket = Some closeBucket ->
     Cursor_Seek closeBucket (firstn 30 cid) = pre ++ (k, n) :: rest ->
     Forall (stepped_over cid) pre ->
     (length k < 30)%nat ->
     FetchClosedChannelForID cid d = Panic).
Proof.
  split.
  - intros Hlen. unfold FetchClosedChannelForID, DB_View.
    destruct (Tx_Bucket d closedChannelBucket) as [closeBucket|] eqn:Hb;
      [|discriminate].
    apply scanClosedChannels_no_panic. rewrite Forall_forall.
    intros [k n] Hin. simpl. apply (Hlen closeBucket k n eq_refl).
    now apply (Cursor_Seek_incl (firstn 30 cid) closeBucket).
  - intros closeBucket pre k n rest Hb Hseek Hpre Hshort.
    unfold FetchClosedChannelForID, DB_View. rewrite Hb, Hseek.
    rewrite scanClosedChannels_skip by exact Hpre.
    cbn [scanClosedChannels]. unfold slice_to.
    destruct (Nat.leb_spec 30 (length k)); [lia|reflexivity].
Qed.

Lemma FetchClosedChannelForID_slice_bounds_witness :
  FetchClosedChannelForID (NewChanIDFromOutPoint op_low) db_one_closed
    <> Panic /\
  FetchClosedChannelForID (NewChanIDFromOutPoint op_low) db_short_key
    = Panic.
Proof.
  pose proof (FetchClosedChannelForID_slice_bounds
                (NewChanIDFromOutPoint op_low) db_one_closed) as [Hsafe _].
  pose proof (FetchClosedChannelForID_slice_bounds
                (NewChanIDFromOutPoint op_low) db_short_key) as [_ Hfault].
  split.
  - apply Hsafe. intros closeBucket k n Hb Hin.
    inversion Hb; subst closeBucket. destruct Hin as [Hin|[]].
    inversion Hin. apply Nat.leb_le. reflexivity.
  - apply (Hfault _ [] [x12] (Value []) [] eq_refl eq_refl).
    + constructor.
    + apply Nat.ltb_lt. reflexivity.
Defined.

(** ** Channel queries *)

Lemma Bucket_ForEach_sim {S T : Type} (g : S -> T)
    (f1 : bytes -> option bytes -> S -> result S)
    (f2 : bytes -> option bytes -> T -> result T) (b : bucket) :
  (forall k n s, In (k, n) b ->
     f2 k (node_value n) (g s) = (s' <- f1 k (node_value n) s ;; Ok (g s'))) ->
  forall s,
    Bucket_ForEach f2 b (g s) = (s' <- Bucket_ForEach f1 b s ;; Ok (g s')).
Proof.
  induction b as [|[k n] b IH]; intros Hstep s; simpl; [reflexivity|].
  rewrite (Hstep k n s) by now left.
  destruct (f1 k (node_value n) s) as [s1| |]; simpl; try reflexivity.
  apply IH. intros k' n' s' Hin. apply Hstep. now right.
Qed.

Lemma appendMatching_filter (pending waitingClose : bool)
    (nodeChans channels : list OpenChannel) :
  appendMatching pending waitingClose nodeChans channels =
  channels ++ filter (selected pending waitingClose) nodeChans.
Proof.
  unfold appendMatching.
  revert channels; induction nodeChans as [|c cs IH]; intros channels;
    simpl; [now rewrite app_nil_r|].
  rewrite IH. unfold selected at 2.
  destruct (Bool.eqb (chan_IsPending c) pending); simpl; [|reflexivity].
  destruct (Bool.eqb (negb (ChanStatus c =? ChanStatusDefault))
              waitingClose); simpl; [|reflexivity].
  now rewrite <- app_assoc.
Qed.

Section ChannelQueries.
Context `{channel_go}.

Lemma fetchChannels_filter (d : DB) (pending waitingClose : bool) :
  fetchChannels d pending waitingClose =
  (stored <- storedChannels d ;;
   Ok (filter (selected pending waitingClose) stored)).
Proof.
  unfold fetchChannels, storedChannels, DB_View.
  destruct (Tx_Bucket d openChannelBucket) as [openChanBucket|];
    [|reflexivity].
  destruct (Tx_Bucket d nodeInfoBucket) as [nodeMetaBucket|];
    [|reflexivity].
  change (@nil OpenChannel)
    with (filter (selected pending waitingClose) []) at 1.
  apply Bucket_ForEach_sim. intros k n s _.
  destruct (Bucket_Bucket openChanBucket k) as [nodeChanBucket|];
    [|reflexivity].
  apply Bucket_ForEach_sim. intros chainHash n' s' _.
  destruct (node_value n'); [reflexivity|].
  destruct (Bucket_Bucket nodeChanBucket chainHash) as [chainBucket|];
    [|reflexivity].
  destruct (fetchNodeChannels chainBucket) as [nodeChans| |];
    try reflexivity.
  simpl. now rewrite appendMatching_filter, filter_app.
Qed.

Lemma selected_partition (stored : list OpenChannel) :
  Permutation
    (filter (selected false false) stored
     ++ filter (selected true false) stored
     ++ filter (selected false true) stored
     ++ filter (selected true true) stored)
    stored.
Proof.
  induction stored as [|c cs IH]; simpl; [constructor|].
  set (A := filter (selected false false) cs) in *.
  set (B := filter (selected true false) cs) in *.
  set (C := filter (selected false true) cs) in *.
  set (D := filter (selected true true) cs) in *.
  unfold selected.
  destruct (chan_IsPending c),
    (negb (ChanStatus c =? ChanStatusDefault)); simpl.
  - rewrite !app_assoc. apply Permutation_sym, Permutation_cons_app.
    rewrite <- !app_assoc. now apply Permutation_sym.
  - apply Permutation_sym, Permutation_cons_app.
    now apply Permutation_sym.
  - rewrite app_assoc. apply Permutation_sym, Permutation_cons_app.
    rewrite <- app_assoc. now apply Permutation_sym.
  - now constructor.
Qed.

Lemma selected_flags (pending waitingClose : bool) (c : OpenChannel) :
  selected pending waitingClose c = true ->
  chan_IsPending c = pending /\
  (ChanStatus c =? ChanStatusDefault) = negb waitingClose.
Proof.
  unfold selected. intros Hs. apply andb_true_iff in Hs as [H1 H2].
  apply Bool.eqb_prop in H1, H2. split; [exact H1|].
  rewrite <- H2. now rewrite negb_involutive.
Qed.

End ChannelQueries.

(** C5. In every database state in which [FetchAllChannels] returns
    channels, the three queries return too, its result is their lists one
    after the other, the lists are told apart by the flags (open: not
    pending, status Default; pending: pending, status Default; waiting
    close: status not Default, pending or not), so no channel is in two of
    them, and together they hold every stored channel once.  Conversely
    the results of the three queries make up that of
    [FetchAllChannels]. *)
Theorem FetchAllChannels_partition `{channel_go} (d : DB) :
  (forall all,
     FetchAllChannels d = Ok all ->
     exists openChannels pendingChannels waitingClose stored,
       FetchAllOpenChannels d = Ok openChannels /\
       FetchPendingChannels d = Ok pendingChannels /\
       FetchWaitingCloseChannels d = Ok waitingClose /\
       all = openChannels ++ pendingChannels ++ waitingClose /\
       (forall c, In c openChannels ->
          chan_IsPending c = false /\ ChanStatus c = ChanStatusDefault) /\
       (forall c, In c pendingChannels ->
          chan_IsPending c = true /\ ChanStatus c = ChanStatusDefault) /\
       (forall c, In c waitingClose -> ChanStatus c <> ChanStatusDefault) /\
       (forall c, In c openChannels -> ~ In c pendingChannels) /\
       (forall c, In c openChannels -> ~ In c waitingClose) /\
       (forall c, In c pendingChannels -> ~ In c waitingClose) /\
       (forall c, In c all <->
          In c openChannels \/ In c pendingChannels \/ In c waitingClose) /\
       storedChannels d = Ok stored /\
       Permutation all stored) /\
  (forall openChannels pendingChannels waitingClose,
     FetchAllOpenChannels d = Ok openChannels ->
     FetchPendingChannels d = Ok pendingChannels ->
     FetchWaitingCloseChannels d = Ok waitingClose ->
     FetchAllChannels d =
       Ok (openChannels ++ pendingChannels ++ waitingClose)).
Proof.
  unfold FetchAllChannels, FetchWaitingCloseChannels, FetchAllOpenChannels,
    FetchPendingChannels.
  rewrite !fetchChannels_filter.
  destruct (storedChannels d) as [stored| |]; simpl.
  2-3: split; [discriminate|]; intros; discriminate.
  assert (Hflags : forall p w c,
            In c (filter (selected p w) stored) ->
            chan_IsPending c = p /\
            (ChanStatus c =? ChanStatusDefault) = negb w).
  { intros p w c Hin. apply filter_In in Hin as [_ Hs].
    now apply selected_flags. }
  split.
  - intros all Hall. inversion Hall; subst all; clear Hall.
    exists (filter (selected false false) stored),
      (filter (selected true false) stored),
      (filter (selected false true) stored
       ++ filter (selected true true) stored), stored.
    assert (Hw : forall c,
              In c (filter (selected false true) stored
                    ++ filter (selected true true) stored) ->
              ChanStatus c <> ChanStatusDefault).
    { intros c Hin. apply in_app_or in Hin.
      assert (E : (ChanStatus c =? ChanStatusDefault) = false)
        by (destruct Hin as [Hin|Hin]; now apply Hflags in Hin).
      now apply N.eqb_neq. }
    assert (Hd : forall p c,
              In c (filter (selected p false) stored) ->
              ChanStatus c = ChanStatusDefault).
    { intros p c Hin. apply Hflags in Hin as [_ E]. now apply N.eqb_eq. }
    do 3 (split; [reflexivity|]).
    split; [now rewrite <- app_assoc|].
    split.
    { intros c Hin. split; [now apply (Hflags false false)|].
      now apply (Hd false). }
    split.
    { intros c Hin. split; [now apply (Hflags true false)|].
      now apply (Hd true). }
    split; [exact Hw|].
    split.
    { intros c Ho Hp. apply Hflags in Ho as [Ho _], Hp as [Hp _].
      congruence. }
    split.
    { intros c Ho Hwc. apply (Hw c Hwc). now apply (Hd false). }
    split.
    { intros c Hp Hwc. apply (Hw c Hwc). now apply (Hd true). }
    split.
    { intros c. rewrite <- app_assoc, !in_app_iff. tauto. }
    split; [reflexivity|].
    rewrite <- app_assoc. apply selected_partition.
  - intros o p w Ho Hp Hw. inversion Ho; inversion Hp; inversion Hw.
    now rewrite <- app_assoc.
Qed.

(** ** Marking a channel fully closed *)


Lemma find_key_store_other (tx : Tx) (name name' : bytes) (b : bucket) :
  name <> name' ->
  find_key name' (Bucket_store tx name b) = find_key name' tx.
Proof. intros Hne. now apply find_key_put_node_other. Qed.

Lemma find_key_remove_key_same (k : bytes) (b : bucket) :
  find_key k (remove_key k b) = None.
Proof.
  unfold remove_key.
  induction b as [|[k' n] b IH]; simpl; [reflexivity|].
  destruct (bytes_eqb k k') eqn:E; simpl; [exact IH|].
  now rewrite E.
Qed.


Lemma writeOutpoint_not_nil (o : OutPoint) : writeOutpoint o <> [].
Proof.
  unfold writeOutpoint, be32. destruct (Hash o); discriminate.
Qed.

Lemma Bucket_Put_value (b : bucket) (key value old : bytes) :
  key <> [] ->
  Bucket_Get b key = Some old ->
  Bucket_Put b key value = Ok (put_node key (Value value) b).
Proof.
  unfold Bucket_Get, Bucket_Put. intros Hne Hget.
  destruct key as [|x key]; [congruence|].
  destruct (find_key (x :: key) b) as [[v|s]|]; try discriminate;
    reflexivity.
Qed.


Lemma bucket_names_distinct :
  closedChannelBucket <> openChannelBucket /\
  closedChannelBucket <> nodeInfoBucket /\
  nodeInfoBucket <> openChannelBucket /\
  closedChannelBucket <> [] /\
  nodeInfoBucket <> closedChannelBucket.
Proof. repeat split; discriminate. Qed.



(** ** Abandoning a channel *)

Lemma Bucket_ForEach_const {St : Type}
    (fn : bytes -> option bytes -> St -> result St) (b : bucket) (st : St) :
  (forall k n, In (k, n) b -> fn k (node_value n) st = Ok st) ->
  Bucket_ForEach fn b st = Ok st.
Proof.
  induction b as [|[k n] b IH]; intros Hfn; simpl; [reflexivity|].
  rewrite (Hfn k n) by now left. simpl.
  apply IH. intros k' n' Hin. apply Hfn. now right.
Qed.

Lemma In_put_node_other (k k0 : bytes) (n n0 : node) (b : bucket) :
  In (k, n) (put_node k0 n0 b) -> k <> k0 -> In (k, n) b.
Proof.
  intros Hin Hne. induction b as [|[k' n'] b IH]; simpl in *.
  - destruct Hin as [Hin|[]]. inversion Hin. congruence.
  - destruct (bytes_compare k0 k') eqn:E.
    + destruct Hin as [Hin|Hin]; [inversion Hin; congruence|now right].
    + destruct Hin as [Hin|Hin]; [inversion Hin; congruence|exact Hin].
    + destruct Hin as [Hin|Hin]; [now left|right; now apply IH].
Qed.

Lemma In_remove_key (k k0 : bytes) (n : node) (b : bucket) :
  In (k, n) (remove_key k0 b) -> k <> k0 /\ In (k, n) b.
Proof.
  unfold remove_key. intros Hin. apply filter_In in Hin as [Hin Hk].
  simpl in Hk. split; [|exact Hin].
  apply negb_true_iff, bytes_eqb_neq in Hk. congruence.
Qed.

Lemma NoDup_find_key (k : bytes) (n : node) (b : bucket) :
  NoDup (map fst b) -> In (k, n) b -> find_key k b = Some n.
Proof.
  induction b as [|[k' n'] b IH]; simpl; intros Hnd Hin; [contradiction|].
  inversion Hnd as [|? ? Hnotin Hnd']; subst.
  destruct Hin as [Hin|Hin].
  - inversion Hin; subst. now rewrite bytes_eqb_refl.
  - destruct (bytes_eqb k k') eqn:E; [|now apply IH].
    apply bytes_eqb_eq in E; subst k'. exfalso. apply Hnotin.
    apply in_map_iff. now exists (k, n).
Qed.

Lemma count_key_above (k : bytes) (b : bucket) :
  Forall (fun k' => bytes_compare k k' = Lt) (map fst b) ->
  count_key k b = 0%nat.
Proof.
  unfold count_key. induction b as [|[k' n'] b IH]; simpl; intros Hall;
    [reflexivity|].
  inversion Hall as [|? ? Hlt Hall']; subst.
  unfold bytes_eqb at 1. rewrite Hlt. now apply IH.
Qed.

Lemma count_key_put_node (k : bytes) (n : node) (b : bucket) :
  keys_ascending b -> count_key k (put_node k n b) = 1%nat.
Proof.
  unfold keys_ascending.
  induction b as [|[k' n'] b IH]; simpl; intros Hs.
  - unfold count_key. simpl. now rewrite bytes_eqb_refl.
  - inversion Hs as [|? ? Hs' Hlt]; subst.
    destruct (bytes_compare k k') eqn:E.
    + apply bytes_compare_eq in E; subst k'.
      unfold count_key. simpl. rewrite bytes_eqb_refl. simpl.
      f_equal. now apply count_key_above.
    + unfold count_key. simpl. rewrite bytes_eqb_refl. simpl. f_equal.
      apply (count_key_above k ((k', n') :: b)). simpl.
      constructor; [exact E|].
      rewrite Forall_forall in *. intros k0 Hin.
      now apply (bytes_compare_lt_trans k k' k0), Hlt.
    + unfold count_key in *. simpl. unfold bytes_eqb at 1. rewrite E.
      now apply IH.
Qed.

Lemma pruneLinkNode_frame `{channel_go} (tx tx' : Tx) (remotePub : bytes) :
  pruneLinkNode tx remotePub = Ok tx' ->
  forall name, name <> nodeInfoBucket ->
               find_key name tx' = find_key name tx.
Proof.
  unfold pruneLinkNode, deleteLinkNode.
  destruct (fetchOpenChannels tx remotePub) as [chans| |]; try discriminate.
  destruct (0 <? length chans)%nat.
  - intros E name _. now inversion E.
  - destruct (Tx_Bucket tx nodeInfoBucket) as [nm|]; try discriminate.
    destruct (Bucket_Delete nm remotePub) as [nm'| |]; simpl;
      try discriminate.
    intros E name Hne. inversion E; subst tx'.
    apply find_key_store_other. congruence.
Qed.

Lemma putChannelCloseSummary_stored `{channel_go} (tx tx' : Tx)
    (chanID : bytes) (summary : ChannelCloseSummary) :
  putChannelCloseSummary tx chanID summary = Ok tx' ->
  exists closed summaryBytes,
    serializeChannelCloseSummary summary = inr summaryBytes /\
    (Tx_Bucket tx closedChannelBucket = Some closed \/
     Tx_Bucket tx closedChannelBucket = None /\ closed = []) /\
    Tx_Bucket tx' closedChannelBucket =
      Some (put_node chanID (Value summaryBytes) closed) /\
    forall name, name <> closedChannelBucket ->
                 find_key name tx' = find_key name tx.
Proof.
  unfold putChannelCloseSummary, Tx_CreateBucketIfNotExists,
    Bucket_CreateBucketIfNotExists, Tx_Bucket, Bucket_Bucket.
  destruct closedChannelBucket as [|x name] eqn:En; [discriminate|].
  rewrite <- En in *.
  assert (Hstore : forall (t : Tx) (closed : bucket) summaryBytes,
            (closed' <- Bucket_Put closed chanID summaryBytes ;;
             Ok (Bucket_store t closedChannelBucket closed')) = Ok tx' ->
            tx' = Bucket_store t closedChannelBucket
                    (put_node chanID (Value summaryBytes) closed)).
  { intros t closed sb. unfold Bucket_Put.
    destruct chanID as [|c chanID]; simpl; [discriminate|].
    destruct (find_key (c :: chanID) closed) as [[v|s]|]; simpl;
      try discriminate; intros E; now inversion E. }
  destruct (find_key closedChannelBucket tx) as [[v|closed]|] eqn:Ef;
    simpl; try discriminate;
    (destruct (serializeChannelCloseSummary summary) as [e|sb] eqn:Es;
     simpl; [discriminate|]); intros E; apply Hstore in E; subst tx'.
  - exists closed, sb. split; [reflexivity|]. split; [now left|].
    split.
    + unfold Bucket_store. now rewrite find_key_put_node_same.
    + intros name' Hne. apply find_key_store_other. congruence.
  - exists [], sb. split; [reflexivity|]. split; [now right|].
    split.
    + unfold Bucket_store. now rewrite find_key_put_node_same.
    + intros name' Hne. rewrite find_key_store_other by congruence.
      apply find_key_put_node_other. congruence.
Qed.

Section Abandon.
Context `{channel_go}.

Lemma chanScan_no_leaf (chanPoint : OutPoint) (d : DB)
    (openChanBucket : bucket) :
  Tx_Bucket d openChannelBucket = Some openChanBucket ->
  no_leaf (writeOutpoint chanPoint) openChanBucket ->
  FetchChannel chanPoint d = Err ErrChannelNotFound.
Proof.
  intros Hb Hno. unfold FetchChannel, DB_View, chanScan. rewrite Hb.
  rewrite Bucket_ForEach_const; [reflexivity|].
  intros nodePub n _. destruct (node_value n); [reflexivity|].
  destruct (negb (length nodePub =? 33)%nat); [reflexivity|].
  destruct (Bucket_Bucket openChanBucket nodePub) as [nodeChanBucket|] eqn:En;
    [|reflexivity].
  apply Bucket_ForEach_const. intros chainHash n' Hin.
  destruct (node_value n') eqn:Ev; [reflexivity|].
  destruct (Hno nodePub nodeChanBucket En chainHash n' Hin Ev)
    as (chainBucket & -> & ->).
  reflexivity.
Qed.

Lemma no_leaf_after_delete (K P CH : bytes) (O NB CB : bucket) :
  Bucket_Bucket O P = Some NB ->
  Bucket_Bucket NB CH = Some CB ->
  (forall nodePub NBx chainHash CBx,
     Bucket_Bucket O nodePub = Some NBx ->
     Bucket_Bucket NBx chainHash = Some CBx ->
     Bucket_Bucket CBx K <> None ->
     nodePub = P /\ chainHash = CH) ->
  (forall nodePub NBx,
     Bucket_Bucket O nodePub = Some NBx -> NoDup (map fst NBx)) ->
  let CB' := remove_key K CB in
  let NB' := if is_empty CB' then remove_key CH NB
             else Bucket_store NB CH CB' in
  let O' := if is_empty NB' then remove_key P O else Bucket_store O P NB' in
  no_leaf K O'.
Proof.
  intros HP HCH Huniq Hnd CB' NB' O'.
  assert (Hold : forall nodePub NBx chainHash n,
            Bucket_Bucket O nodePub = Some NBx ->
            In (chainHash, n) NBx -> node_value n = None ->
            (nodePub <> P \/ chainHash <> CH) ->
            exists chainBucket,
              Bucket_Bucket NBx chainHash = Some chainBucket /\
              Bucket_Bucket chainBucket K = None).
  { intros nodePub NBx chainHash n HNBx Hin Hv Hother.
    destruct n as [v|CBx]; [discriminate|].
    assert (Hf : find_key chainHash NBx = Some (Nested CBx))
      by (apply NoDup_find_key; [now apply (Hnd nodePub)|exact Hin]).
    exists CBx. unfold Bucket_Bucket at 1. rewrite Hf.
    split; [reflexivity|].
    destruct (Bucket_Bucket CBx K) eqn:EK; [|reflexivity].
    exfalso.
    assert (HB : Bucket_Bucket NBx chainHash = Some CBx)
      by (unfold Bucket_Bucket; now rewrite Hf).
    destruct (Huniq nodePub NBx chainHash CBx HNBx HB) as [-> ->];
      [congruence|]. destruct Hother; congruence. }
  intros nodePub NBx HNBx chainHash n Hin Hv.
  destruct (list_eq_dec Byte.byte_eq_dec nodePub P) as [->|HneP].
  - (* the peer of the closed channel *)
    assert (HO' : is_empty NB' = false /\ NBx = NB').
    { unfold O' in HNBx. unfold Bucket_Bucket in HNBx.
      destruct (is_empty NB').
      - now rewrite find_key_remove_key_same in HNBx.
      - unfold Bucket_store in HNBx.
        rewrite find_key_put_node_same in HNBx.
        split; [reflexivity|]. now inversion HNBx. }
    destruct HO' as [_ ->]. unfold NB' in *.
    destruct (is_empty CB') eqn:ECB.
    + apply In_remove_key in Hin as [Hne Hin].
      destruct (Hold P NB chainHash n HP Hin Hv) as (cb & Hcb & HK);
        [now right|].
      exists cb. split; [|exact HK]. unfold Bucket_Bucket in *.
      rewrite find_key_remove_key_other by congruence. exact Hcb.
    + destruct (list_eq_dec Byte.byte_eq_dec chainHash CH) as [->|HneC].
      * exists CB'. unfold Bucket_Bucket, Bucket_store.
        rewrite find_key_put_node_same. split; [reflexivity|].
        unfold CB'. now rewrite find_key_remove_key_same.
      * apply In_put_node_other in Hin; [|exact HneC].
        destruct (Hold P NB chainHash n HP Hin Hv) as (cb & Hcb & HK);
          [now right|].
        exists cb. split; [|exact HK]. unfold Bucket_Bucket, Bucket_store in *.
        rewrite find_key_put_node_other by congruence. exact Hcb.
  - (* any other peer *)
    assert (HNBx0 : Bucket_Bucket O nodePub = Some NBx).
    { unfold O', Bucket_Bucket, Bucket_store in *.
      destruct (is_empty NB').
      - rewrite find_key_remove_key_other in HNBx by congruence.
        exact HNBx.
      - rewrite find_key_put_node_other in HNBx by congruence.
        exact HNBx. }
    apply (Hold nodePub NBx chainHash n HNBx0 Hin Hv). now left.
Qed.

Lemma Bucket_DeleteBucket_found (b sub : bucket) (name : bytes) :
  Bucket_Bucket b name = Some sub ->
  Bucket_DeleteBucket b name = Ok (remove_key name b).
Proof.
  unfold Bucket_Bucket, Bucket_DeleteBucket.
  destruct (find_key name b) as [[v|s]|]; try discriminate. reflexivity.
Qed.

Lemma CloseChannel_tx_inv (c : OpenChannel) (summary : ChannelCloseSummary)
    (d d1 : Tx) (O : bucket) :
  CloseChannel_tx c summary d = Ok d1 ->
  Tx_Bucket d openChannelBucket = Some O ->
  exists NB CB,
    Bucket_Bucket O (IdentityPub c) = Some NB /\
    Bucket_Bucket NB (chan_ChainHash c) = Some CB /\
    let K := writeOutpoint (FundingOutpoint c) in
    let CB' := remove_key K CB in
    let NB' := if is_empty CB' then remove_key (chan_ChainHash c) NB
               else Bucket_store NB (chan_ChainHash c) CB' in
    let O' := if is_empty NB' then remove_key (IdentityPub c) O
              else Bucket_store O (IdentityPub c) NB' in
    exists tx3,
      putChannelCloseSummary (Bucket_store d openChannelBucket O') K summary
        = Ok tx3 /\
      pruneLinkNode tx3 (IdentityPub c) = Ok d1.
Proof.
  unfold CloseChannel_tx. intros Hclose Hb. rewrite Hb in Hclose.
  destruct (Bucket_Bucket O (IdentityPub c)) as [NB|] eqn:ENB;
    [|discriminate].
  destruct (Bucket_Bucket NB (chan_ChainHash c)) as [CB|] eqn:ECB;
    [|discriminate].
  exists NB, CB. split; [reflexivity|]. split; [exact ECB|].
  cbv zeta.
  set (K := writeOutpoint (FundingOutpoint c)) in *.
  set (CB' := remove_key K CB).
  set (NB' := if is_empty CB' then remove_key (chan_ChainHash c) NB
              else Bucket_store NB (chan_ChainHash c) CB').
  set (O' := if is_empty NB' then remove_key (IdentityPub c) O
             else Bucket_store O (IdentityPub c) NB').
  unfold Bucket_DeleteBucket at 1 in Hclose.
  destruct (find_key K CB) as [[v|leaf]|]; simpl in Hclose;
    try discriminate.
  fold CB' in Hclose.
  rewrite (Bucket_DeleteBucket_found NB CB _ ECB) in Hclose.
  assert (E1 : (if is_empty CB'
                then Ok (remove_key (chan_ChainHash c) NB)
                else Ok (Bucket_store NB (chan_ChainHash c) CB')) = Ok NB')
    by (unfold NB'; now destruct (is_empty CB')).
  rewrite E1 in Hclose. simpl in Hclose.
  rewrite (Bucket_DeleteBucket_found O NB _ ENB) in Hclose.
  assert (E2 : (if is_empty NB'
                then Ok (remove_key (IdentityPub c) O)
                else Ok (Bucket_store O (IdentityPub c) NB')) = Ok O')
    by (unfold O'; now destruct (is_empty NB')).
  rewrite E2 in Hclose. simpl in Hclose.
  destruct (putChannelCloseSummary (Bucket_store d openChannelBucket O')
              K summary) as [tx3| |]; simpl in Hclose; try discriminate.
  exists tx3. split; [reflexivity|exact Hclose].
Qed.

End Abandon.


(** C7.  [AbandonChannel] returns nil and changes nothing when
    [FetchChannel] does not find the channel (as when no bucket of the
    open tree holds a leaf for the outpoint) and the closed-channel
    bucket has a summary for it; it returns the lookup error when the
    summary is missing too, and any other error of [FetchChannel].  When
    the channel is found it closes it with a summary of type Abandoned,
    pending false, close height [bestHeight].  If that call succeeds, for
    a channel stored under its own outpoint at one place of the open
    tree only, the channel is no longer found in the open tree, the
    closed-channel bucket holds that summary under the outpoint, once,
    and a second call with the same arguments returns nil and changes
    nothing. *)
Theorem AbandonChannel_idempotent `{channel_go}
    (chanPoint : OutPoint) (bestHeight : N) (d : DB) :
  (forall summary,
     FetchChannel chanPoint d = Err ErrChannelNotFound ->
     FetchClosedChannel chanPoint d = Ok summary ->
     AbandonChannel chanPoint bestHeight d = (d, Ok tt)) /\
  (forall e,
     FetchChannel chanPoint d = Err ErrChannelNotFound ->
     FetchClosedChannel chanPoint d = Err e ->
     AbandonChannel chanPoint bestHeight d = (d, Err e)) /\
  (forall e,
     FetchChannel chanPoint d = Err e -> e <> ErrChannelNotFound ->
     AbandonChannel chanPoint bestHeight d = (d, Err e)) /\
  (forall dbChan,
     FetchChannel chanPoint d = Ok dbChan ->
     let summary := abandonedSummary chanPoint bestHeight dbChan in
     CloseType summary = Abandoned /\
     IsPending summary = false /\
     CloseHeight summary = bestHeight /\
     AbandonChannel chanPoint bestHeight d = CloseChannel dbChan summary d /\
     forall d1 openChanBucket,
       AbandonChannel chanPoint bestHeight d = (d1, Ok tt) ->
       FundingOutpoint dbChan = chanPoint ->
       Tx_Bucket d openChannelBucket = Some openChanBucket ->
       (forall nodePub nodeChanBucket chainHash chainBucket,
          Bucket_Bucket openChanBucket nodePub = Some nodeChanBucket ->
          Bucket_Bucket nodeChanBucket chainHash = Some chainBucket ->
          Bucket_Bucket chainBucket (writeOutpoint chanPoint) <> None ->
          nodePub = IdentityPub dbChan /\
          chainHash = chan_ChainHash dbChan) ->
       (forall nodePub nodeChanBucket,
          Bucket_Bucket openChanBucket nodePub = Some nodeChanBucket ->
          NoDup (map fst nodeChanBucket)) ->
       (forall closed,
          Tx_Bucket d closedChannelBucket = Some closed ->
          keys_ascending closed) ->
       (forall b, serializeChannelCloseSummary summary = inr b ->
                  deserializeCloseChannelSummary b = inr summary) ->
       FetchChannel chanPoint d1 = Err ErrChannelNotFound /\
       FetchClosedChannel chanPoint d1 = Ok summary /\
       (exists closed1,
          Tx_Bucket d1 closedChannelBucket = Some closed1 /\
          count_key (writeOutpoint chanPoint) closed1 = 1%nat) /\
       AbandonChannel chanPoint bestHeight d1 = (d1, Ok tt)) /\
  (forall openChanBucket,
     Tx_Bucket d openChannelBucket = Some openChanBucket ->
     no_leaf (writeOutpoint chanPoint) openChanBucket ->
     FetchChannel chanPoint d = Err ErrChannelNotFound /\
     (forall closeBucket summaryBytes summary,
        Tx_Bucket d closedChannelBucket = Some closeBucket ->
        Bucket_Get closeBucket (writeOutpoint chanPoint) =
          Some summaryBytes ->
        deserializeCloseChannelSummary summaryBytes = inr summary ->
        AbandonChannel chanPoint bestHeight d = (d, Ok tt)) /\
     (forall closeBucket,
        Tx_Bucket d closedChannelBucket = Some closeBucket ->
        Bucket_Get closeBucket (writeOutpoint chanPoint) = None ->
        AbandonChannel chanPoint bestHeight d =
          (d, Err ErrClosedChannelNotFound))).
Proof.
  split; [|split; [|split; [|split]]].
  5: { intros O HO Hno.
       pose proof (chanScan_no_leaf chanPoint d O HO Hno) as Hnot.
       split; [exact Hnot|]. unfold AbandonChannel. rewrite Hnot.
       unfold FetchClosedChannel, DB_View. split.
       - intros cb v summary Hcb Hget Hde. now rewrite Hcb, Hget, Hde.
       - intros cb Hcb Hget. now rewrite Hcb, Hget. }
  - intros summary Hopen Hclosed. unfold AbandonChannel.
    now rewrite Hopen, Hclosed.
  - intros e Hopen Hclosed. unfold AbandonChannel.
    now rewrite Hopen, Hclosed.
  - intros e Hopen Hne. unfold AbandonChannel. rewrite Hopen.
    destruct e; try reflexivity. congruence.
  - intros dbChan Hfound summary.
    assert (Habandon : AbandonChannel chanPoint bestHeight d =
                       CloseChannel dbChan summary d)
      by (unfold AbandonChannel; now rewrite Hfound).
    do 3 (split; [reflexivity|]). split; [exact Habandon|].
    intros d1 O Hfirst Hop HO Huniq Hnd Hasc Hround.
    rewrite Habandon in Hfirst. unfold CloseChannel, DB_Update in Hfirst.
    destruct (CloseChannel_tx dbChan summary d) as [d1'| |] eqn:Hclose;
      inversion Hfirst; subst d1'; clear Hfirst.
    destruct (CloseChannel_tx_inv dbChan summary d d1 O Hclose HO)
      as (NB & CB & HNB & HCB & Hrest).
    rewrite Hop in Hrest. cbv zeta in Hrest.
    set (K := writeOutpoint chanPoint) in *.
    set (CB' := remove_key K CB) in *.
    set (NB' := if is_empty CB' then remove_key (chan_ChainHash dbChan) NB
                else Bucket_store NB (chan_ChainHash dbChan) CB') in *.
    set (O' := if is_empty NB' then remove_key (IdentityPub dbChan) O
               else Bucket_store O (IdentityPub dbChan) NB') in *.
    destruct Hrest as (tx3 & Hput & Hprune).
    destruct bucket_names_distinct as (Hco & Hcn & Hno & Hc & Hnc).
    destruct (putChannelCloseSummary_stored _ _ _ _ Hput)
      as (closed & sb & Hser & Hclosed & Hclosed3 & Hframe3).
    pose proof (pruneLinkNode_frame tx3 d1 _ Hprune) as Hframe1.
    assert (Hopen1 : Tx_Bucket d1 openChannelBucket = Some O').
    { unfold Tx_Bucket, Bucket_Bucket.
      rewrite Hframe1 by congruence. rewrite Hframe3 by congruence.
      unfold Bucket_store. now rewrite find_key_put_node_same. }
    assert (Hclosed1 : Tx_Bucket d1 closedChannelBucket =
                       Some (put_node K (Value sb) closed)).
    { unfold Tx_Bucket, Bucket_Bucket in *.
      rewrite Hframe1 by congruence. exact Hclosed3. }
    assert (Hnot : FetchChannel chanPoint d1 = Err ErrChannelNotFound).
    { apply (chanScan_no_leaf chanPoint d1 O' Hopen1).
      now apply (no_leaf_after_delete K (IdentityPub dbChan)
                   (chan_ChainHash dbChan) O NB CB). }
    assert (Hsum : FetchClosedChannel chanPoint d1 = Ok summary).
    { unfold FetchClosedChannel, DB_View. rewrite Hclosed1.
      fold K. unfold Bucket_Get. rewrite find_key_put_node_same.
      now rewrite (Hround sb Hser). }
    split; [exact Hnot|]. split; [exact Hsum|]. split.
    + exists (put_node K (Value sb) closed). split; [exact Hclosed1|].
      apply count_key_put_node.
      destruct Hclosed as [Hc0|[_ ->]]; [|constructor].
      apply Hasc. unfold Tx_Bucket, Bucket_Bucket in *.
      rewrite find_key_store_other in Hc0 by congruence. exact Hc0.
    + unfold AbandonChannel. now rewrite Hnot, Hsum.
Qed.

Lemma AbandonChannel_idempotent_witness :
  let d1 := fst (AbandonChannel op_open 100 db_peer_with_open_channel) in
  AbandonChannel op_open 100 db_peer_with_open_channel = (d1, Ok tt) /\
  AbandonChannel op_open 100 d1 = (d1, Ok tt) /\
  (exists summary,
     FetchClosedChannel op_open d1 = Ok summary /\
     CloseType summary = Abandoned /\ IsPending summary = false /\
     CloseHeight summary = 100).
Proof.
  intros d1.
  pose proof (AbandonChannel_idempotent op_open 100
                db_peer_with_open_channel) as (_ & _ & _ & H & _).
  destruct (FetchChannel op_open db_peer_with_open_channel)
    as [dbChan| |] eqn:Hfound; try discriminate.
  destruct (H dbChan eq_refl) as (Ht & Hp & Hh & _ & Htwice).
  assert (HdbChan : IdentityPub dbChan = sample_pub x33 /\
                    chan_ChainHash dbChan = sample_chain /\
                    FundingOutpoint dbChan = op_open)
    by (inversion Hfound; repeat split; reflexivity).
  destruct HdbChan as (Hid & Hch & Hop).
  assert (Hkey : forall (k k' : bytes) (n : node) (s : bucket),
            Bucket_Bucket [(k', n)] k = Some s -> k = k' /\ n = Nested s).
  { intros k k' n s. unfold Bucket_Bucket. simpl.
    destruct (bytes_eqb k k') eqn:E; [|discriminate].
    apply bytes_eqb_eq in E. destruct n; [discriminate|].
    intros Hs. inversion Hs. now subst. }
  destruct (Htwice d1 _ eq_refl Hop eq_refl) as (_ & Hsum & _ & Hsecond).
  - intros nodePub nodeChanBucket chainHash chainBucket Hn Hc _.
    apply Hkey in Hn as [-> Hn]. inversion Hn; subst nodeChanBucket.
    apply Hkey in Hc as [-> _]. now rewrite Hid, Hch.
  - intros nodePub nodeChanBucket Hn.
    apply Hkey in Hn as [_ Hn]. inversion Hn; subst nodeChanBucket.
    repeat constructor. intros [].
  - intros closed Hc. inversion Hc; subst closed. repeat constructor.
  - intros b Hb. inversion Hfound; subst dbChan.
    inversion Hb; subst b. reflexivity.
  - split; [reflexivity|]. split; [exact Hsecond|].
    eexists. split; [exact Hsum|]. now rewrite Ht, Hp, Hh.
Defined.

(** ** Restoring channel shells *)

Lemma copy33_id (s : bytes) : length s = 33%nat -> copy33 s = s.
Proof.
  intros Hlen. unfold copy33. rewrite firstn_all2 by lia.
  rewrite Hlen. simpl. apply app_nil_r.
Qed.

Section Restore.
Context `{channel_go} `{graph_go}.

Lemma restoreShell_inv (i : nat) (channelShell : ChannelShell)
    (tx tx' : Tx) (chanid : N)
    (records : ChannelEdgeInfo * ChannelEdgePolicy) :
  restoreShell i channelShell tx = Ok (tx', chanid, records) ->
  exists tx1 nodes selfNode tx2,
    syncNewChannel tx (mark_restored (Chan channelShell))
      (NodeAddrs channelShell) = inr tx1 /\
    Tx_Bucket tx1 nodeBucket = Some nodes /\
    sourceNode nodes = inr selfNode /\
    (addChannelEdge tx1 (fst records) = inr tx2 \/
     addChannelEdge tx1 (fst records) = inl ErrEdgeAlreadyExist /\
     tx2 = tx1) /\
    updateEdgePolicy tx2 (snd records) = inr tx' /\
    chanid = ShortChannelID (Chan channelShell) /\
    (ChannelID (fst records) = ShortChannelID (Chan channelShell) /\
     policy_ChannelID (snd records) = ShortChannelID (Chan channelShell) /\
     edge_ChainHash (fst records) = chan_ChainHash (Chan channelShell) /\
     ChannelPoint (fst records) = FundingOutpoint (Chan channelShell) /\
     edge_Capacity (fst records) = chan_Capacity (Chan channelShell)) /\
    (length (PubKeyBytes selfNode) = 33%nat ->
     length (IdentityPub (Chan channelShell)) = 33%nat ->
     canonical_records (PubKeyBytes selfNode) channelShell records).
Proof.
  unfold restoreShell.
  destruct (syncNewChannel tx (mark_restored (Chan channelShell))
              (NodeAddrs channelShell)) as [e|tx1] eqn:Hsync; simpl;
    [discriminate|].
  destruct (Tx_Bucket tx1 nodeBucket) as [nodes|] eqn:Hnodes;
    [|discriminate].
  destruct (sourceNode nodes) as [e|selfNode] eqn:Hself; simpl;
    [discriminate|].
  set (self := PubKeyBytes selfNode) in *.
  set (peer := IdentityPub (Chan channelShell)) in *.
  match goal with
  | |- (tx0 <- ?add ;; _) = _ -> _ => destruct add as [tx2| |] eqn:Hadd
  end; simpl; try discriminate.
  match type of Hadd with
  | match ?edge with _ => _ end = _ =>
      assert (Hadd' : edge = inr tx2 \/
                      edge = inl ErrEdgeAlreadyExist /\ tx2 = tx1)
        by (destruct edge as [[]|t]; inversion Hadd; auto)
  end.
  clear Hadd.
  match goal with
  | |- (tx0 <- call ?upd ;; _) = _ -> _ =>
      destruct upd as [e|tx3] eqn:Hupd
  end; simpl; try discriminate.
  intros E. inversion E; subst tx' chanid records; clear E.
  exists tx1, nodes, selfNode, tx2. cbn [fst snd].
  split; [first [exact Hsync|reflexivity]|].
  split; [exact Hnodes|]. split; [exact Hself|].
  split; [exact Hadd'|]. split; [exact Hupd|]. split; [reflexivity|].
  split; [repeat split|]. clear Hadd' Hupd.
  intros Hlen Hpeer.
  unfold canonical_records, bytes_min, bytes_max. fold peer. cbn.
  fold self peer.
  rewrite !(copy33_id self Hlen), !(copy33_id peer Hpeer).
  pose proof (bytes_compare_antisym self peer) as Hanti.
  destruct (bytes_compare self peer) eqn:Ecmp; cbn; cbn in Hanti.
  - apply bytes_compare_eq in Ecmp.
    rewrite <- Ecmp, bytes_compare_refl.
    split; [reflexivity|]. split; [reflexivity|].
    split; [discriminate|]. split; [now right|].
    split; [split; [discriminate|reflexivity]|].
    split; [congruence|]. intros _. split; reflexivity.
  - assert (Hne : self <> peer)
      by (intros Heq; rewrite Heq, bytes_compare_refl in Ecmp;
          discriminate).
    rewrite Ecmp.
    split; [reflexivity|]. split; [reflexivity|].
    split; [discriminate|]. split; [now left|].
    split; [split; [discriminate|congruence]|].
    split; [|congruence]. intros _. split; [reflexivity|].
    split; split; try discriminate; congruence.
  - assert (Hne : self <> peer)
      by (intros Heq; rewrite Heq, bytes_compare_refl in Ecmp;
          discriminate).
    rewrite Hanti.
    split; [reflexivity|]. split; [reflexivity|].
    split; [discriminate|]. split; [now right|].
    split; [split; [discriminate|reflexivity]|].
    split; [|congruence]. intros _. split; [reflexivity|].
    split; split; reflexivity.
Qed.

Lemma restoreShells_calls (channelShells : list ChannelShell) :
  forall i tx chansRestored written tx' chansRestored' written',
    restoreShells i channelShells tx chansRestored written =
      Ok (tx', chansRestored', written') ->
    chansRestored' =
      chansRestored ++
      map (fun sh => ShortChannelID (Chan sh)) channelShells /\
    exists calls,
      written' = written ++ map snd calls /\
      graph_calls channelShells tx calls tx' /\
      Forall2
        (fun sh call =>
           (exists nodes, sourceNode nodes = inr (fst call)) /\
           (ChannelID (fst (snd call)) = ShortChannelID (Chan sh) /\
            policy_ChannelID (snd (snd call)) = ShortChannelID (Chan sh) /\
            edge_ChainHash (fst (snd call)) = chan_ChainHash (Chan sh) /\
            ChannelPoint (fst (snd call)) = FundingOutpoint (Chan sh) /\
            edge_Capacity (fst (snd call)) = chan_Capacity (Chan sh)) /\
           (length (PubKeyBytes (fst call)) = 33%nat ->
            length (IdentityPub (Chan sh)) = 33%nat ->
            canonical_records (PubKeyBytes (fst call)) sh (snd call)))
        channelShells calls.
Proof.
  induction channelShells as [|sh shells IH];
    intros i tx cr wr tx' cr' wr'; simpl.
  - intros E. inversion E; subst. rewrite app_nil_r.
    split; [reflexivity|]. exists []. simpl. rewrite app_nil_r.
    split; [reflexivity|]. split; [reflexivity|constructor].
  - destruct (restoreShell i sh tx) as [[[tx3 chanid] records]| |] eqn:Hone;
      simpl; try discriminate.
    apply restoreShell_inv in Hone
      as (tx1 & nodes & selfNode & tx2 & Hsync & Hnodes & Hself & Hadd
          & Hupd & -> & Hfields & Hcanon).
    intros Hrest.
    apply IH in Hrest as (-> & calls & -> & Hcalls & Hall).
    rewrite <- !app_assoc. split; [reflexivity|].
    exists ((selfNode, records) :: calls). simpl.
    split; [reflexivity|]. split.
    + destruct records as [edgeInfo chanEdge].
      exists tx1, nodes, tx2, tx3. repeat split; assumption.
    + constructor; [|exact Hall]. simpl.
      split; [now exists nodes|]. split; assumption.
Qed.

End Restore.

(** C8. A call of [RestoreChannelShells] that commits has taken the
    database to the one it leaves by these calls, for each shell in
    turn: [syncNewChannel], [addChannelEdge] on an edge info,
    [updateEdgePolicy] on a policy, with the local key read from the
    node bucket in between.  For every shell the edge info handed to
    [addChannelEdge] has as node 1 the bytewise smaller and as node 2
    the larger of the local node's key and the peer's key, and the
    policy handed to [updateEdgePolicy] has the direction bit set
    exactly when the local key is not below the peer's: for distinct
    keys node 1 is strictly below node 2 and the bit is set exactly when
    node 2 is the local node, the larger key; for equal keys both nodes
    are that key and the bit is set.  A call that fails writes
    nothing. *)
Theorem RestoreChannelShells_canonical_edges `{channel_go} `{graph_go}
    (channelShells : list ChannelShell) (d : DB) :
  (forall nodes selfNode,
     sourceNode nodes = inr selfNode ->
     length (PubKeyBytes selfNode) = 33%nat) ->
  Forall (fun sh => length (IdentityPub (Chan sh)) = 33%nat)
    channelShells ->
  let r := RestoreChannelShells channelShells d in
  (restored_ret r = Ok tt ->
   exists calls,
     graph_calls channelShells d calls (restored_db r) /\
     map snd calls = restored_records r /\
     Forall2
       (fun sh call =>
          canonical_records (PubKeyBytes (fst call)) sh (snd call))
       channelShells calls) /\
  (restored_ret r <> Ok tt ->
   restored_db r = d /\ restored_records r = [] /\ restored_ids r = []).
Proof.
  intros Hsrc Hall r. unfold r, RestoreChannelShells.
  destruct (restoreShells 0 channelShells d [] [])
    as [[[tx ids] written]| |] eqn:Hrun; simpl.
  - split; [|congruence]. intros _.
    destruct (restoreShells_calls channelShells
                0%nat d [] [] tx ids written Hrun)
      as (_ & calls & -> & Hcalls & Hfacts).
    exists calls. split; [exact Hcalls|]. split; [reflexivity|].
    clear Hrun Hcalls. revert Hall.
    induction Hfacts as [|sh call shells calls Hone _ IH]; intros Hall;
      [constructor|].
    inversion Hall as [|? ? Hsh Hshells]; subst.
    constructor; [|now apply IH].
    destruct Hone as ((nodes & Hself) & _ & Hcanon).
    apply Hcanon; [exact (Hsrc nodes (fst call) Hself)|exact Hsh].
  - split; [discriminate|]. intros _. repeat split.
  - split; [discriminate|]. intros _. repeat split.
Qed.

Lemma RestoreChannelShells_canonical_edges_witness :
  let self := sample_pub x00 in
  let peer := sample_pub xff in
  let r := RestoreChannelShells [sample_shell peer] (db_graph self) in
  restored_ret r = Ok tt /\
  exists calls,
    graph_calls [sample_shell peer] (db_graph self) calls (restored_db r) /\
    map snd calls = restored_records r /\
    Forall2
      (fun sh call =>
         canonical_records (PubKeyBytes (fst call)) sh (snd call))
      [sample_shell peer] calls.
Proof.
  intros self peer r. split; [reflexivity|].
  apply (RestoreChannelShells_canonical_edges
           [sample_shell peer] (db_graph self)).
  - intros nodes selfNode. cbn. unfold sample_sourceNode.
    destruct (Bucket_Get nodes _) as [pub|]; [|discriminate].
    destruct (length pub =? 33)%nat eqn:E; [|discriminate].
    intros Hs. inversion Hs. cbn. now apply Nat.eqb_eq.
  - repeat constructor.
  - reflexivity.
Defined.

(** C8 as stated fails for a shell whose peer key is the local key: the
    local key is not the larger one, yet the edge written has the same
    key as node 1 and as node 2, and the policy is written with the
    direction bit 1. *)
Lemma RestoreChannelShells_equal_keys :
  let self := sample_pub x00 in
  let r := RestoreChannelShells [sample_shell self] (db_graph self) in
  restored_ret r = Ok tt /\
  bytes_compare self (IdentityPub (Chan (sample_shell self))) = Eq /\
  (exists edgeInfo chanEdge,
     restored_records r = [(edgeInfo, chanEdge)] /\
     NodeKey1Bytes edgeInfo = self /\
     NodeKey2Bytes edgeInfo = self /\
     bytes_compare (NodeKey1Bytes edgeInfo) (NodeKey2Bytes edgeInfo) <> Lt /\
     ChannelFlags chanEdge = 1) /\
  (exists edges,
     Tx_Bucket (restored_db r) edgeBucket = Some edges /\
     Bucket_Get edges (be32 1) = Some (self ++ self) /\
     Bucket_Get edges (be32 1 ++ [x01]) = Some (be32 1000) /\
     Bucket_Get edges (be32 1 ++ [x00]) = None).
Proof.
  intros self r. split; [reflexivity|]. split; [reflexivity|]. split.
  - do 2 eexists. split; [reflexivity|]. split; [reflexivity|].
    split; [reflexivity|]. split; [discriminate|reflexivity].
  - eexists. split; [reflexivity|]. repeat split.
Qed.

Lemma FetchAllChannels_partition_witness :
  exists openChannels pendingChannels waitingClose,
    FetchAllOpenChannels db_peer_with_open_channel = Ok openChannels /\
    FetchPendingChannels db_peer_with_open_channel = Ok pendingChannels /\
    FetchWaitingCloseChannels db_peer_with_open_channel = Ok waitingClose /\
    FetchAllChannels db_peer_with_open_channel =
      Ok (openChannels ++ pendingChannels ++ waitingClose) /\
    length openChannels = 1%nat /\
    (forall c, In c openChannels -> ~ In c pendingChannels) /\
    (forall c, In c openChannels -> ~ In c waitingClose) /\
    (forall c, In c pendingChannels -> ~ In c waitingClose).
Proof.
  destruct (FetchAllChannels db_peer_with_open_channel) as [all| |] eqn:Hall;
    try discriminate.
  destruct (proj1 (FetchAllChannels_partition db_peer_with_open_channel)
              all Hall)
    as (o & p & w & stored & Ho & Hp & Hw & Heq & _ & _ & _ & Hop & How
        & Hpw & _).
  exists o, p, w. rewrite <- Heq.
  repeat (split; [assumption || reflexivity|]).
  split; [|repeat split; assumption].
  inversion Ho. reflexivity.
Defined.

(* ================================================================== *)
(** * Further properties *)

(** ** Closed channels, listed *)

Section ClosedList.
Context `{channel_go}.

Lemma FetchClosedChannels_entries (pendingOnly : bool) (b : bucket) :
  forall acc out,
    Bucket_ForEach
      (fun (chanID : bytes) summaryBytes chanSummaries =>
         chanSummary <-
           call (deserializeCloseChannelSummary (reader summaryBytes)) ;;
         if negb (IsPending chanSummary) && pendingOnly
         then Ok chanSummaries
         else Ok (chanSummaries ++ [chanSummary])) b acc = Ok out ->
    exists decoded,
      Forall2 (fun e s =>
                 deserializeCloseChannelSummary (reader (node_value (snd e)))
                 = inr s) b decoded /\
      out = acc ++ filter (fun s => IsPending s || negb pendingOnly) decoded.
Proof.
  induction b as [|[k n] b IH]; intros acc out; simpl.
  - intros E. inversion E. exists []. split; [constructor|].
    now rewrite app_nil_r.
  - destruct (deserializeCloseChannelSummary (reader (node_value n)))
      as [e|s] eqn:Hd; simpl; [discriminate|].
    destruct (IsPending s) eqn:Hp, pendingOnly; simpl; intros Hrest;
      apply IH in Hrest as (decoded & Hdec & ->);
      exists (s :: decoded); (split; [now constructor|]); simpl;
      rewrite Hp; simpl; now rewrite <- ?app_assoc.
Qed.

Lemma Forall2_In_left {A B : Type} (R : A -> B -> Prop) (l : list A)
    (l' : list B) (a : A) :
  Forall2 R l l' -> In a l -> exists b, R a b /\ In b l'.
Proof.
  induction 1 as [|x y l l' Hxy _ IH]; intros Hin; [contradiction|].
  destruct Hin as [->|Hin].
  - exists y. split; [exact Hxy|now left].
  - destruct (IH Hin) as (b & Hb & Hin'). exists b. split; [exact Hb|].
    now right.
Qed.

Lemma Forall2_In_right {A B : Type} (R : A -> B -> Prop) (l : list A)
    (l' : list B) (b : B) :
  Forall2 R l l' -> In b l' -> exists a, R a b /\ In a l.
Proof.
  induction 1 as [|x y l l' Hxy _ IH]; intros Hin; [contradiction|].
  destruct Hin as [->|Hin].
  - exists x. split; [exact Hxy|now left].
  - destruct (IH Hin) as (a & Ha & Hin'). exists a. split; [exact Ha|].
    now right.
Qed.

(** X1. [FetchClosedChannels(true)] is [FetchClosedChannels(false)] with
    the summaries that are not pending left out; both fail alike, at the
    first entry that does not decode, and with [ErrNoClosedChannels] when
    the bucket is missing. *)
Theorem FetchClosedChannels_pendingOnly (d : DB) :
  FetchClosedChannels true d =
    (chanSummaries <- FetchClosedChannels false d ;;
     Ok (filter IsPending chanSummaries)) /\
  (Tx_Bucket d closedChannelBucket = None ->
   forall pendingOnly,
     FetchClosedChannels pendingOnly d = Err ErrNoClosedChannels).
Proof.
  unfold FetchClosedChannels, DB_View. split.
  - destruct (Tx_Bucket d closedChannelBucket) as [closeBucket|];
      [|reflexivity].
    change (@nil ChannelCloseSummary) with (filter IsPending []) at 2.
    apply Bucket_ForEach_sim. intros k n acc _.
    destruct (deserializeCloseChannelSummary (reader (node_value n)))
      as [e|s]; simpl; [reflexivity|].
    rewrite andb_false_r, andb_true_r. simpl. rewrite filter_app. simpl.
    destruct (IsPending s); simpl; [reflexivity|now rewrite app_nil_r].
  - intros ->. reflexivity.
Qed.

(** X2. When [FetchClosedChannels(false)] returns, it returns one summary
    per entry of the closed-channel bucket, each decoded from an entry,
    and the summary [FetchClosedChannel] returns for a stored outpoint is
    among them. *)
Theorem FetchClosedChannels_complete (d : DB) (closeBucket : bucket)
    (chanSummaries : list ChannelCloseSummary) :
  Tx_Bucket d closedChannelBucket = Some closeBucket ->
  FetchClosedChannels false d = Ok chanSummaries ->
  length chanSummaries = length closeBucket /\
  (forall chanID summaryBytes,
     Bucket_Get closeBucket (writeOutpoint chanID) = Some summaryBytes ->
     exists summary,
       FetchClosedChannel chanID d = Ok summary /\
       In summary chanSummaries) /\
  (forall summary,
     In summary chanSummaries ->
     exists k n,
       In (k, n) closeBucket /\
       deserializeCloseChannelSummary (reader (node_value n)) =
         inr summary).
Proof.
  intros Hb. unfold FetchClosedChannels, FetchClosedChannel, DB_View.
  rewrite Hb. intros Hall.
  apply FetchClosedChannels_entries in Hall as (decoded & Hdec & ->).
  simpl. rewrite forallb_filter_id
    by (apply forallb_forall; intros s _; apply orb_true_r).
  split; [symmetry; now apply (Forall2_length Hdec)|]. split.
  - intros chanID v Hget. rewrite Hget. unfold Bucket_Get in Hget.
    destruct (find_key (writeOutpoint chanID) closeBucket) as [[w|sub]|]
      eqn:Hf; try discriminate. inversion Hget; subst w.
    apply find_key_In in Hf.
    destruct (Forall2_In_left _ _ _ _ Hdec Hf) as (s & Hs & Hin).
    simpl in Hs. exists s. rewrite Hs. split; [reflexivity|exact Hin].
  - intros s Hin.
    destruct (Forall2_In_right _ _ _ _ Hdec Hin) as ([k n] & Hs & Hin').
    exists k, n. split; [exact Hin'|exact Hs].
Qed.

End ClosedList.

Lemma FetchClosedChannels_pendingOnly_witness :
  FetchClosedChannels true db_colliding_closed =
    Ok [sample_summary op_high BreachClose 200 true] /\
  FetchClosedChannels true [] = Err ErrNoClosedChannels.
Proof.
  split.
  - rewrite (proj1 (FetchClosedChannels_pendingOnly db_colliding_closed)).
    reflexivity.
  - apply (proj2 (FetchClosedChannels_pendingOnly [])). reflexivity.
Defined.

Lemma FetchClosedChannels_complete_witness :
  exists chanSummaries summary,
    FetchClosedChannels false db_colliding_closed = Ok chanSummaries /\
    length chanSummaries = 2%nat /\
    FetchClosedChannel op_high db_colliding_closed = Ok summary /\
    In summary chanSummaries.
Proof.
  assert (Hall : exists l,
            FetchClosedChannels false db_colliding_closed = Ok l)
    by (eexists; vm_compute; reflexivity).
  destruct Hall as [l Hall].
  destruct (FetchClosedChannels_complete db_colliding_closed _ l
              eq_refl Hall) as (Hlen & Hget & _).
  destruct (Hget op_high _ eq_refl) as (summary & Hs & Hin).
  exists l, summary. split; [exact Hall|].
  split; [exact Hlen|]. split; [exact Hs|exact Hin].
Defined.

(** ** Schema versions *)

Lemma fetchMeta_no_panic (tx : Tx) : fetchMeta tx <> Panic.
Proof.
  unfold fetchMeta. destruct (Tx_Bucket tx metaBucket); [|discriminate].
  destruct (Bucket_Get _ dbVersionKey) as [[|b0 [|b1 [|b2 [|b3 r]]]]|];
    discriminate.
Qed.

Lemma putMeta_no_panic (meta : Meta) (tx : Tx) : putMeta meta tx <> Panic.
Proof.
  unfold putMeta, Tx_CreateBucketIfNotExists, Bucket_CreateBucketIfNotExists.
  destruct metaBucket as [|x name] eqn:En; [discriminate|].
  rewrite <- En.
  assert (Hput : forall mb t, (mb' <- Bucket_Put mb dbVersionKey
                                 (be32 (DbVersionNumber meta)) ;;
                               Ok (Bucket_store t metaBucket mb')) <> Panic).
  { intros mb t. unfold Bucket_Put.
    destruct dbVersionKey; [discriminate|].
    destruct (find_key _ mb) as [[v|s]|]; discriminate. }
  destruct (find_key metaBucket tx) as [[v|s]|]; simpl;
    try discriminate; apply Hput.
Qed.

Lemma getLatestDBVersion_nonempty (versions : list version) :
  versions <> [] -> exists latest, getLatestDBVersion versions = Ok latest.
Proof.
  intros Hne. unfold getLatestDBVersion.
  destruct (nth_error versions (length versions - 1)) as [v|] eqn:E.
  - now exists (number v).
  - apply nth_error_None in E. destruct versions; [congruence|].
    simpl in E. lia.
Qed.

Lemma syncVersions_success_version (versions : list version) (d : DB)
    (latest : N) :
  getLatestDBVersion versions = Ok latest ->
  latest < 4294967296 ->
  synced_ret (syncVersions versions d) = Ok tt ->
  FetchMeta (synced_db (syncVersions versions d)) =
    Ok {| DbVersionNumber := latest |} \/
  (latest = 0 /\ FetchMeta d = Err ErrMetaNotFound /\
   synced_db (syncVersions versions d) = d).
Proof.
  intros Hlatest H32.
  assert (Hmig : forall k,
            match FetchMeta d with
            | Ok meta => DbVersionNumber meta = k
            | Err ErrMetaNotFound => k = 0
            | _ => False
            end ->
            k < latest ->
            synced_ret (syncVersions versions d) = Ok tt ->
            FetchMeta (synced_db (syncVersions versions d)) =
              Ok {| DbVersionNumber := latest |}).
  { intros k Hk Hlt Hret.
    destruct (syncVersions_migrating versions d k latest Hk Hlatest Hlt)
      as [Hrun _].
    unfold DB_Update in Hrun. rewrite Hret in Hrun.
    destruct (run_all (runnable (above k versions)) d) as [tx0| |];
      simpl in Hrun; try (inversion Hrun; discriminate).
    destruct (putMeta {| DbVersionNumber := latest |} tx0) as [tx1| |] eqn:E;
      inversion Hrun as [Hdb].
    rewrite Hdb. unfold FetchMeta, DB_View.
    now apply (fetchMeta_putMeta {| DbVersionNumber := latest |} tx0 tx1). }
  destruct (FetchMeta d) as [[k]|e|] eqn:Hmeta.
  - destruct (N.lt_trichotomy k latest) as [Hlt|[Heq|Hgt]].
    + intros Hret. left. now apply (Hmig k).
    + intros _. left. unfold syncVersions. rewrite Hmeta, Hlatest. simpl.
      destruct (N.ltb_spec latest k); [lia|].
      destruct (N.eqb_spec k latest); [|congruence]. simpl. now subst.
    + unfold syncVersions. rewrite Hmeta, Hlatest. simpl.
      destruct (N.ltb_spec latest k); [discriminate|lia].
  - destruct (N.eq_dec latest 0) as [->|Hpos].
    + intros Hret. unfold syncVersions in *. rewrite Hmeta, Hlatest in *.
      destruct e; simpl in *; try discriminate. right. auto.
    + intros Hret.
      destruct e; try (unfold syncVersions in Hret;
                       rewrite Hmeta in Hret; discriminate).
      left. apply (Hmig 0); [reflexivity|lia|exact Hret].
  - unfold syncVersions. rewrite Hmeta. discriminate.
Qed.

(** X3. Whatever the version list and the database, [syncVersions]
    either fails and leaves the database as it was, or returns nil with
    the stored version equal to the latest one; the one exception is a
    database without meta record and a latest version 0, where it
    returns nil without writing. *)
Theorem syncVersions_outcome (versions : list version) (d : DB)
    (latest : N) :
  getLatestDBVersion versions = Ok latest ->
  latest < 4294967296 ->
  let s := syncVersions versions d in
  (synced_ret s <> Ok tt -> synced_db s = d) /\
  (synced_ret s = Ok tt ->
   FetchMeta (synced_db s) = Ok {| DbVersionNumber := latest |} \/
   (latest = 0 /\ FetchMeta d = Err ErrMetaNotFound /\ synced_db s = d)).
Proof.
  intros Hlatest H32 s. split.
  - unfold s, syncVersions. rewrite Hlatest.
    destruct (match FetchMeta d with
              | Ok meta => Ok meta
              | Err ErrMetaNotFound => Ok {| DbVersionNumber := 0 |}
              | Err e => Err e
              | Panic => Panic
              end) as [meta| |]; try reflexivity.
    destruct (latest <? DbVersionNumber meta); [reflexivity|].
    destruct (DbVersionNumber meta =? latest); [reflexivity|].
    destruct (getMigrationsToApply versions (DbVersionNumber meta))
      as [migrations migrationVersions].
    unfold DB_Update.
    destruct (snd (syncVersions_tx migrations migrationVersions latest d));
      simpl; congruence.
  - now apply syncVersions_success_version.
Qed.

Lemma syncVersions_outcome_witness :
  FetchMeta (synced_db (syncVersions dbVersions (db_with_version 3))) =
    Ok {| DbVersionNumber := 11 |} \/
  (11 = 0 /\ FetchMeta (db_with_version 3) = Err ErrMetaNotFound /\
   synced_db (syncVersions dbVersions (db_with_version 3)) =
     db_with_version 3).
Proof.
  exact (proj2 (syncVersions_outcome dbVersions (db_with_version 3) 11
                  eq_refl eq_refl) eq_refl).
Defined.

(** X4. A second [Open] of a database that [Open] has returned runs no
    migration, writes nothing and returns the same database. *)
Theorem Open_again `{migration_01_to_11} (file : option DB) (d : DB) :
  opened_ret (Open file) = Ok d ->
  opened_file (Open file) = Some d /\
  Open (Some d) =
    {| opened_file := Some d; opened_log := []; opened_ret := Ok d |}.
Proof.
  unfold Open at 1 2.
  assert (Hcreated : exists bdb,
            match file with
            | Some bdb => (bdb, Ok tt)
            | None => createChannelDB
            end = (bdb, Ok tt))
    by (destruct file as [bdb|]; eexists; reflexivity).
  destruct Hcreated as [bdb ->]. simpl.
  destruct (synced_ret (syncVersions dbVersions bdb)) as [[]| |] eqn:Hret;
    simpl; try discriminate.
  intros E. inversion E; subst d; clear E. split; [reflexivity|].
  destruct (syncVersions_success_version dbVersions bdb 11
              eq_refl eq_refl Hret) as [Hmeta|[H0 _]]; [|discriminate].
  unfold Open.
  set (d := synced_db (syncVersions dbVersions bdb)) in *.
  assert (Hs : syncVersions dbVersions d =
               {| synced_db := d; synced_log := []; synced_ret := Ok tt |}).
  { unfold syncVersions. rewrite Hmeta. reflexivity. }
  now rewrite Hs.
Qed.

Lemma Open_again_witness :
  exists d,
    opened_ret (Open (Some (db_with_version 3))) = Ok d /\
    Open (Some d) =
      {| opened_file := Some d; opened_log := []; opened_ret := Ok d |}.
Proof.
  eexists. split; [reflexivity|].
  exact (proj2 (Open_again (Some (db_with_version 3)) _ eq_refl)).
Defined.

Lemma run_all_no_panic (ms : list (N * (Tx -> result Tx))) :
  (forall n migrate tx, In (n, migrate) ms -> migrate tx <> Panic) ->
  forall tx, run_all ms tx <> Panic.
Proof.
  induction ms as [|[n migrate] ms IH]; intros Hms tx; simpl;
    [discriminate|].
  destruct (migrate tx) as [tx'| |] eqn:E; simpl.
  - apply IH. intros n' m' tx0 Hin. apply (Hms n' m' tx0). now right.
  - discriminate.
  - exfalso. apply (Hms n migrate tx); [now left|exact E].
Qed.

(** X5. [syncVersions] panics on an empty version list (the index
    [len(versions)-1] is out of range) once the meta record has been read
    or found missing.  On a non-empty list it panics only if a migration
    does: the index into [migrationVersions] is always in range. *)
Theorem syncVersions_panic (d : DB) :
  ((exists meta, FetchMeta d = Ok meta) \/
   FetchMeta d = Err ErrMetaNotFound ->
   syncVersions [] d =
     {| synced_db := d; synced_log := []; synced_ret := Panic |}) /\
  (forall versions,
     versions <> [] ->
     (forall v migrate tx,
        In v versions -> migration_of v = Some migrate ->
        migrate tx <> Panic) ->
     synced_ret (syncVersions versions d) <> Panic).
Proof.
  split.
  - intros [[meta Hm]|Hm]; unfold syncVersions; rewrite Hm; reflexivity.
  - intros versions Hne Hmig.
    destruct (getLatestDBVersion_nonempty versions Hne) as [latest Hl].
    unfold syncVersions. rewrite Hl.
    pose proof (fetchMeta_no_panic d) as Hnp.
    unfold FetchMeta, DB_View.
    destruct (fetchMeta d) as [meta|e|]; [| |congruence].
    + simpl.
      destruct (latest <? DbVersionNumber meta); [discriminate|].
      destruct (DbVersionNumber meta =? latest); [discriminate|].
      pose proof (syncVersions_tx_run_all versions (DbVersionNumber meta)
                    latest d) as Hbody.
      destruct (getMigrationsToApply versions (DbVersionNumber meta))
        as [migrations migrationVersions].
      simpl in Hbody. destruct Hbody as [Hbody _].
      unfold DB_Update. rewrite Hbody.
      destruct (run_all (runnable (above (DbVersionNumber meta) versions)) d)
        as [tx0| |] eqn:Hrun; simpl; try discriminate.
      * pose proof (putMeta_no_panic {| DbVersionNumber := latest |} tx0).
        destruct (putMeta {| DbVersionNumber := latest |} tx0);
          simpl; congruence.
      * exfalso. revert Hrun. apply run_all_no_panic.
        intros n migrate tx Hin. apply runnable_above in Hin
          as (v & Hv & _ & Hm & _). now apply (Hmig v).
    + destruct e; try (simpl; discriminate).
      cbn [DbVersionNumber].
      destruct (latest <? 0); [discriminate|].
      destruct (0 =? latest); [discriminate|].
      pose proof (syncVersions_tx_run_all versions 0 latest d) as Hbody.
      destruct (getMigrationsToApply versions 0)
        as [migrations migrationVersions].
      simpl in Hbody. destruct Hbody as [Hbody _].
      unfold DB_Update. rewrite Hbody.
      destruct (run_all (runnable (above 0 versions)) d)
        as [tx0| |] eqn:Hrun; simpl; try discriminate.
      * pose proof (putMeta_no_panic {| DbVersionNumber := latest |} tx0).
        destruct (putMeta {| DbVersionNumber := latest |} tx0);
          simpl; congruence.
      * exfalso. revert Hrun. apply run_all_no_panic.
        intros n migrate tx Hin. apply runnable_above in Hin
          as (v & Hv & _ & Hm & _). now apply (Hmig v).
Qed.

Lemma syncVersions_panic_witness :
  syncVersions [] (db_with_version 3) =
    {| synced_db := db_with_version 3; synced_log := [];
       synced_ret := Panic |} /\
  synced_ret (syncVersions dbVersions (db_with_version 3)) <> Panic.
Proof.
  destruct (syncVersions_panic (db_with_version 3)) as [Hempty Hfull].
  split.
  - apply Hempty. left. eexists. reflexivity.
  - apply Hfull; [discriminate|].
    intros v migrate tx Hin Hm.
    assert (Hmark : exists n, migrate = markApplied n).
    { simpl in Hin.
      repeat (destruct Hin as [<-|Hin];
              [simpl in Hm; try discriminate; inversion Hm;
               eexists; reflexivity|]).
      contradiction. }
    destruct Hmark as [n ->]. unfold markApplied.
    unfold Tx_CreateBucketIfNotExists, Bucket_CreateBucketIfNotExists.
    simpl.
    destruct (find_key _ tx) as [[w|s]|]; simpl; try discriminate;
      destruct (find_key (be32 n) _) as [[w'|s']|]; discriminate.
Defined.

(** ** A fresh database *)

(** X6. [createChannelDB] on an empty file commits: the ten top-level
    buckets and the seven nested ones are there, the stored version is
    the latest, and the queries answer with empty lists and not-found
    errors, not with the errors of a missing bucket. *)
Theorem createChannelDB_fresh `{migration_01_to_11} `{channel_go} :
  let fresh := fst createChannelDB in
  snd createChannelDB = Ok tt /\
  Forall (fun name => Tx_Bucket fresh name = Some [])
    [openChannelBucket; closedChannelBucket; forwardingLogBucket;
     fwdPackagesKey; invoiceBucket; nodeInfoBucket] /\
  Tx_Bucket fresh nodeBucket =
    Some [(aliasIndexBucket, Nested []);
          (nodeUpdateIndexBucket, Nested [])] /\
  Tx_Bucket fresh edgeBucket =
    Some [(channelPointBucket, Nested []); (edgeIndexBucket, Nested []);
          (edgeUpdateIndexBucket, Nested []); (zombieBucket, Nested [])] /\
  Tx_Bucket fresh graphMetaBucket = Some [(pruneLogBucket, Nested [])] /\
  FetchMeta fresh = Ok {| DbVersionNumber := 11 |} /\
  length fresh = 10%nat /\
  FetchAllChannels fresh = Ok [] /\
  (forall pendingOnly, FetchClosedChannels pendingOnly fresh = Ok []) /\
  (forall nodeID, FetchOpenChannels nodeID fresh = Ok []) /\
  (forall chanPoint bestHeight,
     FetchChannel chanPoint fresh = Err ErrChannelNotFound /\
     FetchClosedChannel chanPoint fresh = Err ErrClosedChannelNotFound /\
     AbandonChannel chanPoint bestHeight fresh =
       (fresh, Err ErrClosedChannelNotFound)).
Proof.
  cbv zeta. split; [reflexivity|]. split; [repeat constructor|].
  do 6 (split; [reflexivity|]).
  split; [intros []; reflexivity|]. split; [reflexivity|].
  intros chanPoint bestHeight. repeat split.
Qed.

(** ** Wipe, further *)

Lemma deleteBucketIfFound_gone (tx tx' : Tx) (name : bytes) :
  deleteBucketIfFound tx name = Ok tx' ->
  find_key name tx' = None /\
  (forall k, find_key k tx = None -> find_key k tx' = None).
Proof.
  unfold deleteBucketIfFound, Tx_DeleteBucket, Bucket_DeleteBucket.
  destruct (find_key name tx) as [[v|s]|] eqn:Ef; try discriminate;
    intros E; inversion E; subst tx'.
  - split; [apply find_key_remove_key_same|].
    intros k Hk.
    destruct (list_eq_dec Byte.byte_eq_dec name k) as [<-|Hne];
      [apply find_key_remove_key_same|].
    now rewrite find_key_remove_key_other.
  - split; [exact Ef|auto].
Qed.

Lemma deleteBucketIfFound_absent (tx : Tx) (name : bytes) :
  find_key name tx = None -> deleteBucketIfFound tx name = Ok tx.
Proof.
  unfold deleteBucketIfFound, Tx_DeleteBucket, Bucket_DeleteBucket.
  now intros ->.
Qed.

Lemma deleteBucketIfFound_error (tx : Tx) (name : bytes) :
  (exists tx', deleteBucketIfFound tx name = Ok tx') \/
  deleteBucketIfFound tx name = Err ErrIncompatibleValue.
Proof.
  unfold deleteBucketIfFound, Tx_DeleteBucket, Bucket_DeleteBucket.
  destruct (find_key name tx) as [[v|s]|]; [now right| |];
    left; eexists; reflexivity.
Qed.

Lemma Wipe_tx_gone (tx tx' : Tx) :
  Wipe_tx tx = Ok tx' ->
  Forall (fun name => find_key name tx' = None)
    [openChannelBucket; closedChannelBucket; invoiceBucket;
     nodeInfoBucket; nodeBucket; edgeBucket; edgeIndexBucket;
     graphMetaBucket].
Proof.
  unfold Wipe_tx. intros Hw.
  destruct (deleteBucketIfFound tx openChannelBucket) as [t1| |] eqn:E1;
    simpl in Hw; try discriminate.
  destruct (deleteBucketIfFound t1 closedChannelBucket) as [t2| |] eqn:E2;
    simpl in Hw; try discriminate.
  destruct (deleteBucketIfFound t2 invoiceBucket) as [t3| |] eqn:E3;
    simpl in Hw; try discriminate.
  destruct (deleteBucketIfFound t3 nodeInfoBucket) as [t4| |] eqn:E4;
    simpl in Hw; try discriminate.
  destruct (deleteBucketIfFound t4 nodeBucket) as [t5| |] eqn:E5;
    simpl in Hw; try discriminate.
  destruct (deleteBucketIfFound t5 edgeBucket) as [t6| |] eqn:E6;
    simpl in Hw; try discriminate.
  destruct (deleteBucketIfFound t6 edgeIndexBucket) as [t7| |] eqn:E7;
    simpl in Hw; try discriminate.
  destruct (deleteBucketIfFound t7 graphMetaBucket) as [t8| |] eqn:E8;
    simpl in Hw; try discriminate.
  inversion Hw; subst tx'.
  apply deleteBucketIfFound_gone in E1 as [G1 _], E2 as [G2 K2],
    E3 as [G3 K3], E4 as [G4 K4], E5 as [G5 K5], E6 as [G6 K6],
    E7 as [G7 K7], E8 as [G8 K8].
  repeat constructor; auto 10.
Qed.

Lemma Wipe_tx_absent (tx : Tx) :
  Forall (fun name => find_key name tx = None)
    [openChannelBucket; closedChannelBucket; invoiceBucket;
     nodeInfoBucket; nodeBucket; edgeBucket; edgeIndexBucket;
     graphMetaBucket] ->
  Wipe_tx tx = Ok tx.
Proof.
  intros Hall. unfold Wipe_tx.
  repeat match goal with
  | H : Forall _ (_ :: _) |- _ =>
      let Hn := fresh "Hn" in
      inversion H as [|? ? Hn ?]; subst; clear H;
      rewrite (deleteBucketIfFound_absent tx _ Hn); simpl
  end.
  reflexivity.
Qed.

Lemma Wipe_tx_error (tx : Tx) :
  (exists tx', Wipe_tx tx = Ok tx') \/
  Wipe_tx tx = Err ErrIncompatibleValue.
Proof.
  unfold Wipe_tx.
  repeat match goal with
  | |- context [deleteBucketIfFound ?t ?name] =>
      let E := fresh "E" in
      destruct (deleteBucketIfFound_error t name) as [[? E]|E];
      rewrite E; simpl; [|now right]
  end.
  left. eexists. reflexivity.
Qed.

(** X7. When [Wipe] returns nil, none of the eight bucket names it
    deletes is left at the top level, and wiping again returns nil and
    changes nothing.  When it fails, the error is that of a key that
    holds a value instead of a bucket, and the database is as it was. *)
Theorem Wipe_outcome (d : DB) :
  (snd (Wipe d) = Ok tt ->
   Forall (fun name => find_key name (fst (Wipe d)) = None)
     [openChannelBucket; closedChannelBucket; invoiceBucket;
      nodeInfoBucket; nodeBucket; edgeBucket; edgeIndexBucket;
      graphMetaBucket] /\
   Wipe (fst (Wipe d)) = (fst (Wipe d), Ok tt)) /\
  (snd (Wipe d) <> Ok tt ->
   Wipe d = (d, Err ErrIncompatibleValue)).
Proof.
  unfold Wipe, DB_Update.
  destruct (Wipe_tx_error d) as [[tx' E]|E]; rewrite E; simpl.
  - split; [|congruence]. intros _.
    pose proof (Wipe_tx_gone d tx' E) as Hgone.
    split; [exact Hgone|]. now rewrite (Wipe_tx_absent tx' Hgone).
  - split; [discriminate|reflexivity].
Qed.

Lemma Wipe_outcome_witness :
  Forall (fun name => find_key name (fst (Wipe (fst createChannelDB))) = None)
    [openChannelBucket; closedChannelBucket; invoiceBucket;
     nodeInfoBucket; nodeBucket; edgeBucket; edgeIndexBucket;
     graphMetaBucket] /\
  Wipe (fst (Wipe (fst createChannelDB))) =
    (fst (Wipe (fst createChannelDB)), Ok tt).
Proof.
  exact (proj1 (Wipe_outcome (fst createChannelDB)) eq_refl).
Defined.

(** X8. After a [Wipe] that returned nil the stored version is as
    before, so [Open] of a database at the latest version neither
    migrates nor recreates the buckets; the channel queries then fail
    with the errors of a missing bucket: [ErrNoActiveChannels] from
    [FetchAllChannels], [FetchChannel] and [AbandonChannel],
    [ErrNoClosedChannels] from [FetchClosedChannels]; only
    [FetchOpenChannels] still answers with an empty list. *)
Theorem queries_after_Wipe `{migration_01_to_11} `{channel_go} (d : DB) :
  snd (Wipe d) = Ok tt ->
  let wiped := fst (Wipe d) in
  FetchMeta wiped = FetchMeta d /\
  (FetchMeta d = Ok {| DbVersionNumber := 11 |} ->
   Open (Some wiped) =
     {| opened_file := Some wiped; opened_log := [];
        opened_ret := Ok wiped |}) /\
  FetchAllChannels wiped = Err ErrNoActiveChannels /\
  (forall nodeID, FetchOpenChannels nodeID wiped = Ok []) /\
  (forall pendingOnly,
     FetchClosedChannels pendingOnly wiped = Err ErrNoClosedChannels) /\
  (forall chanPoint bestHeight,
     FetchChannel chanPoint wiped = Err ErrNoActiveChannels /\
     FetchClosedChannel chanPoint wiped = Err ErrClosedChannelNotFound /\
     AbandonChannel chanPoint bestHeight wiped =
       (wiped, Err ErrNoActiveChannels)).
Proof.
  intros Hok. cbv zeta. unfold Wipe, DB_Update in *.
  destruct (Wipe_tx d) as [wiped| |] eqn:Hw; simpl in Hok;
    try discriminate. simpl fst.
  pose proof (Wipe_tx_gone d wiped Hw) as Hgone.
  inversion Hgone as [|? ? Hopen Hg1]; subst.
  inversion Hg1 as [|? ? Hclosed _]; subst.
  assert (Hmeta : FetchMeta wiped = FetchMeta d).
  { unfold FetchMeta, DB_View, fetchMeta, Tx_Bucket, Bucket_Bucket.
    rewrite (Wipe_tx_frame d wiped Hw metaBucket); [reflexivity|].
    simpl. intros Hin.
    repeat (destruct Hin as [Hin|Hin]; [discriminate|]). exact Hin. }
  assert (HnoOpen : Tx_Bucket wiped openChannelBucket = None)
    by (unfold Tx_Bucket, Bucket_Bucket; now rewrite Hopen).
  assert (HnoClosed : Tx_Bucket wiped closedChannelBucket = None)
    by (unfold Tx_Bucket, Bucket_Bucket; now rewrite Hclosed).
  split; [exact Hmeta|]. split.
  { intros H11. unfold Open, syncVersions. rewrite Hmeta, H11.
    reflexivity. }
  split.
  { unfold FetchAllChannels, FetchAllOpenChannels, fetchChannels, DB_View.
    now rewrite HnoOpen. }
  split.
  { intros nodeID. unfold FetchOpenChannels, DB_View, fetchOpenChannels.
    now rewrite HnoOpen. }
  split.
  { intros pendingOnly. unfold FetchClosedChannels, DB_View.
    now rewrite HnoClosed. }
  intros chanPoint bestHeight.
  assert (Hfc : FetchChannel chanPoint wiped = Err ErrNoActiveChannels).
  { unfold FetchChannel, DB_View, chanScan. now rewrite HnoOpen. }
  split; [exact Hfc|]. split.
  - unfold FetchClosedChannel, DB_View. now rewrite HnoClosed.
  - unfold AbandonChannel. now rewrite Hfc.
Qed.

Lemma queries_after_Wipe_witness :
  let wiped := fst (Wipe (fst createChannelDB)) in
  Open (Some wiped) =
    {| opened_file := Some wiped; opened_log := [];
       opened_ret := Ok wiped |} /\
  FetchAllChannels wiped = Err ErrNoActiveChannels.
Proof.
  destruct (queries_after_Wipe (fst createChannelDB) eq_refl)
    as (_ & Hopen & Hall & _).
  split; [exact (Hopen eq_refl)|exact Hall].
Defined.

(** ** Lookup by channel id, further *)

Section ScanFurther.
Context `{channel_go}.

Lemma scanClosedChannels_sound (cid : bytes) (entries : bucket)
    (summary : ChannelCloseSummary) :
  scanClosedChannels cid entries = Ok summary ->
  exists k n o,
    In (k, n) entries /\ readOutpoint k = Ok o /\
    IsChanPoint cid o = true /\
    deserializeCloseChannelSummary (reader (node_value n)) = inr summary.
Proof.
  induction entries as [|[k n] entries IH]; cbn [scanClosedChannels];
    [discriminate|].
  destruct (slice_to 30 k) as [prefix| |]; simpl; try discriminate.
  assert (Hbody :
    (outPoint <- readOutpoint k ;;
     if negb (IsChanPoint cid outPoint)
     then scanClosedChannels cid entries
     else call (deserializeCloseChannelSummary (reader (node_value n))))
    = Ok summary ->
    exists k' n' o,
      In (k', n') ((k, n) :: entries) /\ readOutpoint k' = Ok o /\
      IsChanPoint cid o = true /\
      deserializeCloseChannelSummary (reader (node_value n')) = inr summary).
  { destruct (readOutpoint k) as [o| |] eqn:Ho; simpl; try discriminate.
    destruct (IsChanPoint cid o) eqn:Hc; simpl.
    - destruct (deserializeCloseChannelSummary (reader (node_value n)))
        as [e|s] eqn:Hd; simpl; [discriminate|].
      intros E. inversion E; subst s. exists k, n, o.
      split; [now left|]. repeat split; assumption.
    - intros Hrest. destruct (IH Hrest) as (k' & n' & o' & Hin & Hrest').
      exists k', n', o'. split; [now right|exact Hrest']. }
  destruct (bytes_compare (firstn 30 cid) prefix); try exact Hbody.
  discriminate.
Qed.

Lemma scanClosedChannels_unbounded (cid : bytes) (entries : bucket) :
  (30 <= length cid)%nat ->
  Forall (fun e => bytes_compare (fst e) (firstn 30 cid) <> Lt) entries ->
  scanClosedChannels cid entries = scanWithoutBound cid entries.
Proof.
  intros Hcid. induction 1 as [|[k n] entries Hk _ IH];
    cbn [scanClosedChannels scanWithoutBound]; [reflexivity|].
  unfold slice_to. destruct (Nat.leb_spec 30 (length k)); [|reflexivity].
  cbn [bind]. rewrite IH.
  simpl in Hk. apply bytes_compare_prefix in Hk.
  rewrite length_firstn, Nat.min_l in Hk by exact Hcid.
  destruct (bytes_compare (firstn 30 cid) (firstn 30 k));
    try reflexivity. congruence.
Qed.

(** X9. A summary that [FetchClosedChannelForID] returns was decoded from
    an entry of the closed-channel bucket whose key reads as an outpoint
    that derives the channel id. *)
Theorem FetchClosedChannelForID_sound (cid : bytes) (d : DB)
    (summary : ChannelCloseSummary) :
  FetchClosedChannelForID cid d = Ok summary ->
  exists closeBucket k n o,
    Tx_Bucket d closedChannelBucket = Some closeBucket /\
    In (k, n) closeBucket /\
    readOutpoint k = Ok o /\
    NewChanIDFromOutPoint o = cid /\
    deserializeCloseChannelSummary (reader (node_value n)) = inr summary.
Proof.
  unfold FetchClosedChannelForID, DB_View.
  destruct (Tx_Bucket d closedChannelBucket) as [closeBucket|];
    [|discriminate].
  intros Hscan. apply scanClosedChannels_sound in Hscan
    as (k & n & o & Hin & Ho & Hc & Hd).
  exists closeBucket, k, n, o. split; [reflexivity|].
  split; [now apply (Cursor_Seek_incl (firstn 30 cid) closeBucket)|].
  split; [exact Ho|]. split; [|exact Hd].
  unfold IsChanPoint in Hc. now apply bytes_eqb_eq.
Qed.

(** X10. In a closed-channel bucket with ascending keys the comparison
    of prefixes in the loop condition of [FetchClosedChannelForID] never
    ends the scan: from the key [Seek] stops at, the loop goes on until a
    match, an error or the last key of the bucket. *)
Theorem FetchClosedChannelForID_scans_to_end (cid : bytes) (d : DB)
    (closeBucket : bucket) :
  Tx_Bucket d closedChannelBucket = Some closeBucket ->
  keys_ascending closeBucket ->
  (30 <= length cid)%nat ->
  FetchClosedChannelForID cid d =
    scanWithoutBound cid (Cursor_Seek closeBucket (firstn 30 cid)).
Proof.
  intros Hb Hasc Hcid. unfold FetchClosedChannelForID, DB_View.
  rewrite Hb. apply scanClosedChannels_unbounded; [exact Hcid|].
  now apply Cursor_Seek_not_below.
Qed.

End ScanFurther.

Lemma FetchClosedChannelForID_sound_witness :
  exists closeBucket k n o,
    Tx_Bucket db_one_closed closedChannelBucket = Some closeBucket /\
    In (k, n) closeBucket /\
    readOutpoint k = Ok o /\
    NewChanIDFromOutPoint o = NewChanIDFromOutPoint op_high /\
    deserializeCloseChannelSummary (reader (node_value n)) =
      inr (sample_summary op_high BreachClose 200 true).
Proof.
  apply (FetchClosedChannelForID_sound (NewChanIDFromOutPoint op_high)
           db_one_closed).
  reflexivity.
Defined.

Lemma FetchClosedChannelForID_scans_to_end_witness :
  FetchClosedChannelForID (NewChanIDFromOutPoint op_high) db_one_closed =
    scanWithoutBound (NewChanIDFromOutPoint op_high)
      (Cursor_Seek
         [(writeOutpoint op_high,
           Value (sample_summaryBytes
                    (sample_summary op_high BreachClose 200 true)))]
         (firstn 30 (NewChanIDFromOutPoint op_high))).
Proof.
  apply FetchClosedChannelForID_scans_to_end.
  - reflexivity.
  - repeat constructor.
  - vm_compute. lia.
Defined.

(** ** Open channels, further *)

Lemma Bucket_ForEach_invariant {St : Type} (Inv : St -> Prop)
    (fn : bytes -> option bytes -> St -> result St) (b : bucket) :
  (forall k n st st',
     In (k, n) b -> Inv st -> fn k (node_value n) st = Ok st' -> Inv st') ->
  forall st st', Inv st -> Bucket_ForEach fn b st = Ok st' -> Inv st'.
Proof.
  induction b as [|[k n] b IH]; intros Hstep st st' Hinv; simpl.
  - intros E. now inversion E; subst.
  - destruct (fn k (node_value n) st) as [st1| |] eqn:E1; simpl;
      try discriminate.
    apply IH.
    + intros k' n' s s' Hin. apply Hstep. now right.
    + apply (Hstep k n st st1); [now left|exact Hinv|exact E1].
Qed.

(** Once an entry that establishes [Inv] has been visited, a loop whose
    steps keep [Inv] ends in [Inv]. *)
Lemma Bucket_ForEach_reaches {St : Type} (Inv : St -> Prop)
    (fn : bytes -> option bytes -> St -> result St) (b : bucket)
    (k0 : bytes) (n0 : node) :
  In (k0, n0) b ->
  (forall st st', fn k0 (node_value n0) st = Ok st' -> Inv st') ->
  (forall k n st st',
     In (k, n) b -> Inv st -> fn k (node_value n) st = Ok st' -> Inv st') ->
  forall st st', Bucket_ForEach fn b st = Ok st' -> Inv st'.
Proof.
  induction b as [|[k n] b IH]; intros Hin Hset Hkeep st st';
    [contradiction|]. simpl.
  destruct (fn k (node_value n) st) as [st1| |] eqn:E1; simpl;
    try discriminate.
  destruct Hin as [Heq|Hin].
  - inversion Heq; subst k0 n0.
    apply (Bucket_ForEach_invariant Inv fn b).
    + intros k' n' s s' Hin'. apply Hkeep. now right.
    + now apply (Hset st st1).
  - apply IH; [exact Hin|exact Hset|].
    intros k' n' s s' Hin'. apply Hkeep. now right.
Qed.

(** A step of the inner loop of [FetchChannel] keeps a target that has
    been found. *)
Ltac keep_target :=
  let E := fresh "E" in
  match goal with
  | |- context [node_value ?n] =>
      destruct (node_value n); [intros E; inversion E; now subst|]
  end;
  match goal with
  | |- context [Bucket_Bucket ?b ?k] =>
      destruct (Bucket_Bucket b k); [|discriminate]
  end;
  match goal with
  | |- context [Bucket_Bucket ?b ?k] =>
      destruct (Bucket_Bucket b k); [|intros E; inversion E; now subst]
  end;
  match goal with
  | |- context [fetchOpenChannel ?b ?o] =>
      destruct (fetchOpenChannel b o); simpl; [discriminate|]
  end;
  intros E; inversion E; discriminate.

Section OpenFurther.
Context `{channel_go}.

(** X11. A channel that [FetchChannel] returns was decoded from a leaf
    bucket stored under the key of the outpoint, in a chain bucket of a
    peer bucket whose key has 33 bytes. *)
Theorem FetchChannel_sound (chanPoint : OutPoint) (d : DB)
    (c : OpenChannel) :
  FetchChannel chanPoint d = Ok c ->
  exists openChanBucket nodePub nodeChanBucket chainHash chainBucket
         chanBucket,
    Tx_Bucket d openChannelBucket = Some openChanBucket /\
    length nodePub = 33%nat /\
    Bucket_Bucket openChanBucket nodePub = Some nodeChanBucket /\
    Bucket_Bucket nodeChanBucket chainHash = Some chainBucket /\
    Bucket_Bucket chainBucket (writeOutpoint chanPoint) = Some chanBucket /\
    fetchOpenChannel chanBucket chanPoint = inr c.
Proof.
  unfold FetchChannel, DB_View, chanScan.
  destruct (Tx_Bucket d openChannelBucket) as [O|]; [|discriminate].
  match goal with
  | |- (targetChan <- ?scan ;; _) = _ -> _ =>
      destruct scan as [[c'|]| |] eqn:Hscan
  end; simpl; try discriminate.
  intros E. inversion E; subst c'; clear E.
  pose (Inv := fun t : option OpenChannel =>
                 match t with
                 | Some c0 => stored_at chanPoint O c0
                 | None => True
                 end).
  assert (Hinv : Inv (Some c)).
  { revert Hscan. apply (Bucket_ForEach_invariant Inv); [|exact I].
    intros nodePub n st st' _ Hst.
    destruct (node_value n); [intros E; now inversion E; subst|].
    destruct (Nat.eqb_spec (length nodePub) 33) as [Hlen|Hlen]; simpl;
      [|intros E; now inversion E; subst].
    destruct (Bucket_Bucket O nodePub) as [NB|] eqn:HNB;
      [|intros E; now inversion E; subst].
    apply (Bucket_ForEach_invariant Inv); [|exact Hst].
    intros chainHash n' s s' _ Hs.
    destruct (node_value n'); [intros E; now inversion E; subst|].
    destruct (Bucket_Bucket NB chainHash) as [CB|] eqn:HCB;
      [|discriminate].
    destruct (Bucket_Bucket CB (writeOutpoint chanPoint)) as [leaf|] eqn:HL;
      [|intros E; now inversion E; subst].
    destruct (fetchOpenChannel leaf chanPoint) as [e|c0] eqn:Hc; simpl;
      [discriminate|].
    intros E. inversion E; subst s'.
    exists nodePub, NB, chainHash, CB, leaf. auto. }
  destruct Hinv as (nodePub & NB & chainHash & CB & leaf & Hrest).
  exists O, nodePub, NB, chainHash, CB, leaf. split; [reflexivity|exact Hrest].
Qed.

(** X12. If the open tree holds a leaf for the outpoint under a 33-byte
    peer key, [FetchChannel] does not report the channel as not found on
    its own account: when the walk of the tree completes it returns a
    channel. *)
Theorem FetchChannel_complete (chanPoint : OutPoint) (d : DB)
    (openChanBucket nodeChanBucket chainBucket chanBucket : bucket)
    (nodePub chainHash : bytes) :
  Tx_Bucket d openChannelBucket = Some openChanBucket ->
  length nodePub = 33%nat ->
  Bucket_Bucket openChanBucket nodePub = Some nodeChanBucket ->
  Bucket_Bucket nodeChanBucket chainHash = Some chainBucket ->
  Bucket_Bucket chainBucket (writeOutpoint chanPoint) = Some chanBucket ->
  forall targetChan,
    DB_View (chanScan chanPoint) d = Ok targetChan ->
    exists c, targetChan = Some c /\ FetchChannel chanPoint d = Ok c.
Proof.
  intros HO Hlen HNB HCB HL targetChan Hscan.
  assert (Hsome : targetChan <> None).
  { revert Hscan. unfold DB_View, chanScan. rewrite HO.
    assert (HinO : In (nodePub, Nested nodeChanBucket) openChanBucket).
    { unfold Bucket_Bucket in HNB.
      destruct (find_key nodePub openChanBucket) as [[v|s]|] eqn:Ef;
        try discriminate. inversion HNB; subst s.
      now apply find_key_In. }
    assert (HinN : In (chainHash, Nested chainBucket) nodeChanBucket).
    { unfold Bucket_Bucket in HCB.
      destruct (find_key chainHash nodeChanBucket) as [[v|s]|] eqn:Ef;
        try discriminate. inversion HCB; subst s.
      now apply find_key_In. }
    apply (Bucket_ForEach_reaches (fun t => t <> None) _ openChanBucket
             nodePub (Nested nodeChanBucket) HinO).
    - intros st st'. simpl. rewrite Hlen, HNB. simpl.
      apply (Bucket_ForEach_reaches (fun t => t <> None) _ nodeChanBucket
               chainHash (Nested chainBucket) HinN).
      + intros s s'. simpl. rewrite HCB, HL.
        destruct (fetchOpenChannel chanBucket chanPoint); simpl;
          [discriminate|]. intros E; inversion E; discriminate.
      + intros k n s s' _ Hs. keep_target.
    - intros k n st st' _ Hst.
      destruct (node_value n); [intros E; inversion E; now subst|].
      destruct (negb (length k =? 33)%nat);
        [intros E; inversion E; now subst|].
      destruct (Bucket_Bucket openChanBucket k) as [NB|];
        [|intros E; inversion E; now subst].
      apply (Bucket_ForEach_invariant (fun t => t <> None)); [|exact Hst].
      intros k' n' s s' _ Hs. keep_target. }
  destruct targetChan as [c|]; [|congruence].
  exists c. split; [reflexivity|]. unfold FetchChannel. now rewrite Hscan.
Qed.

End OpenFurther.

Lemma FetchChannel_sound_witness :
  exists c openChanBucket nodePub nodeChanBucket chainHash chainBucket
         chanBucket,
    FetchChannel op_open db_peer_with_open_channel = Ok c /\
    Tx_Bucket db_peer_with_open_channel openChannelBucket =
      Some openChanBucket /\
    length nodePub = 33%nat /\
    Bucket_Bucket openChanBucket nodePub = Some nodeChanBucket /\
    Bucket_Bucket nodeChanBucket chainHash = Some chainBucket /\
    Bucket_Bucket chainBucket (writeOutpoint op_open) = Some chanBucket /\
    fetchOpenChannel chanBucket op_open = inr c.
Proof.
  assert (Hc : exists c,
            FetchChannel op_open db_peer_with_open_channel = Ok c)
    by (eexists; vm_compute; reflexivity).
  destruct Hc as [c Hc].
  destruct (FetchChannel_sound op_open db_peer_with_open_channel c Hc)
    as (O & nodePub & NB & chainHash & CB & LB & Hrest).
  exists c, O, nodePub, NB, chainHash, CB, LB.
  split; [exact Hc|exact Hrest].
Defined.

Lemma FetchChannel_complete_witness :
  length (sample_pub x33) = 33%nat /\
  exists c, FetchChannel op_open db_peer_with_open_channel = Ok c.
Proof.
  split; [reflexivity|].
  assert (Hscan : exists t,
            DB_View (chanScan op_open) db_peer_with_open_channel = Ok t)
    by (eexists; vm_compute; reflexivity).
  destruct Hscan as [t Hscan].
  destruct (FetchChannel_complete op_open db_peer_with_open_channel
              _ _ _ _ (sample_pub x33) sample_chain
              eq_refl eq_refl eq_refl eq_refl eq_refl t Hscan)
    as (c & _ & Hc).
  exists c. exact Hc.
Defined.

Section ByPeer.
Context `{channel_go}.

Local Open Scope string_scope.

Lemma storedChannels_walk (d : DB) (O NM : bucket) :
  Tx_Bucket d openChannelBucket = Some O ->
  forall acc out : list OpenChannel,
    Bucket_ForEach
      (fun k (_ : option bytes) channels =>
         match Bucket_Bucket O k with
         | None => Ok channels
         | Some nodeChanBucket =>
             Bucket_ForEach
               (fun chainHash v channels =>
                  match v with
                  | Some _ => Ok channels
                  | None =>
                      match Bucket_Bucket nodeChanBucket chainHash with
                      | None =>
                          Err (ErrFmt "unable to read bucket for chain")
                      | Some chainBucket =>
                          match fetchNodeChannels chainBucket with
                          | Ok nodeChans => Ok (channels ++ nodeChans)
                          | Err _ =>
                              Err (ErrFmt "unable to read channel for chain_hash, node_key")
                          | Panic => Panic
                          end
                      end
                  end) nodeChanBucket channels
         end) NM acc = Ok out ->
    exists parts,
      Forall2 (fun e chans => FetchOpenChannels (fst e) d = Ok chans)
        NM parts /\
      out = acc ++ concat parts.
Proof.
  intros HO.
  unfold FetchOpenChannels, DB_View, fetchOpenChannels. rewrite HO.
  induction NM as [|[k n] NM IH]; intros acc out; simpl.
  - intros E. inversion E; subst. exists []. split; [constructor|].
    simpl. now rewrite app_nil_r.
  - destruct (Bucket_Bucket O k) as [NB|] eqn:HNB.
    + match goal with
      | |- (st' <- Bucket_ForEach ?f NB acc ;; _) = _ -> _ =>
          pose proof (Bucket_ForEach_sim (fun l => acc ++ l) f f NB)
            as Hshift
      end.
      assert (Hshift' := fun Hstep => Hshift Hstep []).
      clear Hshift. rename Hshift' into Hshift.
      cbv beta in Hshift. rewrite (app_nil_r acc) in Hshift.
      lapply Hshift; [clear Hshift; intros Hshift|].
      2: { intros chainHash n' s _.
           destruct (node_value n'); [reflexivity|].
           destruct (Bucket_Bucket NB chainHash) as [CB|]; [|reflexivity].
           destruct (fetchNodeChannels CB); simpl; try reflexivity.
           now rewrite app_assoc. }
      rewrite Hshift. clear Hshift.
      match goal with
      | |- (st' <- (l <- ?run ;; _) ;; _) = _ -> _ =>
          destruct run as [chans| |] eqn:Hrun
      end; simpl; try discriminate.
      intros Hrest. apply IH in Hrest as (parts & Hparts & Heq).
      exists (chans :: parts). split.
      * constructor; [|exact Hparts]. simpl. rewrite HNB. exact Hrun.
      * simpl. rewrite Heq. now rewrite <- app_assoc.
    + intros Hrest. apply IH in Hrest as (parts & Hparts & Heq).
      exists ([] :: parts). split; [|exact Heq].
      constructor; [|exact Hparts]. simpl. now rewrite HNB.
Qed.

Local Close Scope string_scope.

Lemma storedChannels_parts (d : DB) (O NM : bucket)
    (stored : list OpenChannel) :
  Tx_Bucket d openChannelBucket = Some O ->
  Tx_Bucket d nodeInfoBucket = Some NM ->
  storedChannels d = Ok stored ->
  exists parts,
    Forall2 (fun e chans => FetchOpenChannels (fst e) d = Ok chans)
      NM parts /\
    stored = concat parts.
Proof.
  intros HO HNM. unfold storedChannels. rewrite HO, HNM. intros Hrun.
  exact (storedChannels_walk d O NM HO [] stored Hrun).
Qed.

(** X13. When [FetchAllChannels] returns, [FetchOpenChannels] returns for
    every peer that has a link-node record, and the channels of
    [FetchAllChannels] are those of these peers: each list of a peer is
    part of it, and each of its channels is in the list of one of these
    peers.  Channels of a peer without link-node record are not
    returned. *)
Theorem FetchAllChannels_by_peer (d : DB) (openChanBucket nodeMetaBucket : bucket)
    (all : list OpenChannel) :
  Tx_Bucket d openChannelBucket = Some openChanBucket ->
  Tx_Bucket d nodeInfoBucket = Some nodeMetaBucket ->
  FetchAllChannels d = Ok all ->
  (forall k n,
     In (k, n) nodeMetaBucket ->
     exists chans, FetchOpenChannels k d = Ok chans /\ incl chans all) /\
  (forall c,
     In c all ->
     exists k n chans,
       In (k, n) nodeMetaBucket /\
       FetchOpenChannels k d = Ok chans /\ In c chans).
Proof.
  intros HO HNM Hall.
  assert (Hstored : exists stored,
            storedChannels d = Ok stored /\ Permutation all stored).
  { revert Hall.
    unfold FetchAllChannels, FetchWaitingCloseChannels,
      FetchAllOpenChannels, FetchPendingChannels.
    rewrite !fetchChannels_filter.
    destruct (storedChannels d) as [stored| |]; simpl; try discriminate.
    intros E. inversion E; subst all. exists stored.
    split; [reflexivity|]. rewrite <- app_assoc.
    apply selected_partition. }
  destruct Hstored as (stored & Hs & Hperm).
  destruct (storedChannels_parts d openChanBucket nodeMetaBucket stored
              HO HNM Hs) as (parts & Hparts & ->).
  split.
  - intros k n Hin.
    destruct (Forall2_In_left _ _ _ _ Hparts Hin) as (chans & Hc & Hcin).
    exists chans. split; [exact Hc|].
    intros c Hinc. apply (Permutation_in c (Permutation_sym Hperm)).
    apply in_concat. now exists chans.
  - intros c Hc. apply (Permutation_in c Hperm) in Hc.
    apply in_concat in Hc as (chans & Hcin & Hinc).
    destruct (Forall2_In_right _ _ _ _ Hparts Hcin) as ([k n] & Hk & Hkin).
    exists k, n, chans. auto.
Qed.

End ByPeer.

Lemma FetchAllChannels_by_peer_witness :
  exists all chans,
    FetchAllChannels db_peer_with_open_channel = Ok all /\
    FetchOpenChannels (sample_pub x33) db_peer_with_open_channel =
      Ok chans /\
    incl chans all.
Proof.
  assert (Hall : exists all,
            FetchAllChannels db_peer_with_open_channel = Ok all)
    by (eexists; vm_compute; reflexivity).
  destruct Hall as [all Hall].
  destruct (FetchAllChannels_by_peer db_peer_with_open_channel _ _ all
              eq_refl eq_refl Hall) as [Hpeers _].
  destruct (Hpeers (sample_pub x33) (Value [x01]) (or_introl eq_refl))
    as (chans & Hc & Hincl).
  exists all, chans. split; [exact Hall|]. split; assumption.
Defined.

(* ------------------------------------------------------------------ *)
(** ** Restored channel ids *)



(* ------------------------------------------------------------------ *)
(** ** Pruning link nodes *)

Section Prune.
Context `{channel_go}.




End Prune.



(* ------------------------------------------------------------------ *)
(** ** Reading a summary after it was marked fully closed *)

(** X16. [MarkChanFullyClosed] returns nil only for an outpoint whose
    summary [FetchClosedChannel] could read before.  Afterwards
    [FetchClosedChannel] decodes, for that outpoint, what the serializer
    wrote for that summary with the pending flag false (so it returns
    that summary when the decoder inverts the serializer there), and it
    answers as before for every outpoint with another key. *)
Theorem MarkChanFullyClosed_then_fetch `{channel_go}
    (chanPoint : OutPoint) (d d' : DB) :
  MarkChanFullyClosed chanPoint d = (d', Ok tt) ->
  exists chanSummary newSummary,
    FetchClosedChannel chanPoint d = Ok chanSummary /\
    serializeChannelCloseSummary (set_IsPending chanSummary false) =
      inr newSummary /\
    FetchClosedChannel chanPoint d' =
      call (deserializeCloseChannelSummary newSummary) /\
    (deserializeCloseChannelSummary newSummary =
       inr (set_IsPending chanSummary false) ->
     exists summary,
       FetchClosedChannel chanPoint d' = Ok summary /\
       IsPending summary = false /\
       set_IsPending summary (IsPending chanSummary) =
         set_IsPending chanSummary (IsPending chanSummary)) /\
    (forall other,
       writeOutpoint other <> writeOutpoint chanPoint ->
       FetchClosedChannel other d' = FetchClosedChannel other d).
Proof.
  destruct bucket_names_distinct as (Hco & Hcn & Hno & Hc & Hnc).
  unfold MarkChanFullyClosed, DB_Update.
  destruct (MarkChanFullyClosed_tx chanPoint d) as [tx'| |] eqn:Hbody;
    try discriminate.
  intros E; inversion E; subst tx'; clear E.
  revert Hbody.
  unfold MarkChanFullyClosed_tx, Tx_CreateBucketIfNotExists,
    Bucket_CreateBucketIfNotExists.
  destruct closedChannelBucket as [|x name] eqn:En; [congruence|].
  rewrite <- En in *.
  destruct (find_key closedChannelBucket d) as [[v|closed]|] eqn:Hf; simpl;
    try discriminate.
  destruct (Bucket_Get closed (writeOutpoint chanPoint)) as [old|] eqn:Hget;
    try discriminate.
  destruct (deserializeCloseChannelSummary old) as [e|s] eqn:Hde; simpl;
    try discriminate.
  destruct (serializeChannelCloseSummary (set_IsPending s false))
    as [e|new] eqn:Hser; simpl; try discriminate.
  rewrite (Bucket_Put_value closed _ new old
             (writeOutpoint_not_nil chanPoint) Hget). simpl.
  intros Hprune.
  pose proof (pruneLinkNode_frame _ _ _ Hprune closedChannelBucket Hcn)
    as Hframe.
  unfold Bucket_store in Hframe. rewrite find_key_put_node_same in Hframe.
  assert (Hread : FetchClosedChannel chanPoint d' =
                  call (deserializeCloseChannelSummary new)).
  { unfold FetchClosedChannel, DB_View, Tx_Bucket, Bucket_Bucket.
    rewrite Hframe. unfold Bucket_Get.
    now rewrite find_key_put_node_same. }
  exists s, new. split; [|split; [exact Hser|split; [exact Hread|split]]].
  - unfold FetchClosedChannel, DB_View, Tx_Bucket, Bucket_Bucket.
    rewrite Hf, Hget, Hde. reflexivity.
  - intros Hinv. exists (set_IsPending s false).
    rewrite Hread, Hinv. repeat split.
  - intros other Hother.
    unfold FetchClosedChannel, DB_View, Tx_Bucket, Bucket_Bucket.
    rewrite Hframe, Hf. unfold Bucket_Get.
    rewrite find_key_put_node_other by congruence. reflexivity.
Qed.

Lemma MarkChanFullyClosed_then_fetch_witness :
  let d' := fst (MarkChanFullyClosed op_low db_peer_with_open_channel) in
  MarkChanFullyClosed op_low db_peer_with_open_channel = (d', Ok tt) /\
  FetchClosedChannel op_low db_peer_with_open_channel =
    Ok (sample_summary op_low LocalForceClose 100 true) /\
  FetchClosedChannel op_low d' =
    Ok (sample_summary op_low LocalForceClose 100 false).
Proof.
  intros d'.
  assert (Hrun : MarkChanFullyClosed op_low db_peer_with_open_channel =
                 (d', Ok tt)) by (vm_compute; reflexivity).
  split; [exact Hrun|].
  pose proof (MarkChanFullyClosed_then_fetch op_low
                db_peer_with_open_channel d') as Hthen.
  destruct (Hthen Hrun) as (s & new & Hs & Hser & Hread & _).
  vm_compute in Hs. injection Hs as <-.
  vm_compute in Hser. injection Hser as <-.
  split; [vm_compute; reflexivity|].
  rewrite Hread. vm_compute. reflexivity.
Defined.

(* ------------------------------------------------------------------ *)
(** ** The channels of a peer *)

Section PeerChannels.
Context `{channel_go}.

Lemma fetchNodeChannels_sound (chainBucket : bucket)
    (channels : list OpenChannel) :
  fetchNodeChannels chainBucket = Ok channels ->
  forall c,
    In c channels ->
    exists chanPoint chanBucket outPoint,
      Bucket_Bucket chainBucket chanPoint = Some chanBucket /\
      readOutpoint chanPoint = Ok outPoint /\
      fetchOpenChannel chanBucket outPoint = inr c.
Proof.
  unfold fetchNodeChannels. intros Hrun.
  pose (Inv := fun l : list OpenChannel =>
          forall c,
            In c l ->
            exists chanPoint chanBucket outPoint,
              Bucket_Bucket chainBucket chanPoint = Some chanBucket /\
              readOutpoint chanPoint = Ok outPoint /\
              fetchOpenChannel chanBucket outPoint = inr c).
  assert (Hinv : Inv channels); [|exact Hinv].
  eapply (Bucket_ForEach_invariant Inv); [| |exact Hrun].
  - intros k n st st' _ Hst.
    destruct (node_value n); [intros E; inversion E; now subst|].
    destruct (readOutpoint k) as [o| |] eqn:Ho; simpl; try discriminate.
    destruct (Bucket_Bucket chainBucket k) as [cb|] eqn:Hcb;
      try discriminate.
    destruct (fetchOpenChannel cb o) as [e|oc] eqn:Hf; try discriminate.
    intros E; inversion E; subst st'. intros c Hin.
    apply in_app_or in Hin as [Hin|[<-|[]]]; [now apply Hst|].
    exists k, cb, o. repeat split; assumption.
  - intros c [].
Qed.

(** X17. Every channel that [FetchOpenChannels] returns for a peer was
    decoded by [fetchOpenChannel] from a bucket of a chain bucket of the
    peer's own bucket in the open-channel tree, with the outpoint read
    from the key of that bucket.  When the open-channel bucket or the
    bucket of the peer is missing, [FetchOpenChannels] returns the empty
    list and no error. *)
Theorem FetchOpenChannels_sound (nodeID : bytes) (d : DB) :
  (forall channels c,
     FetchOpenChannels nodeID d = Ok channels ->
     In c channels ->
     exists openChanBucket nodeChanBucket chainHash chainBucket chanPoint
            chanBucket outPoint,
       Tx_Bucket d openChannelBucket = Some openChanBucket /\
       Bucket_Bucket openChanBucket nodeID = Some nodeChanBucket /\
       Bucket_Bucket nodeChanBucket chainHash = Some chainBucket /\
       Bucket_Bucket chainBucket chanPoint = Some chanBucket /\
       readOutpoint chanPoint = Ok outPoint /\
       fetchOpenChannel chanBucket outPoint = inr c) /\
  (Tx_Bucket d openChannelBucket = None ->
   FetchOpenChannels nodeID d = Ok []) /\
  (forall openChanBucket,
     Tx_Bucket d openChannelBucket = Some openChanBucket ->
     Bucket_Bucket openChanBucket nodeID = None ->
     FetchOpenChannels nodeID d = Ok []).
Proof.
  unfold FetchOpenChannels, DB_View, fetchOpenChannels.
  split; [|split; [intros ->; reflexivity
                  |intros O -> ->; reflexivity]].
  intros channels c.
  destruct (Tx_Bucket d openChannelBucket) as [O|];
    [|intros E; inversion E; intros []].
  destruct (Bucket_Bucket O nodeID) as [NB|] eqn:HNB;
    [|intros E; inversion E; intros []].
  intros Hrun.
  pose (Inv := fun l : list OpenChannel =>
          forall c,
            In c l ->
            exists chainHash chainBucket chanPoint chanBucket outPoint,
              Bucket_Bucket NB chainHash = Some chainBucket /\
              Bucket_Bucket chainBucket chanPoint = Some chanBucket /\
              readOutpoint chanPoint = Ok outPoint /\
              fetchOpenChannel chanBucket outPoint = inr c).
  assert (Hinv : Inv channels).
  { eapply (Bucket_ForEach_invariant Inv); [| |exact Hrun].
    - intros chainHash n st st' _ Hst.
      destruct (node_value n); [intros E; inversion E; now subst|].
      destruct (Bucket_Bucket NB chainHash) as [CB|] eqn:HCB;
        try discriminate.
      destruct (fetchNodeChannels CB) as [l| |] eqn:Hl; try discriminate.
      intros E; inversion E; subst st'. intros c0 Hin.
      apply in_app_or in Hin as [Hin|Hin]; [now apply Hst|].
      destruct (fetchNodeChannels_sound CB l Hl c0 Hin)
        as (k & LB & o & Hk & Ho & Hc).
      exists chainHash, CB, k, LB, o. repeat split; assumption.
    - intros c0 []. }
  intros Hin.
  destruct (Hinv c Hin) as (chainHash & CB & k & LB & o & H1 & H2 & H3 & H4).
  exists O, NB, chainHash, CB, k, LB, o. repeat split; assumption.
Qed.

End PeerChannels.

Lemma FetchOpenChannels_sound_witness :
  (exists c openChanBucket nodeChanBucket chainHash chainBucket chanPoint
          chanBucket outPoint,
     FetchOpenChannels (sample_pub x33) db_peer_with_open_channel =
       Ok [c] /\
     Tx_Bucket db_peer_with_open_channel openChannelBucket =
       Some openChanBucket /\
     Bucket_Bucket openChanBucket (sample_pub x33) = Some nodeChanBucket /\
     Bucket_Bucket nodeChanBucket chainHash = Some chainBucket /\
     Bucket_Bucket chainBucket chanPoint = Some chanBucket /\
     readOutpoint chanPoint = Ok outPoint /\
     fetchOpenChannel chanBucket outPoint = inr c) /\
  FetchOpenChannels (sample_pub x33) db_one_closed = Ok [] /\
  FetchOpenChannels (sample_pub x44) db_peer_with_open_channel = Ok [].
Proof.
  split; [|split].
  - assert (Hrun : exists c,
              FetchOpenChannels (sample_pub x33) db_peer_with_open_channel =
                Ok [c])
      by (eexists; vm_compute; reflexivity).
    destruct Hrun as [c Hrun].
    pose proof (FetchOpenChannels_sound (sample_pub x33)
                  db_peer_with_open_channel) as [Hsound _].
    destruct (Hsound [c] c Hrun (or_introl eq_refl))
      as (O & NB & chainHash & CB & k & LB & o & Hrest).
    exists c, O, NB, chainHash, CB, k, LB, o.
    split; [exact Hrun|exact Hrest].
  - pose proof (FetchOpenChannels_sound (sample_pub x33) db_one_closed)
      as (_ & Hmissing & _).
    apply Hmissing. reflexivity.
  - pose proof (FetchOpenChannels_sound (sample_pub x44)
                  db_peer_with_open_channel) as (_ & _ & Hpeer).
    eapply Hpeer; reflexivity.
Defined.
